(** * chromium-bidi mapper: network storage, target attach and target unblock

    A shallow embedding of the BiDi-to-CDP mapper core:

    - [NetworkStorage] (network request table and intercept registry),
    - [BrowsingContextProcessor] (target attach, [setViewport]),
    - [CdpTarget] (the unblock batch and the Network/Fetch toggling),
    - [BrowsingContextCommands] (the commands [create], [activate], [close]
      and [handleUserPrompt] of the processor, and its frame events),
    - [InputActions] ([#getActionsByTick] of the earlier processor),
    - [MessageTransport] (the transport of the server runner).

    Conventions.  A JavaScript [Map] that is only queried by key or folded
    with a commutative operation is a [gmap]; the request table, which the
    code also walks in insertion order, is an association list.  Methods
    that mutate [this] are state transformers in a state-and-exception
    monad; calls that leave the class (CDP commands, methods of objects
    whose class is outside the modelled sources) are recorded in a trace. *)

From stdpp Require Import gmap strings list fin_maps.
From Stdlib Require Import ZArith.

(** ** CDP protocol vocabulary *)

Module Cdp.

Inductive RequestStage := Request | Response.

(** One entry of [Protocol.Fetch.EnableRequest['patterns']]. *)
Record RequestPattern := {
  urlPattern : string;
  requestStage : RequestStage
}.

(** What a rejected [sendCommand] throws: [{code, message}]. *)
Record CdpError := {
  code : Z;
  message : string
}.

Inductive Reply := Fulfilled | Rejected (e : CdpError).

(** The CDP commands the modelled code sends. *)
Inductive Command :=
| Runtime_enable
| Page_enable
| Page_setLifecycleEventsEnabled (enabled : bool)
| Security_setIgnoreCertificateErrors (ignore : bool)
| Network_enable
| Network_disable
| Fetch_enable (patterns : list RequestPattern) (handleAuthRequests : bool)
| Fetch_disable
| Fetch_continueWithAuth (requestId : option string) (response : string)
| Target_setAutoAttach (autoAttach waitForDebuggerOnStart flatten : bool)
| Page_addScriptToEvaluateOnNewDocument (script : string)
| Runtime_runIfWaitingForDebugger.

#[global] Instance RequestStage_eq_dec : EqDecision RequestStage.
Proof. solve_decision. Defined.
#[global] Instance RequestPattern_eq_dec : EqDecision RequestPattern.
Proof. solve_decision. Defined.
#[global] Instance CdpError_eq_dec : EqDecision CdpError.
Proof. solve_decision. Defined.
#[global] Instance Reply_eq_dec : EqDecision Reply.
Proof. solve_decision. Defined.
#[global] Instance Command_eq_dec : EqDecision Command.
Proof. solve_decision. Defined.

End Cdp.

(** ** Two facts on [filter] *)

Lemma filter_iff_elem {A} (P1 P2 : A → Prop)
    `{!∀ x, Decision (P1 x), !∀ x, Decision (P2 x)} (l : list A) :
  (∀ x, x ∈ l → (P1 x ↔ P2 x)) → filter P1 l = filter P2 l.
Proof.
  induction l as [|a l IH]; intros Hiff; [done|].
  rewrite !filter_cons.
  rewrite IH by (intros x Hx; apply Hiff; by apply list_elem_of_further).
  apply decide_ext, Hiff, list_elem_of_here.
Qed.

Lemma filter_all {A} (P : A → Prop) `{!∀ x, Decision (P x)} (l : list A) :
  (∀ x, x ∈ l → P x) → filter P l = l.
Proof.
  induction l as [|a l IH]; intros Hall; [done|].
  rewrite filter_cons, decide_True by apply Hall, list_elem_of_here.
  f_equal. apply IH. intros x Hx. by apply Hall, list_elem_of_further.
Qed.

(** ** An insertion-ordered map, as a JavaScript [Map] with string keys *)

Module JsMap.
Section JsMap.
Context {V : Type}.

Fixpoint get (k : string) (m : list (string * V)) : option V :=
  match m with
  | [] => None
  | (k', v) :: m' => if decide (k' = k) then Some v else get k m'
  end.

(** [Map.set]: an existing key keeps its position. *)
Fixpoint set (k : string) (v : V) (m : list (string * V)) : list (string * V) :=
  match m with
  | [] => [(k, v)]
  | (k', v') :: m' =>
      if decide (k' = k) then (k, v) :: m' else (k', v') :: set k v m'
  end.

Definition delete (k : string) (m : list (string * V)) : list (string * V) :=
  filter (λ kv, kv.1 ≠ k) m.

Definition values (m : list (string * V)) : list V := m.*2.

Lemma get_set_eq k v m : get k (set k v m) = Some v.
Proof.
  induction m as [|[k' v'] m IH]; simpl.
  - by rewrite decide_True.
  - destruct (decide (k' = k)); simpl.
    + by rewrite decide_True.
    + by rewrite decide_False.
Qed.

Lemma get_set_ne k k' v m : k ≠ k' → get k' (set k v m) = get k' m.
Proof.
  intros Hne. induction m as [|[k0 v0] m IH]; simpl.
  - by rewrite decide_False.
  - destruct (decide (k0 = k)) as [->|]; simpl.
    + by rewrite !decide_False.
    + by rewrite IH.
Qed.

Lemma get_delete_eq k m : get k (delete k m) = None.
Proof.
  induction m as [|[k' v'] m IH]; [done|].
  unfold delete in *. rewrite filter_cons. simpl.
  destruct (decide (k' ≠ k)); simpl; [|done].
  by rewrite decide_False.
Qed.

Lemma get_delete_ne k k' m : k ≠ k' → get k' (delete k m) = get k' m.
Proof.
  intros Hne. induction m as [|[k0 v0] m IH]; [done|].
  unfold delete in *. rewrite filter_cons. simpl.
  destruct (decide (k0 ≠ k)) as [|Heq]; simpl.
  - by rewrite IH.
  - apply dec_stable in Heq. subst k0. by rewrite decide_False.
Qed.

Lemma get_Some_elem_of k v m : get k m = Some v → (k, v) ∈ m.
Proof.
  induction m as [|[k' v'] m IH]; simpl; [done|].
  destruct (decide (k' = k)) as [->|]; intros H.
  - injection H as ->. apply list_elem_of_here.
  - apply list_elem_of_further. auto.
Qed.

Lemma get_None_not_elem_of k m : get k m = None → ∀ v, (k, v) ∉ m.
Proof.
  induction m as [|[k' v'] m IH]; simpl; intros H v Hin.
  - by apply elem_of_nil in Hin.
  - destruct (decide (k' = k)) as [->|]; [done|].
    apply elem_of_cons in Hin as [Heq|Hin]; [congruence|].
    by apply (IH H v).
Qed.

Lemma delete_set k v m : delete k (set k v m) = delete k m.
Proof.
  unfold delete. induction m as [|[k' v'] m IH]; simpl.
  - rewrite filter_cons. simpl. by rewrite decide_False by naive_solver.
  - destruct (decide (k' = k)) as [->|Hne].
    + rewrite !filter_cons. simpl. by rewrite !decide_False by naive_solver.
    + rewrite !filter_cons. simpl. by rewrite IH.
Qed.

Lemma delete_absent k m : get k m = None → delete k m = m.
Proof.
  unfold delete. induction m as [|[k' v'] m IH]; simpl; [done|].
  destruct (decide (k' = k)); [done|]. intros H.
  rewrite filter_cons. simpl. rewrite decide_True by done. by rewrite IH.
Qed.

Lemma set_absent k v m : get k m = None → set k v m = m ++ [(k, v)].
Proof.
  induction m as [|[k' v'] m IH]; simpl; [done|].
  destruct (decide (k' = k)); [done|]. intros H. by rewrite IH.
Qed.

Lemma set_last k v v' m : get k m = None → set k v' (m ++ [(k, v)]) = m ++ [(k, v')].
Proof.
  induction m as [|[k0 v0] m IH]; simpl.
  - by rewrite decide_True.
  - destruct (decide (k0 = k)); [done|]. intros H. by rewrite IH.
Qed.

Lemma get_elem_of k v m : NoDup m.*1 → (k, v) ∈ m → get k m = Some v.
Proof.
  induction m as [|[k' v'] m IH]; simpl; intros Hnd Hin.
  - by apply elem_of_nil in Hin.
  - apply NoDup_cons in Hnd as [Hk' Hnd].
    apply elem_of_cons in Hin as [[= -> ->]|Hin].
    + by rewrite decide_True.
    + rewrite decide_False; [by apply IH|].
      intros ->. apply Hk'. apply list_elem_of_fmap. by exists (k, v).
Qed.

Lemma delete_keys k m : NoDup m.*1 → NoDup (delete k m).*1.
Proof.
  intros Hnd. unfold delete.
  apply (sublist_NoDup _ m.*1); [done|].
  apply fmap_sublist. apply sublist_filter.
Qed.

Lemma set_keys_present k v v0 m :
  get k m = Some v0 → (set k v m).*1 = m.*1.
Proof.
  induction m as [|[k' v'] m IH]; [done|]. cbn [get set].
  destruct (decide (k' = k)) as [->|]; [done|].
  intros H. rewrite !fmap_cons. by rewrite IH.
Qed.

Lemma get_None_keys k m : get k m = None → k ∉ m.*1.
Proof.
  intros Hnone Hin. apply list_elem_of_fmap in Hin as ([k' v] & -> & Hin).
  by apply (get_None_not_elem_of _ _ Hnone v).
Qed.

Lemma set_NoDup k v m : NoDup m.*1 → NoDup (set k v m).*1.
Proof.
  intros Hnd. destruct (get k m) as [v0|] eqn:Hget.
  - by rewrite (set_keys_present _ _ v0).
  - rewrite set_absent, fmap_app by done. simpl.
    apply NoDup_app. split_and!; [done| |apply NoDup_singleton].
    intros x Hx ->%list_elem_of_singleton. by apply (get_None_keys _ _ Hget).
Qed.

Lemma elem_of_set k v k' v' m :
  (k', v') ∈ set k v m → (k' = k ∧ v' = v) ∨ (k', v') ∈ m.
Proof.
  induction m as [|[k0 v0] m IH]; simpl.
  - intros [=]%list_elem_of_singleton. auto.
  - destruct (decide (k0 = k)) as [->|].
    + intros [[=]|Hin]%elem_of_cons; [auto|].
      right. by apply list_elem_of_further.
    + intros [[= -> ->]|Hin]%elem_of_cons.
      * right. apply list_elem_of_here.
      * destruct (IH Hin); [auto|]. right. by apply list_elem_of_further.
Qed.

End JsMap.
End JsMap.

(** ** State and exceptions

    A method body is a function from the object's state to an outcome and
    the state it leaves behind; what it assigned before it threw stays
    assigned. *)

Inductive Exception :=
| NoSuchInterceptException (message : string)
| InvalidArgumentException (message : string)
| NoSuchFrameException (message : string)
| CdpException (e : Cdp.CdpError).

Inductive Outcome (A : Type) :=
| Returned (a : A)
| Thrown (e : Exception).
Arguments Returned {A} a.
Arguments Thrown {A} e.

Definition M (S A : Type) : Type := S → Outcome A * S.

#[export] Instance M_ret {S} : MRet (M S) := λ A a s, (Returned a, s).
#[export] Instance M_bind {S} : MBind (M S) := λ A B f m s,
  match m s with
  | (Returned a, s') => f a s'
  | (Thrown e, s') => (Thrown e, s')
  end.

Definition throw {S A} (e : Exception) : M S A := λ s, (Thrown e, s).
Definition gets {S A} (f : S → A) : M S A := λ s, (Returned (f s), s).
Definition modify {S} (f : S → S) : M S unit := λ s, (Returned tt, f s).

(** [for (const x of xs) body(x)] *)
Fixpoint for_of {S A} (xs : list A) (body : A → M S unit) : M S unit :=
  match xs with
  | [] => mret tt
  | x :: xs' => body x ≫= λ _, for_of xs' body
  end.

(** A projection of the state that a computation leaves as it found it. *)
Definition Frame {S X A} (proj : S → X) (m : M S A) : Prop :=
  ∀ s, proj (m s).2 = proj s.

Lemma frame_ret {S X A} (proj : S → X) (a : A) : Frame proj (mret a).
Proof. done. Qed.

Lemma frame_throw {S X A} (proj : S → X) e : Frame proj (throw (A:=A) e).
Proof. done. Qed.

Lemma frame_gets {S X A} (proj : S → X) (f : S → A) : Frame proj (gets f).
Proof. done. Qed.

Lemma frame_modify {S X} (proj : S → X) (f : S → S) :
  (∀ s, proj (f s) = proj s) → Frame proj (modify f).
Proof. intros H s. apply H. Qed.

Lemma frame_bind {S X A B} (proj : S → X) (m : M S A) (f : A → M S B) :
  Frame proj m → (∀ a, Frame proj (f a)) → Frame proj (m ≫= f).
Proof.
  intros Hm Hf s. unfold mbind, M_bind. specialize (Hm s).
  destruct (m s) as [[a|e] s']; simpl in *; [|done].
  by rewrite Hf.
Qed.

Lemma frame_for_of {S X A} (proj : S → X) (xs : list A) (body : A → M S unit) :
  (∀ x, Frame proj (body x)) → Frame proj (for_of xs body).
Proof.
  intros Hbody. induction xs as [|x xs IH]; simpl.
  - apply frame_ret.
  - apply frame_bind; auto.
Qed.

(** An invariant of the state that a computation keeps. *)
Definition Keeps {S A} (I : S → Prop) (m : M S A) : Prop :=
  ∀ s, I s → I (m s).2.

Lemma keeps_ret {S A} (I : S → Prop) (a : A) : Keeps I (mret a).
Proof. by intros s. Qed.

Lemma keeps_throw {S A} (I : S → Prop) e : Keeps I (throw (A:=A) e).
Proof. by intros s. Qed.

Lemma keeps_gets {S A} (I : S → Prop) (f : S → A) : Keeps I (gets f).
Proof. by intros s. Qed.

Lemma keeps_modify {S} (I : S → Prop) (f : S → S) :
  (∀ s, I s → I (f s)) → Keeps I (modify f).
Proof. intros H s. apply H. Qed.

Lemma keeps_bind {S A B} (I : S → Prop) (m : M S A) (f : A → M S B) :
  Keeps I m → (∀ a, Keeps I (f a)) → Keeps I (m ≫= f).
Proof.
  intros Hm Hf s Hs. unfold mbind, M_bind. specialize (Hm s Hs).
  destruct (m s) as [[a|e] s']; simpl in *; [|done].
  by apply Hf.
Qed.

Lemma keeps_for_of {S A} (I : S → Prop) (xs : list A) (body : A → M S unit) :
  (∀ x, Keeps I (body x)) → Keeps I (for_of xs body).
Proof.
  intros Hbody. induction xs as [|x xs IH]; simpl.
  - apply keeps_ret.
  - apply keeps_bind; auto.
Qed.

Create HintDb frame discriminated.
#[export] Hint Resolve frame_ret frame_throw frame_gets frame_for_of : frame.

Ltac frame_step :=
  first
    [ solve [eauto with frame]
    | apply frame_bind; [|intros ?]
    | apply frame_modify; by intros []
    | match goal with
      | |- Frame _ (match ?x with _ => _ end) => destruct x
      | |- Frame _ (if ?b then _ else _) => destruct b
      | |- Frame _ (let _ := _ in _) => cbv zeta
      end ].

Ltac frame_solve := repeat frame_step.

Create HintDb keeps discriminated.
#[export] Hint Resolve keeps_ret keeps_throw keeps_gets : keeps.

Ltac keeps_step :=
  first
    [ solve [eauto with keeps]
    | apply keeps_bind; [|intros ?]
    | apply keeps_for_of; intros ?
    | match goal with
      | |- Keeps _ (match ?x with _ => _ end) => destruct x
      | |- Keeps _ (if ?b then _ else _) => destruct b
      | |- Keeps _ (let _ := _ in _) => cbv zeta
      end ].

Ltac keeps_solve := repeat keeps_step.

(** ** BiDi network vocabulary *)

Module Network.

Inductive InterceptPhase := BeforeRequestSent | ResponseStarted | AuthRequired.

#[export] Instance InterceptPhase_eq_dec : EqDecision InterceptPhase.
Proof. solve_decision. Defined.

End Network.

(** ** NetworkStorage: network request table and intercept registry *)

Module NetworkStorage.
Import Network.

(** The [CdpTarget] object a listener was registered for, as far as
    [NetworkStorage] looks at it: [cdpTarget.id] and
    [cdpTarget.cdpClient.sessionId]. *)
Record CdpTarget := {
  targetId : string;
  sessionId : option string
}.

#[export] Instance CdpTarget_eq_dec : EqDecision CdpTarget.
Proof. solve_decision. Defined.

(** [{request, response, auth}] *)
Record Stages := {
  request : bool;
  response : bool;
  auth : bool
}.

#[export] Instance Stages_eq_dec : EqDecision Stages.
Proof. solve_decision. Defined.

Section NetworkStorage.

(** [Network.UrlPattern] and [matchUrlPattern] of [NetworkUtils]. *)
Context {UrlPattern : Type}.
Variable matchUrlPattern : UrlPattern → string → bool.

(** The payload of a CDP event, beyond the ids the storage reads. *)
Context {Payload : Type}.

Record NetworkEvent := {
  requestId : string;
  params : Payload
}.

(** [Protocol.Fetch.RequestPausedEvent] *)
Record RequestPausedEvent := {
  paused_requestId : string;
  networkId : option string;
  paused_params : Payload
}.

(** [Protocol.Fetch.AuthRequiredEvent]; the code guards against a
    missing [requestId]. *)
Record AuthRequiredEvent := {
  auth_requestId : option string;
  auth_params : Payload
}.

(** The methods of [NetworkRequest] that the storage calls. *)
Inductive RequestCall :=
| onRequestWillBeSentEvent (e : NetworkEvent)
| handleRedirect (e : NetworkEvent)
| onRequestWillBeSentExtraInfoEvent (e : NetworkEvent)
| onResponseReceivedEvent (e : NetworkEvent)
| onResponseReceivedExtraInfoEvent (e : NetworkEvent)
| onServedFromCache
| onLoadingFailedEvent (e : NetworkEvent)
| onRequestPaused (e : RequestPausedEvent)
| onAuthRequired (e : AuthRequiredEvent)
| dispose.

(** The mutable part of a [NetworkRequest]: its class is outside the
    modelled sources, so its state is a parameter, with the getters the
    storage reads and the effect [invoke] of each method on it. *)
Context {ReqState : Type}.
Variable initialState : ReqState.
Variable isRedirecting : ReqState → bool.
Variable fetchId : ReqState → option string.
Variable url : ReqState → option string.
Variable invoke : RequestCall → ReqState → ReqState.

(** Modelled from the spec: the [NetworkRequest] object.  The BiDi
    request id, the redirect count and the owning target are fixed by
    the constructor; everything else is [state]. *)
Record NetworkRequest := {
  id : string;
  redirectCount : nat;
  cdpTarget : CdpTarget;
  state : ReqState
}.

(** Modelled from the spec: [new NetworkRequest(id, eventManager,
    networkStorage, cdpTarget, redirectCount)], the redirect count of
    a first attempt being 0. *)
Definition newNetworkRequest (i : string) (t : CdpTarget)
    (count : option nat) : NetworkRequest :=
  {| id := i; redirectCount := default 0 count; cdpTarget := t;
     state := initialState |}.

Record NetworkInterception := {
  urlPatterns : list UrlPattern;
  phases : list InterceptPhase
}.

(** What leaves the class. *)
Inductive Effect :=
| New (r : NetworkRequest)
| Call (r : NetworkRequest) (c : RequestCall)
| SendCommand (t : CdpTarget) (c : Cdp.Command)
| EnableFetchIfNeeded (t : CdpTarget)
    (patterns : list Cdp.RequestPattern) (handleAuthRequests : bool)
| DisableFetchIfNeeded (t : CdpTarget).

(** How the targets answer [enableFetchIfNeeded] and
    [disableFetchIfNeeded], given everything that happened up to and
    including the call. *)
Variable cdpReply : list Effect → Cdp.Reply.

(** The private fields, and the trace of effects. *)
Record Storage := {
  targets : list CdpTarget;
  requests : list (string * NetworkRequest);
  intercepts : gmap string NetworkInterception;
  interceptionStages : Stages;
  trace : list Effect
}.

Definition set_targets f (s : Storage) : Storage :=
  {| targets := f (targets s); requests := requests s;
     intercepts := intercepts s;
     interceptionStages := interceptionStages s; trace := trace s |}.
Definition set_requests f (s : Storage) : Storage :=
  {| targets := targets s; requests := f (requests s);
     intercepts := intercepts s;
     interceptionStages := interceptionStages s; trace := trace s |}.
Definition set_intercepts f (s : Storage) : Storage :=
  {| targets := targets s; requests := requests s;
     intercepts := f (intercepts s);
     interceptionStages := interceptionStages s; trace := trace s |}.
Definition set_interceptionStages v (s : Storage) : Storage :=
  {| targets := targets s; requests := requests s;
     intercepts := intercepts s;
     interceptionStages := v; trace := trace s |}.
Definition set_trace f (s : Storage) : Storage :=
  {| targets := targets s; requests := requests s;
     intercepts := intercepts s;
     interceptionStages := interceptionStages s; trace := f (trace s) |}.

(** The state of a new [NetworkStorage]. *)
Definition empty : Storage :=
  {| targets := []; requests := []; intercepts := ∅;
     interceptionStages :=
       {| request := false; response := false; auth := false |};
     trace := [] |}.

Definition emit (e : Effect) : M Storage unit :=
  modify (set_trace (λ t, t ++ [e])).

(** *** The request table *)

Definition getRequestById (i : string) : M Storage (option NetworkRequest) :=
  gets (λ s, JsMap.get i (requests s)).

(** The first request, in insertion order, with the given fetch id,
    with the key it is stored under. *)
Definition entryByFetchId (f : string)
    : M Storage (option (string * NetworkRequest)) :=
  gets (λ s,
    snd <$> list_find (λ kr, fetchId (state kr.2) = Some f) (requests s)).

Definition getRequestByFetchId (f : string)
    : M Storage (option NetworkRequest) :=
  kr ← entryByFetchId f;
  mret (snd <$> kr).

Definition addRequest (r : NetworkRequest) : M Storage unit :=
  modify (set_requests (JsMap.set (id r) r)).

(** A method call on the request held under key [i]: the object is
    updated where it is stored. *)
Definition call (i : string) (c : RequestCall) : M Storage unit :=
  r ← getRequestById i;
  match r with
  | Some r =>
      emit (Call r c);;
      modify (set_requests
        (JsMap.set i {| id := id r; redirectCount := redirectCount r;
                        cdpTarget := cdpTarget r;
                        state := invoke c (state r) |}))
  | None => mret tt
  end.

Definition deleteRequest (i : string) : M Storage unit :=
  r ← getRequestById i;
  match r with
  | Some r =>
      call i dispose;;
      modify (set_requests (JsMap.delete i))
  | None => mret tt
  end.

Definition getOrCreateNetworkRequest (i : string) (t : CdpTarget)
    (count : option nat) : M Storage NetworkRequest :=
  r ← getRequestById i;
  match r with
  | Some r => mret r
  | None =>
      let r := newNetworkRequest i t count in
      emit (New r);;
      addRequest r;;
      mret r
  end.

(** The filter walks the values; [k] is the key the walked object is
    stored under, and the entry that goes is the one under the
    object's own id. *)
Definition disposeRequestMap (session : string) : M Storage unit :=
  rs ← gets (λ s,
    filter (λ kr, sessionId (cdpTarget kr.2) = Some session)
           (requests s));
  for_of rs (λ '(k, r),
    call k dispose;;
    modify (set_requests (JsMap.delete (id r)))).

(** *** The intercept registry *)

(** The loop of [toggleInterception] over [#intercepts.values()]. *)
Definition stagesOf (values : list NetworkInterception) : Stages :=
  foldl (λ stages intercept,
    {| request := request stages
         || bool_decide (BeforeRequestSent ∈ phases intercept);
       response := response stages
         || bool_decide (ResponseStarted ∈ phases intercept);
       auth := auth stages
         || bool_decide (AuthRequired ∈ phases intercept) |})
    {| request := false; response := false; auth := false |} values.

Definition patternsOf (stages : Stages) : list Cdp.RequestPattern :=
  (if request stages || auth stages
   then [ {| Cdp.urlPattern := "*"; Cdp.requestStage := Cdp.Request |} ]
   else [])
  ++
  (if response stages
   then [ {| Cdp.urlPattern := "*"; Cdp.requestStage := Cdp.Response |} ]
   else []).

(** [await Promise.all(targets.map(f))]: every call is made, in the
    order of the set; the batch rejects when a call does. *)
Fixpoint callAll (es : list Effect) : M Storage (list Cdp.Reply) :=
  match es with
  | [] => mret []
  | e :: es' =>
      emit e;;
      r ← gets (λ s, cdpReply (trace s));
      rs ← callAll es';
      mret (r :: rs)
  end.

Fixpoint firstRejection (rs : list Cdp.Reply) : option Cdp.CdpError :=
  match rs with
  | [] => None
  | Cdp.Fulfilled :: rs' => firstRejection rs'
  | Cdp.Rejected e :: _ => Some e
  end.

Definition awaitAll (es : list Effect) : M Storage unit :=
  rs ← callAll es;
  match firstRejection rs with
  | Some e => throw (CdpException e)
  | None => mret tt
  end.

Definition toggleInterception : M Storage unit :=
  s ← gets (λ s, s);
  if bool_decide (size (intercepts s) ≠ 0) then
    let stages := stagesOf (map_to_list (intercepts s)).*2 in
    if bool_decide (request (interceptionStages s) = request stages)
       && bool_decide (response (interceptionStages s) = response stages)
       && bool_decide (auth (interceptionStages s) = auth stages)
    then mret tt
    else
      modify (set_interceptionStages stages);;
      awaitAll
        ((λ t, EnableFetchIfNeeded t (patternsOf stages) (auth stages))
           <$> targets s)
  else
    modify (set_interceptionStages
      {| request := false; response := false; auth := false |});;
    awaitAll (DisableFetchIfNeeded <$> targets s).

(** One pass of the loop body of [requestBlockedBy]. *)
Definition blocks (intercept : NetworkInterception)
    (phase : InterceptPhase) (u : string) : bool :=
  if negb (bool_decide (phase ∈ phases intercept)) then false
  else if bool_decide (length (urlPatterns intercept) = 0) then true
  else existsb (λ pattern, matchUrlPattern pattern u)
               (urlPatterns intercept).

Definition requestBlockedBy (r : NetworkRequest)
    (phase : option InterceptPhase) : M Storage (gset string) :=
  match url (state r), phase with
  | Some u, Some phase =>
      gets (λ s,
        foldr (λ '(interceptId, intercept) result,
                 if blocks intercept phase u
                 then {[ interceptId ]} ∪ result else result)
              ∅ (map_to_list (intercepts s)))
  | _, _ => mret ∅
  end.

(** [interceptId] is what [uuidv4()] returned. *)
Definition addIntercept (interceptId : string)
    (value : NetworkInterception) : M Storage string :=
  modify (set_intercepts (insert interceptId value));;
  toggleInterception;;
  mret interceptId.

Definition removeIntercept (intercept : string) : M Storage unit :=
  present ← gets (λ s, bool_decide (is_Some (intercepts s !! intercept)));
  (if negb present
   then throw (NoSuchInterceptException
                 ("Intercept '" +:+ intercept +:+ "' does not exist."))
   else mret tt);;
  modify (set_intercepts (delete intercept));;
  toggleInterception.

(** *** The listeners installed by [onCdpTargetCreated] *)

Definition handleNetworkInterception (event : RequestPausedEvent)
    (t : CdpTarget) : M Storage unit :=
  let i := default "" (networkId event) in
  getOrCreateNetworkRequest i t None;;
  call i (onRequestPaused event).

Definition handleAuthInterception (event : AuthRequiredEvent)
    (t : CdpTarget) : M Storage unit :=
  kr ← entryByFetchId (default "" (auth_requestId event));
  match kr with
  | None =>
      emit (SendCommand t
              (Cdp.Fetch_continueWithAuth (auth_requestId event) "Default"))
  | Some (k, _) => call k (onAuthRequired event)
  end.

Inductive CdpEvent :=
| Network_requestWillBeSent (e : NetworkEvent)
| Network_requestWillBeSentExtraInfo (e : NetworkEvent)
| Network_responseReceived (e : NetworkEvent)
| Network_responseReceivedExtraInfo (e : NetworkEvent)
| Network_requestServedFromCache (e : NetworkEvent)
| Network_loadingFailed (e : NetworkEvent)
| Fetch_requestPaused (e : RequestPausedEvent)
| Fetch_authRequired (e : AuthRequiredEvent).

Definition listener (t : CdpTarget) (event : CdpEvent) : M Storage unit :=
  match event with
  | Network_requestWillBeSent e =>
      r ← getRequestById (requestId e);
      match r with
      | Some r =>
          if isRedirecting (state r) then
            call (requestId e) (handleRedirect e);;
            deleteRequest (requestId e);;
            getOrCreateNetworkRequest (requestId e) t
              (Some (redirectCount r + 1));;
            call (requestId e) (onRequestWillBeSentEvent e)
          else
            call (requestId e) (onRequestWillBeSentEvent e)
      | None =>
          getOrCreateNetworkRequest (requestId e) t None;;
          call (requestId e) (onRequestWillBeSentEvent e)
      end
  | Network_requestWillBeSentExtraInfo e =>
      getOrCreateNetworkRequest (requestId e) t None;;
      call (requestId e) (onRequestWillBeSentExtraInfoEvent e)
  | Network_responseReceived e =>
      getOrCreateNetworkRequest (requestId e) t None;;
      call (requestId e) (onResponseReceivedEvent e)
  | Network_responseReceivedExtraInfo e =>
      getOrCreateNetworkRequest (requestId e) t None;;
      call (requestId e) (onResponseReceivedExtraInfoEvent e)
  | Network_requestServedFromCache e =>
      getOrCreateNetworkRequest (requestId e) t None;;
      call (requestId e) onServedFromCache
  | Network_loadingFailed e =>
      getOrCreateNetworkRequest (requestId e) t None;;
      call (requestId e) (onLoadingFailedEvent e)
  | Fetch_requestPaused e => handleNetworkInterception e t
  | Fetch_authRequired e => handleAuthInterception e t
  end.

(** [#targets.add(cdpTarget)]; registering the listeners makes
    [listener cdpTarget] run on each event of the target's client. *)
Definition onCdpTargetCreated (t : CdpTarget) : M Storage unit :=
  modify (set_targets (λ ts, if bool_decide (t ∈ ts) then ts else ts ++ [t])).

(** *** Histories of the storage *)

(** What the storage is asked to do over its life: the two intercept
commands, a target being created, a CDP event reaching a target's
listener, [Target.detachedFromTarget] on the browser client, and the two
public methods that change the request table. *)
Inductive Op :=
| OpAddIntercept (interceptId : string) (value : NetworkInterception)
| OpRemoveIntercept (intercept : string)
| OpCdpTargetCreated (t : CdpTarget)
| OpCdpEvent (t : CdpTarget) (event : CdpEvent)
| OpDetachedFromTarget (session : string)
| OpAddRequest (r : NetworkRequest)
| OpDeleteRequest (i : string).

(** The state an operation leaves, whether it returned or threw. *)
Definition perform (op : Op) (s : Storage) : Storage :=
  match op with
  | OpAddIntercept i value => (addIntercept i value s).2
  | OpRemoveIntercept i => (removeIntercept i s).2
  | OpCdpTargetCreated t => (onCdpTargetCreated t s).2
  | OpCdpEvent t event => (listener t event s).2
  | OpDetachedFromTarget session => (disposeRequestMap session s).2
  | OpAddRequest r => (addRequest r s).2
  | OpDeleteRequest i => (deleteRequest i s).2
  end.

Definition run (ops : list Op) (s : Storage) : Storage :=
  foldl (λ s op, perform op s) s ops.

(** [uuidv4()] returned [i] in this operation. *)
Definition generates (i : string) (op : Op) : Prop :=
  match op with
  | OpAddIntercept j _ => j = i
  | _ => False
  end.

Definition removes (i : string) (op : Op) : Prop :=
  match op with
  | OpRemoveIntercept j => j = i
  | _ => False
  end.

(** The request table is keyed by the requests' own ids. *)
Definition keyed (m : list (string * NetworkRequest)) : Prop :=
  NoDup m.*1 ∧ ∀ k r, (k, r) ∈ m → id r = k.

(** *** The request handlers never touch the intercept registry *)

Lemma emit_intercepts e : Frame intercepts (emit e).
Proof. unfold emit. frame_solve. Qed.
#[local] Hint Resolve emit_intercepts : frame.

Lemma call_intercepts i c : Frame intercepts (call i c).
Proof. unfold call, getRequestById. frame_solve. Qed.
#[local] Hint Resolve call_intercepts : frame.

Lemma deleteRequest_intercepts i : Frame intercepts (deleteRequest i).
Proof. unfold deleteRequest, getRequestById. frame_solve. Qed.
#[local] Hint Resolve deleteRequest_intercepts : frame.

Lemma getOrCreateNetworkRequest_intercepts i t count :
  Frame intercepts (getOrCreateNetworkRequest i t count).
Proof.
  unfold getOrCreateNetworkRequest, getRequestById, addRequest. frame_solve.
Qed.
#[local] Hint Resolve getOrCreateNetworkRequest_intercepts : frame.

Lemma disposeRequestMap_intercepts session :
  Frame intercepts (disposeRequestMap session).
Proof.
  unfold disposeRequestMap. apply frame_bind; [frame_solve|].
  intros rs. apply frame_for_of. intros [k r]. frame_solve.
Qed.
#[local] Hint Resolve disposeRequestMap_intercepts : frame.

Lemma callAll_intercepts es : Frame intercepts (callAll es).
Proof. induction es; simpl; frame_solve. Qed.
#[local] Hint Resolve callAll_intercepts : frame.

Lemma awaitAll_intercepts es : Frame intercepts (awaitAll es).
Proof. unfold awaitAll. frame_solve. Qed.
#[local] Hint Resolve awaitAll_intercepts : frame.

Lemma toggleInterception_intercepts : Frame intercepts toggleInterception.
Proof. unfold toggleInterception. frame_solve. Qed.
#[local] Hint Resolve toggleInterception_intercepts : frame.

Lemma listener_intercepts t event : Frame intercepts (listener t event).
Proof.
  unfold listener, handleNetworkInterception, handleAuthInterception,
    getRequestById, entryByFetchId.
  frame_solve.
Qed.
#[local] Hint Resolve listener_intercepts : frame.

Lemma onCdpTargetCreated_intercepts t : Frame intercepts (onCdpTargetCreated t).
Proof. unfold onCdpTargetCreated. frame_solve. Qed.
#[local] Hint Resolve onCdpTargetCreated_intercepts : frame.

(** *** Adding and removing intercepts *)

Definition noSuchIntercept (i : string) : Exception :=
  NoSuchInterceptException ("Intercept '" +:+ i +:+ "' does not exist.").

Lemma callAll_returns es s : ∃ rs, (callAll es s).1 = Returned rs.
Proof.
  revert s. induction es as [|e es IH]; intros s; simpl; [by eexists|].
  unfold mbind, M_bind, emit, modify, gets. simpl.
  destruct (IH (set_trace (λ t, t ++ [e]) s)) as (rs & Hrs).
  destruct (callAll es _) as [[rs'|?] s']; simpl in *; [|done].
  by eexists.
Qed.

(** The synchronisation either returns or fails with a CDP error. *)
Lemma awaitAll_outcome es s :
  (awaitAll es s).1 = Returned tt
  ∨ ∃ e, (awaitAll es s).1 = Thrown (CdpException e).
Proof.
  unfold awaitAll, mbind, M_bind.
  destruct (callAll_returns es s) as (rs & Hrs).
  destruct (callAll es s) as [[rs'|?] s']; simpl in *; [|done].
  destruct (firstRejection rs'); [right; by eexists | by left].
Qed.

Lemma toggleInterception_outcome s :
  (toggleInterception s).1 = Returned tt
  ∨ ∃ e, (toggleInterception s).1 = Thrown (CdpException e).
Proof.
  unfold toggleInterception, mbind, M_bind, gets, modify. simpl.
  destruct (bool_decide (size _ ≠ 0)); [destruct (_ && _)|]; simpl;
    auto using awaitAll_outcome.
Qed.

Lemma removeIntercept_absent i s :
  intercepts s !! i = None →
  removeIntercept i s = (Thrown (noSuchIntercept i), s).
Proof.
  intros Hnone. unfold removeIntercept, mbind, M_bind, gets. simpl.
  rewrite bool_decide_eq_false_2; [done|]. rewrite Hnone. by intros [? ?].
Qed.

Lemma removeIntercept_present i s :
  is_Some (intercepts s !! i) →
  removeIntercept i s = toggleInterception (set_intercepts (delete i) s).
Proof.
  intros Hsome. unfold removeIntercept, mbind, M_bind, gets. simpl.
  by rewrite bool_decide_eq_true_2.
Qed.

Lemma removeIntercept_gone i s : intercepts (removeIntercept i s).2 !! i = None.
Proof.
  destruct (intercepts s !! i) as [v|] eqn:Hi.
  - rewrite removeIntercept_present; [|by eexists].
    rewrite toggleInterception_intercepts. simpl. apply lookup_delete_eq.
  - by rewrite removeIntercept_absent.
Qed.

Lemma addIntercept_intercepts i value s :
  intercepts (addIntercept i value s).2 = <[i:=value]> (intercepts s).
Proof.
  unfold addIntercept.
  assert (Frame intercepts (toggleInterception ≫= λ _, mret i)) as Hf
    by frame_solve.
  unfold mbind at 1, M_bind at 1, modify. simpl. apply Hf.
Qed.

Lemma perform_intercepts_other i op s :
  ¬ generates i op → ¬ removes i op →
  intercepts (perform op s) !! i = intercepts s !! i.
Proof.
  intros Hgen Hrem.
  destruct op as [j v|j|t|t event|session|r|j]; simpl in Hgen, Hrem;
    unfold perform.
  - rewrite addIntercept_intercepts. by rewrite lookup_insert_ne.
  - destruct (intercepts s !! j) as [v|] eqn:Hj.
    + rewrite removeIntercept_present; [|by eexists].
      rewrite toggleInterception_intercepts. simpl.
      by rewrite lookup_delete_ne.
    + by rewrite removeIntercept_absent.
  - by rewrite onCdpTargetCreated_intercepts.
  - by rewrite listener_intercepts.
  - by rewrite disposeRequestMap_intercepts.
  - done.
  - by rewrite deleteRequest_intercepts.
Qed.

Lemma perform_intercepts_absent i op s :
  ¬ generates i op →
  intercepts s !! i = None → intercepts (perform op s) !! i = None.
Proof.
  intros Hgen Hnone.
  destruct op as [j v|j|t|t event|session|r|j];
    try (rewrite perform_intercepts_other; simpl; by auto).
  destruct (decide (j = i)) as [->|Hne].
  - apply removeIntercept_gone.
  - rewrite perform_intercepts_other; simpl; by auto.
Qed.

Lemma run_intercepts_other i ops s :
  Forall (λ op, ¬ generates i op ∧ ¬ removes i op) ops →
  intercepts (run ops s) !! i = intercepts s !! i.
Proof.
  intros Hops. revert s. induction Hops as [|op ops [Hg Hr] _ IH]; intros s.
  - done.
  - simpl. rewrite IH. by apply perform_intercepts_other.
Qed.

Lemma run_intercepts_absent i ops s :
  Forall (λ op, ¬ generates i op) ops →
  intercepts s !! i = None → intercepts (run ops s) !! i = None.
Proof.
  intros Hops. revert s. induction Hops as [|op ops Hg _ IH]; intros s Hnone.
  - done.
  - simpl. apply IH. by apply perform_intercepts_absent.
Qed.

(** *** Which intercepts block a request *)

Lemma blocks_spec intercept phase u :
  blocks intercept phase u = true ↔
    phase ∈ phases intercept
    ∧ (urlPatterns intercept = []
       ∨ ∃ pattern, pattern ∈ urlPatterns intercept
                    ∧ matchUrlPattern pattern u = true).
Proof.
  unfold blocks.
  destruct (decide (phase ∈ phases intercept)) as [Hin|Hin].
  - rewrite (bool_decide_eq_true_2 _ Hin). simpl.
    destruct (urlPatterns intercept) as [|p ps] eqn:Hps; simpl.
    + naive_solver.
    + rewrite orb_true_iff, existsb_exists. split.
      * intros [Hp|(x & Hx & Hm)]; (split; [done|right]).
        -- exists p. split; [apply list_elem_of_here|done].
        -- exists x. split; [|done].
           apply list_elem_of_further. by apply list_elem_of_In.
      * intros (_ & [?|(x & Hx & Hm)]); [done|].
        apply elem_of_cons in Hx as [->|Hx]; [by left|].
        right. exists x. split; [|done]. by apply list_elem_of_In.
  - rewrite (bool_decide_eq_false_2 _ Hin). simpl.
    split; [done|]. by intros [? _].
Qed.

Lemma blockedBy_fold (l : list (string * NetworkInterception)) phase u i :
  i ∈ foldr (λ '(interceptId, intercept) (result : gset string),
               if blocks intercept phase u
               then {[ interceptId ]} ∪ result else result) ∅ l
  ↔ ∃ intercept, (i, intercept) ∈ l ∧ blocks intercept phase u = true.
Proof.
  induction l as [|[k v] l IH]; simpl.
  - split; [set_solver|]. intros (? & Hin & _). by apply elem_of_nil in Hin.
  - destruct (blocks v phase u) eqn:Hb.
    + rewrite elem_of_union, elem_of_singleton, IH. split.
      * intros [->|(x & Hx & Hbx)].
        -- exists v. split; [apply list_elem_of_here|done].
        -- exists x. split; [by apply list_elem_of_further|done].
      * intros (x & Hx & Hbx).
        apply elem_of_cons in Hx as [[= -> ->]|Hx]; [by left|].
        right. eauto.
    + rewrite IH. split.
      * intros (x & Hx & Hbx). exists x.
        split; [by apply list_elem_of_further|done].
      * intros (x & Hx & Hbx).
        apply elem_of_cons in Hx as [[= -> ->]|Hx]; [congruence|eauto].
Qed.

(** C6.  [requestBlockedBy] changes nothing and returns, for a request with
a url and a defined phase, exactly the ids of the intercepts whose phases
contain the phase and whose url patterns are empty or contain a pattern
that matches the url; it returns the empty set when the url or the phase is
undefined. *)
Theorem requestBlockedBy_exact (s : Storage) (r : NetworkRequest)
    (phase : option InterceptPhase) :
  ∃ result : gset string,
    requestBlockedBy r phase s = (Returned result, s)
    ∧ match url (state r), phase with
      | Some u, Some ph =>
          ∀ i, i ∈ result ↔
            ∃ intercept,
              intercepts s !! i = Some intercept
              ∧ ph ∈ phases intercept
              ∧ (urlPatterns intercept = []
                 ∨ ∃ pattern, pattern ∈ urlPatterns intercept
                              ∧ matchUrlPattern pattern u = true)
      | _, _ => result = ∅
      end.
Proof.
  unfold requestBlockedBy.
  destruct (url (state r)) as [u|]; [destruct phase as [ph|]|];
    try (by exists ∅).
  eexists. split; [reflexivity|]. intros i.
  rewrite blockedBy_fold. split.
  - intros (x & Hx & Hb). exists x.
    apply elem_of_map_to_list in Hx. apply blocks_spec in Hb.
    destruct Hb as [? ?]. auto.
  - intros (x & Hx & Hph & Hpat). exists x. split.
    + by apply elem_of_map_to_list.
    + apply blocks_spec. naive_solver.
Qed.

(** *** The request table under the listeners *)

(** The object a method call leaves behind. *)
Definition after (c : RequestCall) (r : NetworkRequest) : NetworkRequest :=
  {| id := id r; redirectCount := redirectCount r; cdpTarget := cdpTarget r;
     state := invoke c (state r) |}.

Lemma call_present i c r s :
  JsMap.get i (requests s) = Some r →
  call i c s =
    (Returned tt,
     set_requests (JsMap.set i (after c r))
       (set_trace (λ t, t ++ [Call r c]) s)).
Proof.
  intros Hget. unfold call, getRequestById, mbind, M_bind, gets. simpl.
  by rewrite Hget.
Qed.

Lemma call_absent i c s :
  JsMap.get i (requests s) = None → call i c s = (Returned tt, s).
Proof.
  intros Hget. unfold call, getRequestById, mbind, M_bind, gets. simpl.
  by rewrite Hget.
Qed.

Lemma deleteRequest_present i r s :
  JsMap.get i (requests s) = Some r →
  deleteRequest i s =
    (Returned tt,
     set_requests (JsMap.delete i)
       (set_trace (λ t, t ++ [Call r dispose]) s)).
Proof.
  intros Hget. unfold deleteRequest, getRequestById. unfold mbind at 1, M_bind at 1.
  unfold gets. simpl. rewrite Hget.
  unfold mbind, M_bind. rewrite (call_present _ _ r) by done.
  unfold modify. simpl. f_equal.
  destruct s; unfold set_requests, set_trace; simpl. f_equal.
  apply JsMap.delete_set.
Qed.

Lemma getOrCreateNetworkRequest_absent i t count s :
  JsMap.get i (requests s) = None →
  getOrCreateNetworkRequest i t count s =
    (Returned (newNetworkRequest i t count),
     set_requests (λ m, m ++ [(i, newNetworkRequest i t count)])
       (set_trace (λ tr, tr ++ [New (newNetworkRequest i t count)]) s)).
Proof.
  intros Hget.
  unfold getOrCreateNetworkRequest, getRequestById, addRequest, emit,
    mbind, M_bind, gets, modify. simpl.
  rewrite Hget. simpl. f_equal.
  destruct s; unfold set_requests, set_trace; simpl in *. f_equal.
  by apply JsMap.set_absent.
Qed.

(** C5.  [Network.requestWillBeSent] for a request id whose request is
redirecting: [handleRedirect] is called on the old request, which is then
disposed and removed from the table; a new request is constructed under the
same id, its redirect count one more than the old one's, entered in the
table, and handed the event. *)
Theorem requestWillBeSent_redirect (s : Storage) (t : CdpTarget)
    (e : NetworkEvent) (old : NetworkRequest) :
  JsMap.get (requestId e) (requests s) = Some old →
  isRedirecting (state old) = true →
  let created :=
    {| id := requestId e; redirectCount := redirectCount old + 1;
       cdpTarget := t; state := initialState |} in
  ∃ s',
    listener t (Network_requestWillBeSent e) s = (Returned tt, s')
    ∧ trace s' =
        trace s ++ [ Call old (handleRedirect e);
                     Call (after (handleRedirect e) old) dispose;
                     New created;
                     Call created (onRequestWillBeSentEvent e) ]
    ∧ requests s' =
        JsMap.delete (requestId e) (requests s)
          ++ [(requestId e, after (onRequestWillBeSentEvent e) created)]
    ∧ JsMap.get (requestId e) (requests s') =
        Some (after (onRequestWillBeSentEvent e) created)
    ∧ (∀ k, k ≠ requestId e →
         JsMap.get k (requests s') = JsMap.get k (requests s))
    ∧ targets s' = targets s
    ∧ intercepts s' = intercepts s
    ∧ interceptionStages s' = interceptionStages s.
Proof.
  intros Hget Hredirect created. set (k := requestId e) in *.
  assert (JsMap.get k (JsMap.delete k (requests s)) = None) as Hgone
    by apply JsMap.get_delete_eq.
  eexists. split.
  { unfold listener, getRequestById. unfold mbind at 1, M_bind at 1.
    unfold gets. simpl. fold k. rewrite Hget, Hredirect.
    unfold mbind at 1, M_bind at 1. rewrite (call_present _ _ old) by done.
    unfold mbind at 1, M_bind at 1.
    rewrite (deleteRequest_present _ (after (handleRedirect e) old))
      by (simpl; apply JsMap.get_set_eq).
    unfold mbind at 1, M_bind at 1.
    rewrite getOrCreateNetworkRequest_absent
      by (simpl; rewrite JsMap.delete_set; apply Hgone).
    rewrite (call_present _ _ created); [reflexivity|].
    simpl. rewrite JsMap.delete_set, <- JsMap.set_absent by done.
    apply JsMap.get_set_eq. }
  simpl. rewrite JsMap.delete_set, JsMap.set_last by done.
  split_and!; try done.
  - by rewrite <- !app_assoc.
  - rewrite <- JsMap.set_absent by done. apply JsMap.get_set_eq.
  - intros k' Hne. rewrite <- JsMap.set_absent by done.
    rewrite JsMap.get_set_ne by done. by apply JsMap.get_delete_ne.
Qed.

(** C4.  [Fetch.authRequired] for a fetch id that no tracked request has:
the only thing the handler does is send [Fetch.continueWithAuth] for the
event's request id with response ["Default"] on the target's client; no
request is created, changed or called, so nothing is emitted to the BiDi
client. *)
Theorem authRequired_untracked (s : Storage) (t : CdpTarget)
    (event : AuthRequiredEvent) :
  (∀ k r, (k, r) ∈ requests s →
     fetchId (state r) ≠ Some (default "" (auth_requestId event))) →
  getRequestByFetchId (default "" (auth_requestId event)) s = (Returned None, s)
  ∧ handleAuthInterception event t s =
      (Returned tt,
       set_trace (λ tr, tr ++
         [SendCommand t
            (Cdp.Fetch_continueWithAuth (auth_requestId event) "Default")]) s)
  ∧ listener t (Fetch_authRequired event) s =
      handleAuthInterception event t s.
Proof.
  intros Huntracked.
  assert (list_find
            (λ kr : string * NetworkRequest,
               fetchId (state kr.2) = Some (default "" (auth_requestId event)))
            (requests s) = None) as Hfind.
  { apply list_find_None, Forall_forall. intros [k r] Hin. simpl.
    by apply (Huntracked k). }
  split_and!.
  - unfold getRequestByFetchId, entryByFetchId, mbind, M_bind, gets. simpl.
    by rewrite Hfind.
  - unfold handleAuthInterception, entryByFetchId, mbind, M_bind, gets. simpl.
    by rewrite Hfind.
  - done.
Qed.

(** *** Disposing the requests of a session *)

Definition ofSession (session : string) (kr : string * NetworkRequest) : Prop :=
  sessionId (cdpTarget kr.2) = Some session.

#[local] Instance ofSession_dec session kr : Decision (ofSession session kr).
Proof. unfold ofSession. apply _. Defined.

(** The loop of [disposeRequestMap], over entries that are in the table
under their own ids. *)
Lemma dispose_loop (l : list (string * NetworkRequest)) (s : Storage) :
  NoDup l.*1 →
  (∀ k r, (k, r) ∈ l → JsMap.get k (requests s) = Some r ∧ id r = k) →
  for_of l (λ '(k, r),
    call k dispose;; modify (set_requests (JsMap.delete (id r)))) s
  = (Returned tt,
     set_trace (λ t, t ++ ((λ kr, Call kr.2 dispose) <$> l))
       (set_requests (filter (λ kr, kr.1 ∉ l.*1)) s)).
Proof.
  revert s. induction l as [|[k r] l IH]; intros s Hnd Hin; simpl.
  - unfold mret, M_ret. f_equal.
    destruct s; unfold set_requests, set_trace; simpl. f_equal.
    + symmetry. apply filter_all. intros ? _ Hx. by apply elem_of_nil in Hx.
    + by rewrite app_nil_r.
  - apply NoDup_cons in Hnd as [Hk Hnd].
    destruct (Hin k r) as [Hget Hid]; [apply list_elem_of_here|].
    unfold mbind at 1, M_bind at 1. unfold mbind at 1, M_bind at 1.
    rewrite (call_present _ _ r) by done. unfold modify at 1. simpl.
    rewrite IH; [|done|].
    + f_equal. destruct s; unfold set_requests, set_trace; simpl in *.
      f_equal.
      * rewrite Hid, JsMap.delete_set. unfold JsMap.delete.
        rewrite list_filter_filter. apply list_filter_iff.
        intros [k' r']. simpl. rewrite not_elem_of_cons. tauto.
      * by rewrite <- app_assoc.
    + intros k' r' Hin'. destruct (Hin k' r') as [Hget' Hid'];
        [by apply list_elem_of_further|].
      split; [|done]. simpl. rewrite Hid, JsMap.delete_set.
      rewrite JsMap.get_delete_ne; [done|].
      intros ->. apply Hk. apply list_elem_of_fmap. by exists (k', r').
Qed.

(** *** The table stays keyed by the requests' ids *)

Definition Keyed (s : Storage) : Prop := keyed (requests s).

Lemma keyed_set k r m : keyed m → id r = k → keyed (JsMap.set k r m).
Proof.
  intros [Hnd Hid] Hr. split.
  - by apply JsMap.set_NoDup.
  - intros k' r' [[-> ->]|Hin]%JsMap.elem_of_set; [done|by apply Hid].
Qed.

Lemma keyed_delete k m : keyed m → keyed (JsMap.delete k m).
Proof.
  intros [Hnd Hid]. split.
  - by apply JsMap.delete_keys.
  - intros k' r' [_ Hin]%list_elem_of_filter. by apply Hid.
Qed.

Lemma emit_keyed e : Keeps Keyed (emit e).
Proof. unfold emit. by apply keeps_modify. Qed.
#[local] Hint Resolve emit_keyed : keeps.

Lemma setStages_keyed stages : Keeps Keyed (modify (set_interceptionStages stages)).
Proof. by apply keeps_modify. Qed.
#[local] Hint Resolve setStages_keyed : keeps.

Lemma setIntercepts_keyed f : Keeps Keyed (modify (set_intercepts f)).
Proof. by apply keeps_modify. Qed.
#[local] Hint Resolve setIntercepts_keyed : keeps.

Lemma delete_keyed k : Keeps Keyed (modify (set_requests (JsMap.delete k))).
Proof. apply keeps_modify. intros s. apply keyed_delete. Qed.
#[local] Hint Resolve delete_keyed : keeps.

Lemma call_keyed i c : Keeps Keyed (call i c).
Proof.
  intros s Hs. destruct (JsMap.get i (requests s)) as [r|] eqn:Hget.
  - rewrite (call_present _ _ r) by done. simpl.
    apply keyed_set; [done|]. simpl.
    apply Hs. by apply JsMap.get_Some_elem_of.
  - by rewrite call_absent.
Qed.
#[local] Hint Resolve call_keyed : keeps.

Lemma deleteRequest_keyed i : Keeps Keyed (deleteRequest i).
Proof. unfold deleteRequest, getRequestById. keeps_solve. Qed.
#[local] Hint Resolve deleteRequest_keyed : keeps.

Lemma getOrCreateNetworkRequest_keyed i t count :
  Keeps Keyed (getOrCreateNetworkRequest i t count).
Proof.
  unfold getOrCreateNetworkRequest, getRequestById, addRequest. keeps_solve.
  apply keeps_modify. intros s Hs. by apply keyed_set.
Qed.
#[local] Hint Resolve getOrCreateNetworkRequest_keyed : keeps.

Lemma disposeRequestMap_keyed session : Keeps Keyed (disposeRequestMap session).
Proof.
  unfold disposeRequestMap. apply keeps_bind; [keeps_solve|].
  intros rs. apply keeps_for_of. intros [k r]. keeps_solve.
Qed.
#[local] Hint Resolve disposeRequestMap_keyed : keeps.

Lemma callAll_keyed es : Keeps Keyed (callAll es).
Proof. induction es; simpl; keeps_solve. Qed.
#[local] Hint Resolve callAll_keyed : keeps.

Lemma awaitAll_keyed es : Keeps Keyed (awaitAll es).
Proof. unfold awaitAll. keeps_solve. Qed.
#[local] Hint Resolve awaitAll_keyed : keeps.

Lemma toggleInterception_keyed : Keeps Keyed toggleInterception.
Proof. unfold toggleInterception. keeps_solve. Qed.
#[local] Hint Resolve toggleInterception_keyed : keeps.

Lemma addRequest_keyed r : Keeps Keyed (addRequest r).
Proof. apply keeps_modify. intros s Hs. by apply keyed_set. Qed.

Lemma addIntercept_keyed i value : Keeps Keyed (addIntercept i value).
Proof. unfold addIntercept. keeps_solve. Qed.

Lemma removeIntercept_keyed i : Keeps Keyed (removeIntercept i).
Proof. unfold removeIntercept. keeps_solve. Qed.

Lemma onCdpTargetCreated_keyed t : Keeps Keyed (onCdpTargetCreated t).
Proof. by apply keeps_modify. Qed.

Lemma listener_keyed t event : Keeps Keyed (listener t event).
Proof.
  unfold listener, handleNetworkInterception, handleAuthInterception,
    getRequestById, entryByFetchId.
  keeps_solve.
Qed.

Lemma perform_keyed op s : Keyed s → Keyed (perform op s).
Proof.
  destruct op; unfold perform.
  - apply addIntercept_keyed.
  - apply removeIntercept_keyed.
  - apply onCdpTargetCreated_keyed.
  - apply listener_keyed.
  - apply disposeRequestMap_keyed.
  - apply addRequest_keyed.
  - apply deleteRequest_keyed.
Qed.

(** Every storage reached from a new one is keyed. *)
Lemma run_keyed ops : Keyed (run ops empty).
Proof.
  assert (∀ s, Keyed s → Keyed (run ops s)) as H.
  { induction ops as [|op ops IH]; intros s Hs; simpl; [done|].
    by apply IH, perform_keyed. }
  apply H. split; [constructor|]. intros k r Hin. by apply elem_of_nil in Hin.
Qed.

(** On a table keyed by the requests' ids, [disposeRequestMap] removes the
entries of the session and nothing else. *)
Lemma disposeRequestMap_keyed_exact (s : Storage) (session : string) :
  keyed (requests s) →
  ∃ s',
    disposeRequestMap session s = (Returned tt, s')
    ∧ requests s' = filter (λ kr, ¬ ofSession session kr) (requests s)
    ∧ (∀ k, JsMap.get k (requests s') =
         r ← JsMap.get k (requests s);
         if decide (sessionId (cdpTarget r) = Some session)
         then None else Some r)
    ∧ trace s' =
        trace s ++ ((λ kr, Call kr.2 dispose)
                      <$> filter (ofSession session) (requests s))
    ∧ targets s' = targets s
    ∧ intercepts s' = intercepts s
    ∧ interceptionStages s' = interceptionStages s
    ∧ keyed (requests s').
Proof.
  intros [Hnd Hid].
  set (l := filter (ofSession session) (requests s)).
  assert (∀ k r, (k, r) ∈ l ↔ (k, r) ∈ requests s ∧ ofSession session (k, r))
    as Hl.
  { intros k r. unfold l. rewrite list_elem_of_filter. tauto. }
  assert (NoDup l.*1) as Hndl.
  { apply (sublist_NoDup _ (requests s).*1); [done|].
    apply fmap_sublist. apply sublist_filter. }
  assert (filter (λ kr, kr.1 ∉ l.*1) (requests s)
          = filter (λ kr, ¬ ofSession session kr) (requests s)) as Hreq.
  { apply filter_iff_elem. intros [k r] Hin. simpl. split.
    - intros Hnot Hof. apply Hnot. apply list_elem_of_fmap.
      exists (k, r). split; [done|]. by apply Hl.
    - intros Hnot Hk. apply list_elem_of_fmap in Hk as ([k' r'] & Hkk & Hin').
      simpl in Hkk. subst k'. apply Hl in Hin' as [Hin' Hof].
      assert (r' = r) as ->; [|done].
      apply (JsMap.get_elem_of _ _ _ Hnd) in Hin, Hin'. congruence. }
  exists (set_trace (λ t, t ++ ((λ kr, Call kr.2 dispose) <$> l))
            (set_requests
               (λ m, filter (λ kr, ¬ ofSession session kr) m) s)).
  split.
  { unfold disposeRequestMap. unfold mbind at 1, M_bind at 1. unfold gets.
    simpl. fold (ofSession session). fold l. rewrite dispose_loop; [|done|].
    - f_equal. destruct s; unfold set_trace, set_requests; simpl in *.
      f_equal. apply Hreq.
    - intros k r Hin. apply Hl in Hin as [Hin _].
      split; [by apply JsMap.get_elem_of|by apply Hid]. }
  simpl. split_and!; try done.
  - intros k.
    destruct (JsMap.get k (requests s)) as [r|] eqn:Hget; simpl.
    + apply JsMap.get_Some_elem_of in Hget as Hin. case_decide as Hof.
      * destruct (JsMap.get k (filter _ _)) as [r'|] eqn:Hget'; [|done].
        apply JsMap.get_Some_elem_of, list_elem_of_filter in Hget'
          as [Hnot Hin'].
        assert (r' = r) as ->; [|done].
        apply (JsMap.get_elem_of _ _ _ Hnd) in Hin, Hin'. congruence.
      * apply JsMap.get_elem_of.
        -- apply (sublist_NoDup _ (requests s).*1); [done|].
           apply fmap_sublist. apply sublist_filter.
        -- by apply list_elem_of_filter.
    + destruct (JsMap.get k (filter _ _)) as [r'|] eqn:Hget'; [|done].
      apply JsMap.get_Some_elem_of, list_elem_of_filter in Hget' as [_ Hin'].
      by apply JsMap.get_None_not_elem_of with (v := r') in Hget.
  - split.
    + apply (sublist_NoDup _ (requests s).*1); [done|].
      apply fmap_sublist. apply sublist_filter.
    + intros k r Hin. apply list_elem_of_filter in Hin as [_ Hin]. by apply Hid.
Qed.

(** C10.  [disposeRequestMap session], in any storage reached from a new
one: [dispose] is called on the requests whose CDP client has session id
[session], once each, and exactly those leave the request table; every
request of another session (or of the browser client, which has none) stays
in the table under its key as it was, and the targets, the intercepts and
the interception stages are untouched. *)
Theorem disposeRequestMap_exact (ops : list Op) (session : string) :
  let s := run ops empty in
  ∃ s',
    disposeRequestMap session s = (Returned tt, s')
    ∧ requests s' = filter (λ kr, ¬ ofSession session kr) (requests s)
    ∧ (∀ k, JsMap.get k (requests s') =
         r ← JsMap.get k (requests s);
         if decide (sessionId (cdpTarget r) = Some session)
         then None else Some r)
    ∧ trace s' =
        trace s ++ ((λ kr, Call kr.2 dispose)
                      <$> filter (ofSession session) (requests s))
    ∧ targets s' = targets s
    ∧ intercepts s' = intercepts s
    ∧ interceptionStages s' = interceptionStages s.
Proof.
  intros s.
  destruct (disposeRequestMap_keyed_exact s session (run_keyed ops))
    as (s' & H1 & H2 & H3 & H4 & H5 & H6 & H7 & _).
  exists s'. by split_and!.
Qed.

(** *** The interception stages follow the registry *)

Definition phaseIn (phase : InterceptPhase) (values : list NetworkInterception)
    : bool :=
  existsb (λ intercept, bool_decide (phase ∈ phases intercept)) values.

Lemma stagesOf_from acc values :
  foldl (λ stages intercept,
    {| request := request stages
         || bool_decide (BeforeRequestSent ∈ phases intercept);
       response := response stages
         || bool_decide (ResponseStarted ∈ phases intercept);
       auth := auth stages
         || bool_decide (AuthRequired ∈ phases intercept) |}) acc values
  = {| request := request acc || phaseIn BeforeRequestSent values;
       response := response acc || phaseIn ResponseStarted values;
       auth := auth acc || phaseIn AuthRequired values |}.
Proof.
  revert acc. induction values as [|v values IH]; intros acc; simpl.
  - destruct acc. simpl. by rewrite !orb_false_r.
  - rewrite IH. simpl. by rewrite !orb_assoc.
Qed.

Lemma stagesOf_phaseIn values :
  stagesOf values
  = {| request := phaseIn BeforeRequestSent values;
       response := phaseIn ResponseStarted values;
       auth := phaseIn AuthRequired values |}.
Proof. unfold stagesOf. by rewrite stagesOf_from. Qed.

Lemma phaseIn_registry phase (m : gmap string NetworkInterception) :
  phaseIn phase (map_to_list m).*2 = true
  ↔ ∃ i intercept, m !! i = Some intercept ∧ phase ∈ phases intercept.
Proof.
  unfold phaseIn. rewrite existsb_exists. split.
  - intros (v & Hin & Hphase). apply list_elem_of_In in Hin.
    apply list_elem_of_fmap in Hin as ([i v'] & -> & Hin).
    apply elem_of_map_to_list in Hin. apply bool_decide_eq_true in Hphase.
    by exists i, v'.
  - intros (i & v & Hi & Hphase). exists v. split.
    + apply list_elem_of_In, list_elem_of_fmap. exists (i, v).
      split; [done|]. by apply elem_of_map_to_list.
    + by apply bool_decide_eq_true.
Qed.

(** The recorded stages are the ones of the registered intercepts. *)
Definition Synced (s : Storage) : Prop :=
  interceptionStages s = stagesOf (map_to_list (intercepts s)).*2.

Definition registry (s : Storage)
    : gmap string NetworkInterception * Stages :=
  (intercepts s, interceptionStages s).

Lemma Synced_registry s s' : registry s' = registry s → Synced s → Synced s'.
Proof. unfold registry, Synced. intros [= -> ->]. done. Qed.

Lemma emit_registry e : Frame registry (emit e).
Proof. unfold emit. frame_solve. Qed.
#[local] Hint Resolve emit_registry : frame.

Lemma call_registry i c : Frame registry (call i c).
Proof. unfold call, getRequestById. frame_solve. Qed.
#[local] Hint Resolve call_registry : frame.

Lemma deleteRequest_registry i : Frame registry (deleteRequest i).
Proof. unfold deleteRequest, getRequestById. frame_solve. Qed.
#[local] Hint Resolve deleteRequest_registry : frame.

Lemma getOrCreateNetworkRequest_registry i t count :
  Frame registry (getOrCreateNetworkRequest i t count).
Proof.
  unfold getOrCreateNetworkRequest, getRequestById, addRequest. frame_solve.
Qed.
#[local] Hint Resolve getOrCreateNetworkRequest_registry : frame.

Lemma disposeRequestMap_registry session :
  Frame registry (disposeRequestMap session).
Proof.
  unfold disposeRequestMap. apply frame_bind; [frame_solve|].
  intros rs. apply frame_for_of. intros [k r]. frame_solve.
Qed.

Lemma callAll_registry es : Frame registry (callAll es).
Proof. induction es; simpl; frame_solve. Qed.
#[local] Hint Resolve callAll_registry : frame.

Lemma awaitAll_registry es : Frame registry (awaitAll es).
Proof. unfold awaitAll. frame_solve. Qed.

Lemma listener_registry t event : Frame registry (listener t event).
Proof.
  unfold listener, handleNetworkInterception, handleAuthInterception,
    getRequestById, entryByFetchId.
  frame_solve.
Qed.

Lemma onCdpTargetCreated_registry t : Frame registry (onCdpTargetCreated t).
Proof. unfold onCdpTargetCreated. frame_solve. Qed.

Lemma Stages_eq (a b : Stages) :
  request a = request b → response a = response b → auth a = auth b → a = b.
Proof. destruct a, b. simpl. by intros -> -> ->. Qed.

(** Whatever the storage was, [toggleInterception] leaves the recorded
stages equal to the ones of the registry, also when a target rejects. *)
Lemma toggleInterception_synced s : Synced (toggleInterception s).2.
Proof.
  unfold toggleInterception. unfold mbind at 1, M_bind at 1, gets at 1.
  cbv beta iota zeta.
  destruct (bool_decide (size (intercepts s) ≠ 0)) eqn:Hsize.
  - destruct (bool_decide _ && bool_decide _ && bool_decide _) eqn:Hsame.
    + simpl. unfold Synced.
      apply andb_prop in Hsame as [[H1 H2]%andb_prop H3].
      apply bool_decide_eq_true in H1, H2, H3. by apply Stages_eq.
    + unfold mbind, M_bind, modify. cbv beta iota.
      eapply Synced_registry; [apply awaitAll_registry|]. done.
  - apply bool_decide_eq_false in Hsize. apply dec_stable in Hsize.
    apply map_size_empty_iff in Hsize.
    unfold mbind, M_bind, modify. cbv beta iota.
    eapply Synced_registry; [apply awaitAll_registry|].
    unfold Synced. simpl. rewrite Hsize, map_to_list_empty. done.
Qed.

Lemma perform_synced op s : Synced s → Synced (perform op s).
Proof.
  intros Hs. destruct op as [j v|j|t|t event|session|r|j]; unfold perform.
  - unfold addIntercept. unfold mbind at 1, M_bind at 1, modify at 1.
    cbv beta iota.
    pose proof (toggleInterception_synced
                  (set_intercepts (insert j v) s)) as H.
    unfold mbind, M_bind.
    by destruct (toggleInterception _) as [[[]|e] s'].
  - destruct (intercepts s !! j) as [v|] eqn:Hj.
    + rewrite removeIntercept_present; [|by eexists].
      apply toggleInterception_synced.
    + by rewrite removeIntercept_absent.
  - eapply Synced_registry; [apply onCdpTargetCreated_registry|done].
  - eapply Synced_registry; [apply listener_registry|done].
  - eapply Synced_registry; [apply disposeRequestMap_registry|done].
  - done.
  - eapply Synced_registry; [apply deleteRequest_registry|done].
Qed.

Lemma run_synced ops s : Synced s → Synced (run ops s).
Proof.
  revert s. induction ops as [|op ops IH]; intros s Hs; [done|].
  simpl. by apply IH, perform_synced.
Qed.

(** X1.  In every storage reached from a new one, whatever the targets
answered, each recorded interception stage is on exactly when some registered
intercept has the phase of that stage. *)
Theorem interceptionStages_follow_registry (ops : list Op) :
  let s := run ops empty in
  let registered phase :=
    ∃ i intercept,
      intercepts s !! i = Some intercept ∧ phase ∈ phases intercept in
  (request (interceptionStages s) = true ↔ registered BeforeRequestSent)
  ∧ (response (interceptionStages s) = true ↔ registered ResponseStarted)
  ∧ (auth (interceptionStages s) = true ↔ registered AuthRequired).
Proof.
  intros s registered.
  assert (Synced s) as Hs by (by apply run_synced).
  unfold Synced in Hs. rewrite Hs, stagesOf_phaseIn. simpl.
  unfold registered. by rewrite !phaseIn_registry.
Qed.

(** *** What [toggleInterception] asks of the targets *)

Lemma set_trace_app l1 l2 s :
  set_trace (λ t, t ++ l2) (set_trace (λ t, t ++ l1) s)
  = set_trace (λ t, t ++ l1 ++ l2) s.
Proof. destruct s. unfold set_trace. simpl. by rewrite app_assoc. Qed.

Lemma set_trace_nil s : set_trace (λ t, t ++ []) s = s.
Proof. destruct s. unfold set_trace. simpl. by rewrite app_nil_r. Qed.

(** Every call of the batch is made, whatever the earlier ones answered. *)
Lemma callAll_state es s : (callAll es s).2 = set_trace (λ t, t ++ es) s.
Proof.
  revert s. induction es as [|e es IH]; intros s; simpl.
  - by rewrite set_trace_nil.
  - unfold mbind, M_bind, emit, modify, gets. simpl.
    specialize (IH (set_trace (λ t, t ++ [e]) s)).
    destruct (callAll es _) as [[rs|?] s']; simpl in *;
      by rewrite IH, set_trace_app.
Qed.

Lemma awaitAll_state es s : (awaitAll es s).2 = set_trace (λ t, t ++ es) s.
Proof.
  unfold awaitAll, mbind, M_bind.
  pose proof (callAll_state es s) as H.
  destruct (callAll es s) as [[rs|?] s']; simpl in *; [|done].
  by destruct (firstRejection rs).
Qed.

(** *** Removing an intercept *)

(** What the targets answer to a batch of calls made from trace [tr], each
call being answered on the trace up to and including it. *)
Fixpoint answers (tr : list Effect) (es : list Effect) : list Cdp.Reply :=
  match es with
  | [] => []
  | e :: es' => cdpReply (tr ++ [e]) :: answers (tr ++ [e]) es'
  end.

Lemma callAll_answers es s :
  (callAll es s).1 = Returned (answers (trace s) es).
Proof.
  revert s. induction es as [|e es IH]; intros s; simpl; [done|].
  unfold mbind, M_bind, emit, modify, gets. simpl.
  specialize (IH (set_trace (λ t, t ++ [e]) s)).
  destruct (callAll es _) as [[rs|?] s']; simpl in *; [|done].
  by injection IH as ->.
Qed.

Lemma awaitAll_exact es s :
  awaitAll es s =
    (match firstRejection (answers (trace s) es) with
     | Some e => Thrown (CdpException e)
     | None => Returned tt
     end,
     set_trace (λ t, t ++ es) s).
Proof.
  pose proof (awaitAll_state es s) as Hstate.
  pose proof (callAll_answers es s) as Hanswers.
  unfold awaitAll, mbind, M_bind in *.
  destruct (callAll es s) as [[rs|?] s']; simpl in *; [|done].
  injection Hanswers as ->.
  destruct (firstRejection _); simpl in *; by subst.
Qed.

(** [toggleInterception] in full: the stages it records, the calls it
makes, and its outcome, which is the first rejection among the answers of
the targets if there is one. *)
Lemma toggleInterception_exact (s : Storage) :
  let stages := stagesOf (map_to_list (intercepts s)).*2 in
  let batch :=
    if decide (intercepts s = ∅) then DisableFetchIfNeeded <$> targets s
    else if decide (interceptionStages s = stages) then []
    else (λ t, EnableFetchIfNeeded t (patternsOf stages) (auth stages))
           <$> targets s in
  toggleInterception s =
    (match firstRejection (answers (trace s) batch) with
     | Some e => Thrown (CdpException e)
     | None => Returned tt
     end,
     {| targets := targets s; requests := requests s;
        intercepts := intercepts s; interceptionStages := stages;
        trace := trace s ++ batch |}).
Proof.
  intros stages batch.
  unfold toggleInterception. unfold mbind at 1, M_bind at 1, gets at 1.
  cbv beta iota zeta. fold stages. unfold batch.
  destruct (decide (intercepts s = ∅)) as [Hempty|Hne].
  - rewrite bool_decide_eq_false_2
      by (intros H; apply H; by apply map_size_empty_iff).
    unfold mbind, M_bind, modify. cbv beta iota.
    rewrite awaitAll_exact. simpl. f_equal.
    unfold set_trace, set_interceptionStages, stages. simpl.
    by rewrite Hempty, map_to_list_empty.
  - rewrite bool_decide_eq_true_2
      by (intros H; by apply map_size_empty_iff in H).
    destruct (decide (interceptionStages s = stages)) as [Heq|Hneq].
    + rewrite Heq, !bool_decide_eq_true_2 by done. simpl.
      rewrite app_nil_r. f_equal. destruct s. simpl in *. by subst.
    + destruct (_ && _ && _) eqn:Hsame.
      * apply andb_prop in Hsame as [[H1 H2]%andb_prop H3].
        apply bool_decide_eq_true in H1, H2, H3.
        destruct Hneq. by apply Stages_eq.
      * unfold mbind, M_bind, modify. cbv beta iota.
        by rewrite awaitAll_exact.
Qed.


Definition noStages : Stages :=
  {| request := false; response := false; auth := false |}.

(** X2.  [toggleInterception], whatever the targets answer: with an empty
registry it records that no stage is on and calls [disableFetchIfNeeded] on
every target, in the order of the set; with intercepts whose stages are the
recorded ones it does nothing; otherwise it records the new stages and calls
[enableFetchIfNeeded] on every target with the patterns of these stages.  A
target that rejects does not spare the later targets their call. *)
Theorem toggleInterception_calls_every_target (s : Storage) :
  let stages := stagesOf (map_to_list (intercepts s)).*2 in
  (toggleInterception s).2 =
    if decide (intercepts s = ∅) then
      set_trace (λ t, t ++ (DisableFetchIfNeeded <$> targets s))
        (set_interceptionStages noStages s)
    else if decide (interceptionStages s = stages) then s
    else
      set_trace
        (λ t, t ++ ((λ target,
                       EnableFetchIfNeeded target (patternsOf stages)
                         (auth stages)) <$> targets s))
        (set_interceptionStages stages s).
Proof.
  intros stages.
  unfold toggleInterception. unfold mbind at 1, M_bind at 1, gets at 1.
  cbv beta iota zeta. fold stages.
  destruct (decide (intercepts s = ∅)) as [Hempty|Hne].
  - rewrite bool_decide_eq_false_2
      by (intros H; apply H; by apply map_size_empty_iff).
    unfold mbind, M_bind, modify. cbv beta iota.
    by rewrite awaitAll_state.
  - rewrite bool_decide_eq_true_2
      by (intros H; by apply map_size_empty_iff in H).
    destruct (decide (interceptionStages s = stages)) as [Heq|Hneq].
    + rewrite Heq, !bool_decide_eq_true_2 by done. done.
    + destruct (_ && _ && _) eqn:Hsame.
      * apply andb_prop in Hsame as [[H1 H2]%andb_prop H3].
        apply bool_decide_eq_true in H1, H2, H3.
        destruct Hneq. by apply Stages_eq.
      * unfold mbind, M_bind, modify. cbv beta iota.
        by rewrite awaitAll_state.
Qed.

(** X3.  With intercepts registered, a second [toggleInterception] returns
at once and leaves the storage as the first left it: what a target rejected
in the first is not sent again. *)
Theorem toggleInterception_not_repeated (s : Storage) :
  intercepts s ≠ ∅ →
  toggleInterception (toggleInterception s).2
  = (Returned tt, (toggleInterception s).2).
Proof.
  intros Hne.
  pose proof (toggleInterception_synced s) as Hsynced.
  pose proof (toggleInterception_intercepts s) as Hsame.
  set (s1 := (toggleInterception s).2) in *. unfold Synced in Hsynced.
  unfold toggleInterception. unfold mbind at 1, M_bind at 1, gets at 1.
  cbv beta iota zeta.
  rewrite bool_decide_eq_true_2.
  - by rewrite <- Hsynced, !bool_decide_eq_true_2.
  - rewrite Hsame. intros H. by apply map_size_empty_iff in H.
Qed.

(** *** Registering an intercept and asking what blocks a request *)

Lemma requestBlockedBy_member (s : Storage) (r : NetworkRequest)
    (phase : option InterceptPhase) :
  ∃ result : gset string,
    requestBlockedBy r phase s = (Returned result, s)
    ∧ ∀ i, i ∈ result ↔
        ∃ u ph intercept,
          url (state r) = Some u ∧ phase = Some ph
          ∧ intercepts s !! i = Some intercept
          ∧ blocks intercept ph u = true.
Proof.
  unfold requestBlockedBy.
  destruct (url (state r)) as [u|]; [destruct phase as [ph|]|].
  - eexists. split; [reflexivity|]. intros i. rewrite blockedBy_fold. split.
    + intros (x & Hx%elem_of_map_to_list & Hb). by exists u, ph, x.
    + intros (u' & ph' & x & [= <-] & [= <-] & Hx & Hb). exists x.
      split; [by apply elem_of_map_to_list|done].
  - exists ∅. split; [done|]. intros i. split; [set_solver|].
    by intros (? & ? & ? & _ & ? & _).
  - exists ∅. split; [done|]. intros i. split; [set_solver|].
    by intros (? & ? & ? & ? & _).
Qed.

(** X4.  An intercept blocks from [addIntercept] to [removeIntercept]: once
added under [i], whether or not the targets accepted the synchronisation,
[requestBlockedBy] names [i] exactly for the requests with a url and the
phases that the intercept matches; once removed it names [i] for none, and
names every other intercept as before. *)
Theorem intercept_blocks_while_registered (s : Storage) (i : string)
    (value : NetworkInterception) (r : NetworkRequest)
    (phase : option InterceptPhase) :
  let s1 := (addIntercept i value s).2 in
  let s2 := (removeIntercept i s1).2 in
  ∃ blocked1 blocked2 : gset string,
    requestBlockedBy r phase s1 = (Returned blocked1, s1)
    ∧ requestBlockedBy r phase s2 = (Returned blocked2, s2)
    ∧ (i ∈ blocked1 ↔
         ∃ u ph, url (state r) = Some u ∧ phase = Some ph
                 ∧ ph ∈ phases value
                 ∧ (urlPatterns value = []
                    ∨ ∃ pattern, pattern ∈ urlPatterns value
                                 ∧ matchUrlPattern pattern u = true))
    ∧ (i ∉ blocked2)
    ∧ (∀ j, j ≠ i → (j ∈ blocked1 ↔ j ∈ blocked2)).
Proof.
  intros s1 s2.
  assert (intercepts s1 = <[i:=value]> (intercepts s)) as H1
    by apply addIntercept_intercepts.
  assert (intercepts s2 = delete i (intercepts s1)) as H2.
  { unfold s2. rewrite removeIntercept_present.
    - by rewrite toggleInterception_intercepts.
    - rewrite H1, lookup_insert_eq. by eexists. }
  destruct (requestBlockedBy_member s1 r phase) as (b1 & Hb1 & Hin1).
  destruct (requestBlockedBy_member s2 r phase) as (b2 & Hb2 & Hin2).
  exists b1, b2. split_and!; [done|done| | |].
  - rewrite Hin1, H1. split.
    + intros (u & ph & x & Hu & Hph & Hx & Hb).
      rewrite lookup_insert_eq in Hx. injection Hx as <-.
      apply blocks_spec in Hb as [? ?]. by exists u, ph.
    + intros (u & ph & Hu & Hph & Hphase & Hpat). exists u, ph, value.
      split_and!; [done|done|by rewrite lookup_insert_eq|].
      by apply blocks_spec.
  - rewrite Hin2, H2. intros (u & ph & x & _ & _ & Hx & _).
    by rewrite lookup_delete_eq in Hx.
  - intros j Hne. rewrite Hin1, Hin2, H2. by rewrite lookup_delete_ne.
Qed.

(** *** Entries of the request table *)

(** X5.  [#getOrCreateNetworkRequest] creates at most once: it returns the
request held under the id when there is one, and leaves the storage alone;
otherwise it returns a new request for the given target and redirect count
and enters it.  A second call for the id returns the request of the first,
whatever target and redirect count it is given, and changes nothing. *)
Theorem getOrCreateNetworkRequest_once (s : Storage) (i : string)
    (t t' : CdpTarget) (count count' : option nat) :
  let first := getOrCreateNetworkRequest i t count s in
  ∃ r,
    first.1 = Returned r
    ∧ match JsMap.get i (requests s) with
      | Some held => r = held ∧ first.2 = s
      | None =>
          r = newNetworkRequest i t count
          ∧ requests first.2 = requests s ++ [(i, r)]
          ∧ trace first.2 = trace s ++ [New r]
      end
    ∧ JsMap.get i (requests first.2) = Some r
    ∧ getOrCreateNetworkRequest i t' count' first.2 = (Returned r, first.2).
Proof.
  intros first.
  assert (∀ r s0, JsMap.get i (requests s0) = Some r →
            getOrCreateNetworkRequest i t' count' s0 = (Returned r, s0))
    as Hheld.
  { intros r s0 Hget.
    unfold getOrCreateNetworkRequest, getRequestById, mbind, M_bind, gets.
    simpl. by rewrite Hget. }
  destruct (JsMap.get i (requests s)) as [held|] eqn:Hget.
  - exists held.
    assert (first = (Returned held, s)) as ->.
    { unfold first, getOrCreateNetworkRequest, getRequestById, mbind, M_bind,
        gets. simpl. by rewrite Hget. }
    simpl. split; [done|]. split; [done|]. split; [done|by apply Hheld].
  - exists (newNetworkRequest i t count).
    unfold first. rewrite getOrCreateNetworkRequest_absent by done. simpl.
    assert (JsMap.get i (requests s ++ [(i, newNetworkRequest i t count)])
            = Some (newNetworkRequest i t count)) as Hnew.
    { rewrite <- JsMap.set_absent by done. apply JsMap.get_set_eq. }
    split; [done|]. split; [done|]. split; [done|by apply Hheld].
Qed.

Lemma deleteRequest_absent i s :
  JsMap.get i (requests s) = None → deleteRequest i s = (Returned tt, s).
Proof.
  intros Hget. unfold deleteRequest, getRequestById, mbind, M_bind, gets.
  simpl. by rewrite Hget.
Qed.

(** X6.  [addRequest] then [deleteRequest]: the request is held under its
id, in the place of any request that was held under it, which is dropped
without [dispose]; deleting the id disposes of the request added, once, and
leaves no request under the id; every other entry of the table is as it
was.  [deleteRequest] of an id that holds nothing does nothing. *)
Theorem addRequest_deleteRequest (s : Storage) (r : NetworkRequest) :
  let s1 := (addRequest r s).2 in
  let s2 := (deleteRequest (id r) s1).2 in
  getRequestById (id r) s1 = (Returned (Some r), s1)
  ∧ trace s1 = trace s
  ∧ deleteRequest (id r) s1 = (Returned tt, s2)
  ∧ getRequestById (id r) s2 = (Returned None, s2)
  ∧ trace s2 = trace s ++ [Call r dispose]
  ∧ (∀ k, k ≠ id r →
       JsMap.get k (requests s1) = JsMap.get k (requests s)
       ∧ JsMap.get k (requests s2) = JsMap.get k (requests s))
  ∧ deleteRequest (id r) s2 = (Returned tt, s2).
Proof.
  intros s1 s2.
  assert (JsMap.get (id r) (requests s1) = Some r) as Hget
    by apply JsMap.get_set_eq.
  assert (deleteRequest (id r) s1
          = (Returned tt,
             set_requests (JsMap.delete (id r))
               (set_trace (λ t, t ++ [Call r dispose]) s1))) as Hdel
    by (by apply deleteRequest_present).
  assert (JsMap.get (id r) (requests s2) = None) as Hgone.
  { unfold s2. rewrite Hdel. simpl. apply JsMap.get_delete_eq. }
  split_and!.
  - unfold getRequestById, gets. by rewrite Hget.
  - done.
  - unfold s2. by rewrite Hdel.
  - unfold getRequestById, gets. by rewrite Hgone.
  - unfold s2. by rewrite Hdel.
  - intros k Hne. split.
    + simpl. by apply JsMap.get_set_ne.
    + unfold s2. rewrite Hdel. simpl.
      rewrite JsMap.get_delete_ne by done. by apply JsMap.get_set_ne.
  - by apply deleteRequest_absent.
Qed.

(** *** Disposing a session twice *)

Lemma filter_none {A} (P : A → Prop) `{!∀ x, Decision (P x)} (l : list A) :
  (∀ x, x ∈ l → ¬ P x) → filter P l = [].
Proof.
  induction l as [|a l IH]; intros Hnone; [done|].
  rewrite filter_cons, decide_False by apply Hnone, list_elem_of_here.
  apply IH. intros x Hx. by apply Hnone, list_elem_of_further.
Qed.

Lemma Storage_eq (a b : Storage) :
  targets a = targets b → requests a = requests b →
  intercepts a = intercepts b →
  interceptionStages a = interceptionStages b → trace a = trace b → a = b.
Proof. destruct a, b. simpl. by intros -> -> -> -> ->. Qed.

(** X7.  In any storage reached from a new one, a second
[disposeRequestMap] for the session finds nothing to do: no request is
disposed of again and the storage stays as the first call left it.  So does
the first call when the session has no request. *)
Theorem disposeRequestMap_twice (ops : list Op) (session : string) :
  let s := run ops empty in
  let s1 := (disposeRequestMap session s).2 in
  disposeRequestMap session s1 = (Returned tt, s1)
  ∧ ((∀ k r, (k, r) ∈ requests s →
        sessionId (cdpTarget r) ≠ Some session) →
     disposeRequestMap session s = (Returned tt, s)).
Proof.
  intros s s1.
  assert (∀ s0, keyed (requests s0) →
            filter (ofSession session) (requests s0) = [] →
            disposeRequestMap session s0 = (Returned tt, s0)) as Hnone.
  { intros s0 Hkeyed Hnil.
    destruct (disposeRequestMap_keyed_exact s0 session Hkeyed)
      as (s' & -> & Hreq & _ & Htrace & Ht & Hi & Hst & _).
    f_equal. apply Storage_eq; try done.
    - rewrite Hreq. apply filter_all. intros kr Hin Hof.
      assert (kr ∈ filter (ofSession session) (requests s0)) as Hkr
        by (by apply list_elem_of_filter).
      rewrite Hnil in Hkr. by apply elem_of_nil in Hkr.
    - by rewrite Htrace, Hnil, app_nil_r. }
  destruct (disposeRequestMap_keyed_exact s session (run_keyed ops))
    as (s' & Hrun & Hreq & _ & _ & _ & _ & _ & Hkeyed').
  split.
  - unfold s1. rewrite Hrun. simpl. apply Hnone; [done|].
    rewrite Hreq, list_filter_filter.
    apply filter_none. intros kr _ [? ?]. done.
  - intros Hother. apply Hnone; [apply run_keyed|].
    apply filter_none. intros [k r] Hin Hof. by apply (Hother k r).
Qed.

(** *** The targets of the storage *)

Lemma emit_targets e : Frame targets (emit e).
Proof. unfold emit. frame_solve. Qed.
#[local] Hint Resolve emit_targets : frame.

Lemma call_targets i c : Frame targets (call i c).
Proof. unfold call, getRequestById. frame_solve. Qed.
#[local] Hint Resolve call_targets : frame.

Lemma deleteRequest_targets i : Frame targets (deleteRequest i).
Proof. unfold deleteRequest, getRequestById. frame_solve. Qed.
#[local] Hint Resolve deleteRequest_targets : frame.

Lemma getOrCreateNetworkRequest_targets i t count :
  Frame targets (getOrCreateNetworkRequest i t count).
Proof.
  unfold getOrCreateNetworkRequest, getRequestById, addRequest. frame_solve.
Qed.
#[local] Hint Resolve getOrCreateNetworkRequest_targets : frame.

Lemma disposeRequestMap_targets session :
  Frame targets (disposeRequestMap session).
Proof.
  unfold disposeRequestMap. apply frame_bind; [frame_solve|].
  intros rs. apply frame_for_of. intros [k r]. frame_solve.
Qed.

Lemma callAll_targets es : Frame targets (callAll es).
Proof. induction es; simpl; frame_solve. Qed.
#[local] Hint Resolve callAll_targets : frame.

Lemma awaitAll_targets es : Frame targets (awaitAll es).
Proof. unfold awaitAll. frame_solve. Qed.
#[local] Hint Resolve awaitAll_targets : frame.

Lemma toggleInterception_targets : Frame targets toggleInterception.
Proof. unfold toggleInterception. frame_solve. Qed.
#[local] Hint Resolve toggleInterception_targets : frame.

Lemma addIntercept_targets i value : Frame targets (addIntercept i value).
Proof. unfold addIntercept. frame_solve. Qed.

Lemma removeIntercept_targets i : Frame targets (removeIntercept i).
Proof. unfold removeIntercept. frame_solve. Qed.

Lemma listener_targets t event : Frame targets (listener t event).
Proof.
  unfold listener, handleNetworkInterception, handleAuthInterception,
    getRequestById, entryByFetchId.
  frame_solve.
Qed.

Definition creates (t : CdpTarget) (op : Op) : Prop :=
  match op with
  | OpCdpTargetCreated t' => t' = t
  | _ => False
  end.

Lemma perform_targets op s t :
  NoDup (targets s) →
  NoDup (targets (perform op s))
  ∧ (t ∈ targets (perform op s) ↔ t ∈ targets s ∨ creates t op).
Proof.
  intros Hnd.
  assert (∀ s', targets s' = targets s → ¬ creates t op →
            NoDup (targets s') ∧ (t ∈ targets s' ↔ t ∈ targets s ∨ creates t op))
    as Hsame.
  { intros s' -> Hno. split; [done|]. tauto. }
  destruct op as [j v|j|t0|t0 event|session|r|j]; unfold perform.
  - apply Hsame; [apply addIntercept_targets|by intros []].
  - apply Hsame; [apply removeIntercept_targets|by intros []].
  - simpl. case_bool_decide as Hin.
    + split; [done|]. split; [auto|]. intros [?|<-]; done.
    + split.
      * apply NoDup_app. split_and!; [done| |apply NoDup_singleton].
        intros x Hx ->%list_elem_of_singleton. done.
      * rewrite elem_of_app, list_elem_of_singleton.
        split; intros [?|?]; auto.
  - apply Hsame; [apply listener_targets|by intros []].
  - apply Hsame; [apply disposeRequestMap_targets|by intros []].
  - apply Hsame; [done|by intros []].
  - apply Hsame; [apply deleteRequest_targets|by intros []].
Qed.

(** X8.  The targets of a storage, over any history from a new one, are
the targets [onCdpTargetCreated] was called with, each once: a target
handed over again is not entered again, and nothing takes a target out, not
[Target.detachedFromTarget] either. *)
Theorem targets_are_the_created (ops : list Op) (t : CdpTarget) :
  let s := run ops empty in
  NoDup (targets s) ∧ (t ∈ targets s ↔ OpCdpTargetCreated t ∈ ops).
Proof.
  intros s.
  assert (∀ s0, NoDup (targets s0) →
            NoDup (targets (run ops s0))
            ∧ (t ∈ targets (run ops s0)
               ↔ t ∈ targets s0 ∨ OpCdpTargetCreated t ∈ ops)) as H.
  { induction ops as [|op ops IH]; intros s0 Hnd; simpl.
    - split; [done|]. split; [auto|]. intros [?|Hin]; [done|].
      by apply elem_of_nil in Hin.
    - destruct (perform_targets op s0 t Hnd) as [Hnd' Hin'].
      destruct (IH (perform op s0) Hnd') as [Hnd'' Hin''].
      split; [done|]. rewrite Hin'', Hin', elem_of_cons.
      assert (creates t op ↔ OpCdpTargetCreated t = op) as ->.
      { destruct op; simpl; (split; [|intros [= ->]; done]);
          try done. by intros ->. }
      tauto. }
  destruct (H empty) as [Hnd Hin]; [constructor|].
  split; [done|]. unfold s. rewrite Hin. split; [|auto].
  intros [Hempty|?]; [|done]. by apply elem_of_nil in Hempty.
Qed.

(** *** A CDP event reaches the request of its id *)

(** The request id and the method of the listeners that hand the event to
the request of its id; [Fetch.requestPaused] goes by the [networkId], which
is taken to be empty when CDP leaves it out. *)
Definition handOver (event : CdpEvent) : option (string * RequestCall) :=
  match event with
  | Network_requestWillBeSent e =>
      Some (requestId e, onRequestWillBeSentEvent e)
  | Network_requestWillBeSentExtraInfo e =>
      Some (requestId e, onRequestWillBeSentExtraInfoEvent e)
  | Network_responseReceived e =>
      Some (requestId e, onResponseReceivedEvent e)
  | Network_responseReceivedExtraInfo e =>
      Some (requestId e, onResponseReceivedExtraInfoEvent e)
  | Network_requestServedFromCache e => Some (requestId e, onServedFromCache)
  | Network_loadingFailed e => Some (requestId e, onLoadingFailedEvent e)
  | Fetch_requestPaused e =>
      Some (default "" (networkId e), onRequestPaused e)
  | Fetch_authRequired _ => None
  end.

(** [Network.requestWillBeSent] for a request that is redirecting. *)
Definition redirects (event : CdpEvent) (s : Storage) : Prop :=
  match event with
  | Network_requestWillBeSent e =>
      ∃ r, JsMap.get (requestId e) (requests s) = Some r
           ∧ isRedirecting (state r) = true
  | _ => False
  end.

Lemma getOrCreate_then_call k t c s :
  (getOrCreateNetworkRequest k t None ≫= λ _, call k c) s =
    let held := JsMap.get k (requests s) in
    let r := default (newNetworkRequest k t None) held in
    (Returned tt,
     set_requests (JsMap.set k (after c r))
       (set_trace
          (λ tr, tr ++ match held with Some _ => [] | None => [New r] end ++ [Call r c]) s)).
Proof.
  cbv zeta. unfold mbind, M_bind.
  destruct (JsMap.get k (requests s)) as [held|] eqn:Hget.
  - assert (getOrCreateNetworkRequest k t None s = (Returned held, s)) as ->.
    { unfold getOrCreateNetworkRequest, getRequestById, mbind, M_bind, gets.
      simpl. by rewrite Hget. }
    by rewrite (call_present _ _ held).
  - rewrite getOrCreateNetworkRequest_absent by done.
    assert (JsMap.get k (requests s ++ [(k, newNetworkRequest k t None)])
            = Some (newNetworkRequest k t None)) as Hnew.
    { rewrite <- JsMap.set_absent by done. apply JsMap.get_set_eq. }
    rewrite (call_present _ _ (newNetworkRequest k t None)) by done.
    f_equal. apply Storage_eq; try done; simpl.
    + rewrite JsMap.set_last by done. by rewrite JsMap.set_absent.
    + by rewrite <- app_assoc.
Qed.

(** X9.  Every CDP network event but [Fetch.authRequired] and the
[Network.requestWillBeSent] of a redirecting request is handed to the
request held under its id, which is first created for the listener's target
with redirect count 0 when there is none.  The method is called once, on
that request alone; the listener returns, and the only entry of the table
that changes is the one of the id. *)
Theorem event_reaches_the_request_of_its_id (s : Storage) (t : CdpTarget)
    (event : CdpEvent) (k : string) (c : RequestCall) :
  handOver event = Some (k, c) →
  ¬ redirects event s →
  let held := JsMap.get k (requests s) in
  let r := default (newNetworkRequest k t None) held in
  ∃ s',
    listener t event s = (Returned tt, s')
    ∧ trace s' = trace s ++ match held with Some _ => [] | None => [New r] end ++ [Call r c]
    ∧ JsMap.get k (requests s') = Some (after c r)
    ∧ (∀ k', k' ≠ k → JsMap.get k' (requests s') = JsMap.get k' (requests s))
    ∧ targets s' = targets s
    ∧ intercepts s' = intercepts s
    ∧ interceptionStages s' = interceptionStages s.
Proof.
  intros Hhand Hnot held r.
  exists (set_requests (JsMap.set k (after c r))
            (set_trace
               (λ tr, tr ++ match held with Some _ => [] | None => [New r] end ++ [Call r c]) s)).
  split.
  - destruct event as [e|e|e|e|e|e|e|e]; simpl in Hhand;
      try discriminate Hhand; injection Hhand as <- <-;
      try (unfold listener, handleNetworkInterception;
           by rewrite getOrCreate_then_call).
    unfold listener, getRequestById. unfold mbind at 1, M_bind at 1, gets at 1.
    cbv beta iota. fold held.
    destruct held as [old|] eqn:Hheld.
    + destruct (isRedirecting (state old)) eqn:Hred.
      * destruct Hnot. simpl. by exists old.
      * rewrite (call_present _ _ old) by done. done.
    + fold (getOrCreateNetworkRequest (requestId e) t None
              ≫= λ _, call (requestId e) (onRequestWillBeSentEvent e)).
      rewrite getOrCreate_then_call. cbv zeta. fold held. by rewrite Hheld.
  - simpl. split_and!; try done.
    + apply JsMap.get_set_eq.
    + intros k' Hne. by apply JsMap.get_set_ne.
Qed.

(** *** An authentication challenge for a tracked request *)

(** X10.  [Fetch.authRequired] whose request id is the fetch id of a
tracked request, in any storage reached from a new one: the first such
request in the order of the table gets [onAuthRequired], once; no
[Fetch.continueWithAuth] is sent and no other request is touched. *)
Theorem authRequired_tracked (ops : list Op) (t : CdpTarget)
    (event : AuthRequiredEvent) (earlier later : list (string * NetworkRequest))
    (k : string) (r : NetworkRequest) :
  let s := run ops empty in
  let f := default "" (auth_requestId event) in
  requests s = earlier ++ (k, r) :: later →
  fetchId (state r) = Some f →
  (∀ k' r', (k', r') ∈ earlier → fetchId (state r') ≠ Some f) →
  getRequestByFetchId f s = (Returned (Some r), s)
  ∧ listener t (Fetch_authRequired event) s =
      (Returned tt,
       set_requests (JsMap.set k (after (onAuthRequired event) r))
         (set_trace (λ tr, tr ++ [Call r (onAuthRequired event)]) s))
  ∧ (∀ k', k' ≠ k →
       JsMap.get k'
         (requests (listener t (Fetch_authRequired event) s).2)
       = JsMap.get k' (requests s)).
Proof.
  intros s f Hsplit Hfetch Hearlier.
  assert (list_find (λ kr : string * NetworkRequest,
                       fetchId (state kr.2) = Some f) (requests s)
          = Some (length earlier, (k, r))) as Hfind.
  { apply list_find_Some. split_and!.
    - rewrite Hsplit. by rewrite list_lookup_middle.
    - done.
    - intros j [k' r'] Hj Hlt. rewrite Hsplit in Hj.
      rewrite lookup_app_l in Hj by done.
      apply list_elem_of_lookup_2 in Hj. by apply (Hearlier k' r'). }
  assert (JsMap.get k (requests s) = Some r) as Hget.
  { destruct (run_keyed ops) as [Hnd _]. apply JsMap.get_elem_of; [done|].
    fold s. rewrite Hsplit. apply elem_of_app. right. apply list_elem_of_here. }
  assert (listener t (Fetch_authRequired event) s =
            (Returned tt,
             set_requests (JsMap.set k (after (onAuthRequired event) r))
               (set_trace (λ tr, tr ++ [Call r (onAuthRequired event)]) s)))
    as Hrun.
  { unfold listener, handleAuthInterception, entryByFetchId.
    unfold mbind at 1, M_bind at 1, gets at 1. cbv beta iota. fold f.
    rewrite Hfind. simpl. by rewrite (call_present _ _ r). }
  split_and!.
  - unfold getRequestByFetchId, entryByFetchId, mbind, M_bind, gets.
    cbv beta iota. by rewrite Hfind.
  - done.
  - intros k' Hne. rewrite Hrun. simpl. by apply JsMap.get_set_ne.
Qed.

End NetworkStorage.

(** *** A concrete storage

A request state that records what the storage reads, a matcher that
compares a pattern with the url, and targets that accept every
synchronisation. *)

Record SampleState := {
  sample_redirecting : bool;
  sample_fetchId : option string;
  sample_url : option string
}.

Definition sampleInvoke (c : RequestCall (Payload:=unit)) (st : SampleState)
    : SampleState :=
  match c with
  | onRequestPaused e =>
      {| sample_redirecting := sample_redirecting st;
         sample_fetchId := Some (paused_requestId e);
         sample_url := sample_url st |}
  | onResponseReceivedEvent e =>
      {| sample_redirecting := true;
         sample_fetchId := sample_fetchId st;
         sample_url := sample_url st |}
  | _ => st
  end.

Definition sampleInitial : SampleState :=
  {| sample_redirecting := false; sample_fetchId := None;
     sample_url := Some "http://example/" |}.

Definition sampleTarget : CdpTarget :=
  {| targetId := "T1"; sessionId := Some "S1" |}.

Definition sampleIntercept : NetworkInterception (UrlPattern:=string) :=
  {| urlPatterns := []; phases := [BeforeRequestSent] |}.

Definition sampleEvent : NetworkEvent (Payload:=unit) :=
  {| requestId := "R1"; params := tt |}.

Definition sampleReply
    : list (Effect (Payload:=unit) (ReqState:=SampleState))
      → Cdp.Reply :=
  λ _, Cdp.Fulfilled.

Definition sampleRun
    : list Op → Storage (UrlPattern:=string) → Storage (UrlPattern:=string) :=
  run sampleInitial sample_redirecting sample_fetchId sampleInvoke sampleReply.

Definition sampleRedirecting : NetworkRequest (ReqState:=SampleState) :=
  {| id := "R1"; redirectCount := 0; cdpTarget := sampleTarget;
     state := {| sample_redirecting := true; sample_fetchId := None;
                 sample_url := Some "http://example/" |} |}.

Definition sampleStorage
    : Storage (UrlPattern:=string) (Payload:=unit) (ReqState:=SampleState) :=
  {| targets := [sampleTarget]; requests := [("R1", sampleRedirecting)];
     intercepts := ∅;
     interceptionStages :=
       {| request := false; response := false; auth := false |};
     trace := [] |}.

Lemma requestWillBeSent_redirect_witness :
  ∃ s',
    listener sampleInitial sample_redirecting sample_fetchId sampleInvoke
      sampleTarget (Network_requestWillBeSent sampleEvent) sampleStorage
      = (Returned tt, s')
    ∧ (redirectCount <$> JsMap.get "R1" (requests s')) = Some 1.
Proof.
  destruct (requestWillBeSent_redirect sampleInitial sample_redirecting
              sample_fetchId sampleInvoke sampleStorage sampleTarget
              sampleEvent sampleRedirecting)
    as (s' & Hrun & _ & _ & Hget & _).
  - reflexivity.
  - reflexivity.
  - exists s'. split; [exact Hrun|]. simpl in Hget. by rewrite Hget.
Defined.

Lemma authRequired_untracked_witness :
  handleAuthInterception sample_fetchId sampleInvoke
    {| auth_requestId := Some "F9"; auth_params := tt |} sampleTarget
    sampleStorage
  = (Returned tt,
     set_trace (λ tr, tr ++
       [SendCommand sampleTarget
          (Cdp.Fetch_continueWithAuth (Some "F9") "Default")]) sampleStorage).
Proof.
  apply (authRequired_untracked sampleInitial sample_redirecting
           sample_fetchId sampleInvoke sampleStorage sampleTarget
           {| auth_requestId := Some "F9"; auth_params := tt |}).
  intros k r Hin. apply list_elem_of_singleton in Hin. by injection Hin as -> ->.
Defined.

(** *** Further runs of the concrete storage *)

Definition refused : Cdp.CdpError :=
  {| Cdp.code := (-32000)%Z; Cdp.message := "Fetch is not available" |}.

Definition rejectingReply
    : list (Effect (Payload:=unit) (ReqState:=SampleState)) → Cdp.Reply :=
  λ _, Cdp.Rejected refused.

Definition sampleRegistered
    : Storage (UrlPattern:=string) (Payload:=unit) (ReqState:=SampleState) :=
  {| targets := [sampleTarget]; requests := [];
     intercepts := {[ "u1" := sampleIntercept ]};
     interceptionStages :=
       {| request := false; response := false; auth := false |};
     trace := [] |}.

Example toggleInterception_rejected :
  toggleInterception rejectingReply sampleRegistered
  = (Thrown (CdpException refused),
     {| targets := [sampleTarget]; requests := [];
        intercepts := {[ "u1" := sampleIntercept ]};
        interceptionStages :=
          {| request := true; response := false; auth := false |};
        trace :=
          [ EnableFetchIfNeeded sampleTarget
              [ {| Cdp.urlPattern := "*"; Cdp.requestStage := Cdp.Request |} ]
              false ] |}).
Proof. by vm_compute. Qed.

Lemma toggleInterception_not_repeated_witness :
  toggleInterception rejectingReply
    (toggleInterception rejectingReply sampleRegistered).2
  = (Returned tt, (toggleInterception rejectingReply sampleRegistered).2).
Proof.
  apply (toggleInterception_not_repeated (UrlPattern:=string) rejectingReply
           sampleRegistered).
  apply insert_non_empty.
Defined.

Lemma event_reaches_the_request_of_its_id_witness :
  ∃ s',
    listener sampleInitial sample_redirecting sample_fetchId sampleInvoke
      sampleTarget (Network_responseReceived sampleEvent) sampleStorage
      = (Returned tt, s')
    ∧ trace s' = [Call sampleRedirecting (onResponseReceivedEvent sampleEvent)].
Proof.
  destruct (event_reaches_the_request_of_its_id (UrlPattern:=string)
              sampleInitial sample_redirecting sample_fetchId sampleInvoke
              sampleStorage sampleTarget (Network_responseReceived sampleEvent)
              "R1" (onResponseReceivedEvent sampleEvent))
    as (s' & Hrun & Htrace & _).
  - reflexivity.
  - intros [].
  - exists s'. split; [exact Hrun|exact Htrace].
Defined.

Definition samplePaused : RequestPausedEvent (Payload:=unit) :=
  {| paused_requestId := "F1"; networkId := Some "R1"; paused_params := tt |}.

Definition samplePausedRequest : NetworkRequest (ReqState:=SampleState) :=
  {| id := "R1"; redirectCount := 0; cdpTarget := sampleTarget;
     state := {| sample_redirecting := false; sample_fetchId := Some "F1";
                 sample_url := Some "http://example/" |} |}.

Lemma authRequired_tracked_witness :
  let s := sampleRun [OpCdpEvent sampleTarget (Fetch_requestPaused samplePaused)]
             empty in
  let event := {| auth_requestId := Some "F1"; auth_params := tt |} in
  listener sampleInitial sample_redirecting sample_fetchId sampleInvoke
    sampleTarget (Fetch_authRequired event) s
  = (Returned tt,
     set_requests
       (JsMap.set "R1"
          (after sampleInvoke (onAuthRequired event) samplePausedRequest))
       (set_trace
          (λ tr, tr ++ [Call samplePausedRequest (onAuthRequired event)]) s)).
Proof.
  apply (authRequired_tracked (UrlPattern:=string) sampleInitial
           sample_redirecting sample_fetchId sampleInvoke sampleReply
           [OpCdpEvent sampleTarget (Fetch_requestPaused samplePaused)]
           sampleTarget {| auth_requestId := Some "F1"; auth_params := tt |}
           [] [] "R1" samplePausedRequest).
  - reflexivity.
  - reflexivity.
  - intros k' r' Hin. by apply elem_of_nil in Hin.
Defined.

(** *** Removing an intercept from the concrete storage *)


(** The sentence of the specification: the first [removeIntercept] with an
id that [addIntercept] returned succeeds. *)
Definition removeIntercept_as_stated : Prop :=
  ∀ (cdpReply : list (Effect (Payload:=unit) (ReqState:=SampleState))
                → Cdp.Reply)
    (before between : list Op) (i : string)
    (value : NetworkInterception (UrlPattern:=string)) (s1 : Storage),
    addIntercept cdpReply i value
      (run sampleInitial sample_redirecting sample_fetchId sampleInvoke
         cdpReply before empty)
    = (Returned i, s1) →
    Forall (λ op, ¬ generates i op ∧ ¬ removes i op) between →
    (removeIntercept cdpReply i
       (run sampleInitial sample_redirecting sample_fetchId sampleInvoke
          cdpReply between s1)).1
    = Returned tt.


(** With targets that accept every call, the first [removeIntercept]
returns, having called [disableFetchIfNeeded] on the target. *)
Example removeIntercept_accepted :
  let added := addIntercept sampleReply "u1" sampleIntercept sampleStorage in
  let removed := removeIntercept sampleReply "u1" added.2 in
  added.1 = Returned "u1"
  ∧ removed.1 = Returned tt
  ∧ intercepts removed.2 = ∅
  ∧ trace removed.2 =
      [ EnableFetchIfNeeded sampleTarget
          [ {| Cdp.urlPattern := "*"; Cdp.requestStage := Cdp.Request |} ]
          false;
        DisableFetchIfNeeded sampleTarget ].
Proof. by vm_compute. Qed.

(** An id whose [addIntercept] threw was never returned, yet it is
registered: [removeIntercept] with it does not throw
[NoSuchInterceptException], and deletes the entry. *)
Example removeIntercept_after_rejected_addIntercept :
  let added := addIntercept rejectingReply "u2" sampleIntercept sampleStorage in
  let removed := removeIntercept rejectingReply "u2" added.2 in
  added.1 = Thrown (CdpException refused)
  ∧ removed.1 = Thrown (CdpException refused)
  ∧ intercepts removed.2 = ∅
  ∧ trace removed.2 =
      [ EnableFetchIfNeeded sampleTarget
          [ {| Cdp.urlPattern := "*"; Cdp.requestStage := Cdp.Request |} ]
          false;
        DisableFetchIfNeeded sampleTarget ].
Proof. by vm_compute. Qed.

End NetworkStorage.

(** ** BrowsingContextProcessor: target attach and [setViewport] *)

Module BrowsingContextProcessor.

(** [Protocol.Target.TargetInfo], as far as the processor reads it. *)
Record TargetInfo := {
  targetId : string;
  type : string;
  browserContextId : option string
}.

(** [Protocol.Target.AttachedToTargetEvent] *)
Record AttachedToTargetEvent := {
  sessionId : string;
  targetInfo : TargetInfo
}.

(** The [CdpTarget] made by [CdpTarget.create(targetInfo.targetId,
targetCdpClient, ...)]: its id and the session of its client. *)
Record CdpTarget := {
  cdpTarget_id : string;
  cdpSessionId : string
}.

(** Modelled from the spec: the [BrowsingContextImpl] object, with the
attributes of the data model that the processor sets or reads: id, parent
id (none for a top-level context), user context and owning [CdpTarget]. *)
Record BrowsingContextImpl := {
  id : string;
  parentId : option string;
  userContext : string;
  cdpTarget : CdpTarget
}.

(** Modelled from the spec: [isTopLevelContext], a context without
parent. *)
Definition isTopLevelContext (c : BrowsingContextImpl) : bool :=
  bool_decide (parentId c = None).

Inductive WorkerRealmType := ServiceWorker | SharedWorker | DedicatedWorker.

Section BrowsingContextProcessor.

(** [params.viewport] and [params.devicePixelRatio]. *)
Context {ViewportSettings : Type}.

Record SetViewportParameters := {
  context : string;
  viewport : ViewportSettings
}.

(** What leaves the class. *)
Inductive Effect :=
| SetEventListeners (session : string)
| CdpTargetCreate (t : CdpTarget)
| NetworkStorageOnCdpTargetCreated (t : CdpTarget)
| BluetoothProcessorOnCdpTargetCreated (t : CdpTarget)
| HandleWorkerTarget (realmType : WorkerRealmType) (t : CdpTarget)
    (ownerSession : option (option string))
| ReleaseAndDetach (session : string) (parentSession : option string)
| ContextSetViewport (c : string) (v : ViewportSettings).

(** The processor's fixed fields. *)
Variable selfTargetId : string.
Variable defaultUserContextId : string.

(** [realmStorage.findRealm({cdpSessionId})] finds a realm. *)
Variable hasRealm : option string → bool.

(** How [context.setViewport] settles. *)
Variable cdpReply : list Effect → Cdp.Reply.

(** Modelled from the spec: the [BrowsingContextStorage] as an index of the
contexts by id, beside the trace of effects. *)
Record Processor := {
  contexts : gmap string BrowsingContextImpl;
  trace : list Effect
}.

Definition emit (e : Effect) : M Processor unit :=
  modify (λ s, {| contexts := contexts s; trace := trace s ++ [e] |}).

(** Modelled from the spec: [findContext], the nullable lookup by id. *)
Definition findContext (i : string) : M Processor (option BrowsingContextImpl) :=
  gets (λ s, contexts s !! i).

(** Modelled from the spec: [getContext], the lookup by id that fails with
[no such frame] for an unknown id (the id stands for the message). *)
Definition getContext (i : string) : M Processor BrowsingContextImpl :=
  c ← findContext i;
  match c with
  | Some c => mret c
  | None => throw (NoSuchFrameException i)
  end.

(** Modelled from the spec: [BrowsingContextImpl.create], which makes the
context and inserts it in the storage. *)
Definition BrowsingContextImpl_create (t : CdpTarget) (i : string)
    (parent : option string) (user : string) : M Processor unit :=
  modify (λ s,
    {| contexts :=
         <[i := {| id := i; parentId := parent; userContext := user;
                   cdpTarget := t |}]> (contexts s);
       trace := trace s |}).

Definition rebind (t : CdpTarget) (c : BrowsingContextImpl)
    : BrowsingContextImpl :=
  {| id := id c; parentId := parentId c; userContext := userContext c;
     cdpTarget := t |}.

(** Modelled from the spec: [updateCdpTarget] on the context found under
[key], which replaces that context's [CdpTarget] and nothing else. *)
Definition updateCdpTarget (key : string) (t : CdpTarget) : M Processor unit :=
  modify (λ s,
    {| contexts := alter (rebind t) key (contexts s); trace := trace s |}).

Definition createCdpTarget (session : string) (info : TargetInfo)
    : M Processor CdpTarget :=
  emit (SetEventListeners session);;
  let target := {| cdpTarget_id := targetId info; cdpSessionId := session |} in
  emit (CdpTargetCreate target);;
  emit (NetworkStorageOnCdpTargetCreated target);;
  emit (BluetoothProcessorOnCdpTargetCreated target);;
  mret target.

(** [x && x !== d ? x : 'default'], the empty string being falsy. *)
Definition userContextOf (browserContext : option string) : string :=
  match browserContext with
  | Some b =>
      if negb (bool_decide (b = "")) && negb (bool_decide (b = defaultUserContextId))
      then b else "default"
  | None => "default"
  end.

(** After the [switch]: release the debugger, then detach. *)
Definition release (params : AttachedToTargetEvent)
    (parentSession : option string) : M Processor unit :=
  emit (ReleaseAndDetach (sessionId params) parentSession).

Definition handleAttachedToTargetEvent (params : AttachedToTargetEvent)
    (parentSession : option string) : M Processor unit :=
  let info := targetInfo params in
  if bool_decide (type info = "page") || bool_decide (type info = "iframe") then
    if bool_decide (targetId info = selfTargetId) then
      release params parentSession
    else
      target ← createCdpTarget (sessionId params) info;
      maybeContext ← findContext (targetId info);
      match maybeContext with
      | Some _ => updateCdpTarget (targetId info) target
      | None =>
          BrowsingContextImpl_create target (targetId info) None
            (userContextOf (browserContextId info))
      end
  else if bool_decide (type info = "service_worker")
          || bool_decide (type info = "worker") then
    if negb (hasRealm parentSession) then
      release params parentSession
    else
      target ← createCdpTarget (sessionId params) info;
      emit (HandleWorkerTarget
              (if bool_decide (type info = "service_worker")
               then ServiceWorker else DedicatedWorker)
              target (Some parentSession))
  else if bool_decide (type info = "shared_worker") then
    target ← createCdpTarget (sessionId params) info;
    emit (HandleWorkerTarget SharedWorker target None)
  else
    release params parentSession.

Definition setViewport (params : SetViewportParameters) : M Processor unit :=
  c ← getContext (context params);
  (if negb (isTopLevelContext c)
   then throw (InvalidArgumentException
                 "Emulating viewport is only supported on the top-level context")
   else mret tt);;
  emit (ContextSetViewport (id c) (viewport params));;
  r ← gets (λ s, cdpReply (trace s));
  match r with
  | Cdp.Fulfilled => mret tt
  | Cdp.Rejected e => throw (CdpException e)
  end.

(** *** Attaching a page or an iframe *)

Definition pageOrIframe (info : TargetInfo) : Prop :=
  type info = "page" ∨ type info = "iframe".

Definition targetOf (params : AttachedToTargetEvent) : CdpTarget :=
  {| cdpTarget_id := targetId (targetInfo params);
     cdpSessionId := sessionId params |}.

Lemma createCdpTarget_run session info s :
  createCdpTarget session info s =
    (Returned {| cdpTarget_id := targetId info; cdpSessionId := session |},
     {| contexts := contexts s;
        trace := trace s ++
          [ SetEventListeners session;
            CdpTargetCreate
              {| cdpTarget_id := targetId info; cdpSessionId := session |};
            NetworkStorageOnCdpTargetCreated
              {| cdpTarget_id := targetId info; cdpSessionId := session |};
            BluetoothProcessorOnCdpTargetCreated
              {| cdpTarget_id := targetId info; cdpSessionId := session |} ] |}).
Proof.
  unfold createCdpTarget, emit, mbind, M_bind, modify, mret, M_ret. simpl.
  by rewrite <- !app_assoc.
Qed.

(** C7, as amended.  [Target.attachedToTarget] for a page or an iframe that
is not the mapper's own target creates one [CdpTarget] and then: if a context
with the target id exists, that context gets the new [CdpTarget] and keeps
its id, parent and user context, and no context is added or removed;
otherwise one context is added under the target id, without parent, whose
user context is [targetInfo.browserContextId] when that is present, not
empty and not the default user context id, and ["default"] otherwise. *)
Theorem attachedToTarget_page_or_iframe (s : Processor)
    (params : AttachedToTargetEvent) (parentSession : option string) :
  let info := targetInfo params in
  pageOrIframe info →
  targetId info ≠ selfTargetId →
  ∃ s',
    handleAttachedToTargetEvent params parentSession s = (Returned tt, s')
    ∧ trace s' = trace s ++
        [ SetEventListeners (sessionId params);
          CdpTargetCreate (targetOf params);
          NetworkStorageOnCdpTargetCreated (targetOf params);
          BluetoothProcessorOnCdpTargetCreated (targetOf params) ]
    ∧ match contexts s !! targetId info with
      | Some c =>
          contexts s' =
            <[targetId info :=
                {| id := id c; parentId := parentId c;
                   userContext := userContext c;
                   cdpTarget := targetOf params |}]> (contexts s)
          ∧ dom (contexts s') = dom (contexts s)
      | None =>
          ∃ user,
            contexts s' =
              <[targetId info :=
                  {| id := targetId info; parentId := None;
                     userContext := user;
                     cdpTarget := targetOf params |}]> (contexts s)
            ∧ dom (contexts s') = {[ targetId info ]} ∪ dom (contexts s)
            ∧ size (contexts s') = S (size (contexts s))
            ∧ (∀ b, browserContextId info = Some b →
                 b ≠ "" → b ≠ defaultUserContextId → user = b)
            ∧ (browserContextId info = None
               ∨ browserContextId info = Some ""
               ∨ browserContextId info = Some defaultUserContextId →
               user = "default")
      end.
Proof.
  intros info Hkind Hself.
  unfold handleAttachedToTargetEvent. fold info.
  assert (bool_decide (type info = "page")
          || bool_decide (type info = "iframe") = true) as ->.
  { destruct Hkind as [-> | ->]; by vm_compute. }
  rewrite (bool_decide_eq_false_2 _ Hself).
  unfold mbind at 1, M_bind at 1. rewrite createCdpTarget_run.
  unfold findContext, mbind, M_bind, gets. simpl.
  destruct (contexts s !! targetId info) as [c|] eqn:Hc; simpl.
  - eexists. split; [reflexivity|]. simpl. split; [done|].
    assert (alter (rebind (targetOf params)) (targetId info) (contexts s)
            = <[targetId info := rebind (targetOf params) c]> (contexts s))
      as Halter.
    { apply map_eq. intros k. rewrite lookup_alter, lookup_insert.
      destruct (decide (targetId info = k)) as [<-|]; [|done].
      by rewrite Hc. }
    split; [exact Halter|].
    change (dom (alter (rebind (targetOf params)) (targetId info) (contexts s))
            = dom (contexts s)).
    rewrite Halter, dom_insert_L.
    apply elem_of_dom_2 in Hc. apply set_eq. intros k.
    rewrite elem_of_union, elem_of_singleton. split; [|auto].
    by intros [->|?].
  - eexists. split; [reflexivity|]. simpl. split; [done|].
    exists (userContextOf (browserContextId info)).
    split_and!.
    + done.
    + by rewrite dom_insert_L.
    + by apply map_size_insert_None.
    + intros b Hb Hne Hnd. rewrite Hb. simpl.
      by rewrite !bool_decide_eq_false_2.
    + intros [-> | [-> | ->]]; simpl; [done|done|].
      rewrite (bool_decide_eq_true_2
                 (defaultUserContextId = defaultUserContextId)); [|done].
      by rewrite andb_false_r.
Qed.

(** *** [browsingContext.setViewport] *)

(** C9.  [setViewport] for a context that is not a top-level context throws
[InvalidArgumentException] and leaves the processor as it is: nothing is
called on the context, so no CDP command is issued for it. *)
Theorem setViewport_not_top_level (s : Processor)
    (params : SetViewportParameters) (c : BrowsingContextImpl) :
  contexts s !! context params = Some c →
  isTopLevelContext c = false →
  setViewport params s =
    (Thrown (InvalidArgumentException
               "Emulating viewport is only supported on the top-level context"),
     s).
Proof.
  intros Hc Htop.
  unfold setViewport, getContext, findContext.
  unfold mbind, M_bind, gets. simpl. rewrite Hc.
  unfold mret, M_ret. by rewrite Htop.
Qed.

(** *** Targets that get no browsing context *)

Definition workerTarget (info : TargetInfo) : Prop :=
  type info = "service_worker" ∨ type info = "worker".

Definition supported (info : TargetInfo) : Prop :=
  pageOrIframe info ∨ workerTarget info ∨ type info = "shared_worker".

(** X11.  [Target.attachedToTarget] for the mapper's own page or iframe
target, for a service worker or worker whose parent session has no realm,
and for any target type other than page, iframe, service worker, worker and
shared worker: the debugger is released and the target detached, and that
is all.  No [CdpTarget] is made, no listener is installed and the contexts
stay as they are. *)
Theorem attachedToTarget_released (s : Processor)
    (params : AttachedToTargetEvent) (parentSession : option string) :
  let info := targetInfo params in
  (pageOrIframe info ∧ targetId info = selfTargetId)
  ∨ (workerTarget info ∧ hasRealm parentSession = false)
  ∨ ¬ supported info →
  handleAttachedToTargetEvent params parentSession s
  = (Returned tt,
     {| contexts := contexts s;
        trace := trace s ++ [ReleaseAndDetach (sessionId params) parentSession] |}).
Proof.
  intros info Hcase. unfold handleAttachedToTargetEvent. fold info.
  destruct Hcase as [[Hkind Hself]|[[Hkind Hrealm]|Hnot]].
  - assert (bool_decide (type info = "page")
            || bool_decide (type info = "iframe") = true) as ->.
    { destruct Hkind as [-> | ->]; by vm_compute. }
    by rewrite (bool_decide_eq_true_2 _ Hself).
  - assert (bool_decide (type info = "page")
            || bool_decide (type info = "iframe") = false) as ->.
    { destruct Hkind as [-> | ->]; by vm_compute. }
    assert (bool_decide (type info = "service_worker")
            || bool_decide (type info = "worker") = true) as ->.
    { destruct Hkind as [-> | ->]; by vm_compute. }
    by rewrite Hrealm.
  - unfold supported, pageOrIframe, workerTarget in Hnot.
    rewrite (bool_decide_eq_false_2 (type info = "page")) by tauto.
    rewrite (bool_decide_eq_false_2 (type info = "iframe")) by tauto.
    rewrite (bool_decide_eq_false_2 (type info = "service_worker")) by tauto.
    rewrite (bool_decide_eq_false_2 (type info = "worker")) by tauto.
    rewrite (bool_decide_eq_false_2 (type info = "shared_worker")) by tauto.
    done.
Qed.

(** X12.  [Target.attachedToTarget] for a worker: for a service worker or a
worker whose parent session has a realm, and for every shared worker, a
[CdpTarget] is made for the session and handed to the worker handling, as
[service-worker] for [service_worker], [dedicated-worker] for [worker] and
[shared-worker] for [shared_worker], with the realm of the parent session
as owner except for a shared worker, which has none.  No browsing context
is made or changed, and the debugger is not released here. *)
Theorem attachedToTarget_worker (s : Processor)
    (params : AttachedToTargetEvent) (parentSession : option string) :
  let info := targetInfo params in
  (workerTarget info ∧ hasRealm parentSession = true)
  ∨ type info = "shared_worker" →
  handleAttachedToTargetEvent params parentSession s
  = (Returned tt,
     {| contexts := contexts s;
        trace := trace s ++
          [ SetEventListeners (sessionId params);
            CdpTargetCreate (targetOf params);
            NetworkStorageOnCdpTargetCreated (targetOf params);
            BluetoothProcessorOnCdpTargetCreated (targetOf params);
            HandleWorkerTarget
              (if bool_decide (type info = "service_worker") then ServiceWorker
               else if bool_decide (type info = "worker") then DedicatedWorker
               else SharedWorker)
              (targetOf params)
              (if bool_decide (type info = "shared_worker") then None
               else Some parentSession) ] |}).
Proof.
  intros info Hcase. unfold handleAttachedToTargetEvent. fold info.
  destruct Hcase as [[Hkind Hrealm]|Hshared].
  - assert (bool_decide (type info = "page")
            || bool_decide (type info = "iframe") = false) as ->.
    { destruct Hkind as [-> | ->]; by vm_compute. }
    assert (bool_decide (type info = "service_worker")
            || bool_decide (type info = "worker") = true) as ->.
    { destruct Hkind as [-> | ->]; by vm_compute. }
    rewrite Hrealm. change (negb true) with false. cbv iota.
    unfold mbind at 1, M_bind at 1. rewrite createCdpTarget_run.
    unfold emit, modify. simpl. rewrite <- app_assoc. simpl.
    destruct Hkind as [-> | ->]; reflexivity.
  - rewrite Hshared.
    change (bool_decide ("shared_worker" = "page")) with false.
    change (bool_decide ("shared_worker" = "iframe")) with false.
    change (bool_decide ("shared_worker" = "service_worker")) with false.
    change (bool_decide ("shared_worker" = "worker")) with false.
    change (bool_decide ("shared_worker" = "shared_worker")) with true.
    change (false || false) with false. cbv iota.
    unfold mbind at 1, M_bind at 1. rewrite createCdpTarget_run.
    unfold emit, modify. simpl. by rewrite <- app_assoc.
Qed.

End BrowsingContextProcessor.

(** *** A concrete processor *)

Definition sampleProcessor : Processor (ViewportSettings:=unit) :=
  {| contexts :=
       {[ "T1" := {| id := "T1"; parentId := None; userContext := "default";
                     cdpTarget := {| cdpTarget_id := "T1";
                                     cdpSessionId := "S1" |} |} ;
          "F1" := {| id := "F1"; parentId := Some "T1";
                     userContext := "default";
                     cdpTarget := {| cdpTarget_id := "T1";
                                     cdpSessionId := "S1" |} |} ]};
     trace := [] |}.

Definition emptyProcessor : Processor (ViewportSettings:=unit) :=
  {| contexts := ∅; trace := [] |}.

Definition sampleAttach (b : option string) : AttachedToTargetEvent :=
  {| sessionId := "S2";
     targetInfo := {| targetId := "T2"; type := "page";
                      browserContextId := b |} |}.

(** The sentence of the specification, with the user context as it states
it: [browserContextId], and ["default"] when that is absent or the default
user context id. *)
Definition userContextAsStated (defaultUserContextId : string)
    (b : option string) : string :=
  match b with
  | Some b => if bool_decide (b = defaultUserContextId) then "default" else b
  | None => "default"
  end.

Definition attachedToTarget_as_stated : Prop :=
  ∀ (selfTargetId defaultUserContextId : string) (hasRealm : option string → bool)
    (s : Processor (ViewportSettings:=unit)) (params : AttachedToTargetEvent)
    (parentSession : option string),
    pageOrIframe (targetInfo params) →
    targetId (targetInfo params) ≠ selfTargetId →
    contexts s !! targetId (targetInfo params) = None →
    contexts
      (handleAttachedToTargetEvent selfTargetId defaultUserContextId hasRealm
         params parentSession s).2
    = <[targetId (targetInfo params) :=
          {| id := targetId (targetInfo params); parentId := None;
             userContext :=
               userContextAsStated defaultUserContextId
                 (browserContextId (targetInfo params));
             cdpTarget := targetOf params |}]> (contexts s).

(** An empty [browserContextId] is neither absent nor the default user
context id ["D"], yet the context made for it is in ["default"]. *)
Lemma attachedToTarget_as_stated_counterexample : ¬ attachedToTarget_as_stated.
Proof.
  intros H.
  specialize (H "self" "D" (λ _, false) emptyProcessor (sampleAttach (Some ""))
                None).
  assert (userContext <$>
            (contexts
               (handleAttachedToTargetEvent "self" "D" (λ _, false)
                  (sampleAttach (Some "")) None emptyProcessor).2 !! "T2")
          = Some "default") as Hcode by (by vm_compute).
  rewrite H in Hcode.
  - rewrite lookup_insert_eq in Hcode. by vm_compute in Hcode.
  - by left.
  - by vm_compute.
  - done.
Qed.

Lemma attachedToTarget_page_or_iframe_witness :
  ∃ s',
    handleAttachedToTargetEvent "self" "D" (λ _, false)
      (sampleAttach (Some "B1")) None emptyProcessor = (Returned tt, s')
    ∧ (userContext <$> contexts s' !! "T2") = Some "B1".
Proof.
  destruct (attachedToTarget_page_or_iframe "self" "D" (λ _, false)
              emptyProcessor (sampleAttach (Some "B1")) None)
    as (s' & Hrun & _ & Hctx).
  - by left.
  - by vm_compute.
  - exists s'. split; [exact Hrun|].
    simpl in Hctx. rewrite lookup_empty in Hctx.
    destruct Hctx as (user & -> & _ & _ & Huser & _).
    rewrite lookup_insert_eq. simpl. f_equal. by apply Huser.
Defined.

Lemma setViewport_not_top_level_witness :
  setViewport (λ _, Cdp.Fulfilled) {| context := "F1"; viewport := tt |}
    sampleProcessor
  = (Thrown (InvalidArgumentException
               "Emulating viewport is only supported on the top-level context"),
     sampleProcessor).
Proof.
  apply (setViewport_not_top_level (λ _, Cdp.Fulfilled) sampleProcessor
           {| context := "F1"; viewport := tt |}
           {| id := "F1"; parentId := Some "T1"; userContext := "default";
              cdpTarget := {| cdpTarget_id := "T1"; cdpSessionId := "S1" |} |}).
  - by vm_compute.
  - done.
Defined.

Definition sampleOther (kind : string) : AttachedToTargetEvent :=
  {| sessionId := "S9";
     targetInfo := {| targetId := "T9"; type := kind;
                      browserContextId := None |} |}.

Lemma attachedToTarget_released_witness :
  handleAttachedToTargetEvent "self" "D" (λ _, false) (sampleOther "browser")
    None emptyProcessor
  = (Returned tt,
     {| contexts := ∅; trace := [ReleaseAndDetach "S9" None] |}).
Proof.
  apply (attachedToTarget_released "self" "D" (λ _, false) emptyProcessor
           (sampleOther "browser") None).
  right. right. intros [[H|H]|[[H|H]|H]]; discriminate H.
Defined.

Lemma attachedToTarget_worker_witness :
  handleAttachedToTargetEvent "self" "D" (λ _, true) (sampleOther "worker")
    (Some "S1") emptyProcessor
  = (Returned tt,
     {| contexts := ∅;
        trace :=
          [ SetEventListeners "S9";
            CdpTargetCreate {| cdpTarget_id := "T9"; cdpSessionId := "S9" |};
            NetworkStorageOnCdpTargetCreated
              {| cdpTarget_id := "T9"; cdpSessionId := "S9" |};
            BluetoothProcessorOnCdpTargetCreated
              {| cdpTarget_id := "T9"; cdpSessionId := "S9" |};
            HandleWorkerTarget DedicatedWorker
              {| cdpTarget_id := "T9"; cdpSessionId := "S9" |}
              (Some (Some "S1")) ] |}).
Proof.
  apply (attachedToTarget_worker "self" "D" (λ _, true) emptyProcessor
           (sampleOther "worker") (Some "S1")).
  left. split; [by right|done].
Defined.

End BrowsingContextProcessor.

(** ** BrowsingContextProcessor: commands and frame events

The commands of the processor await calls: CDP commands on the browser
client and methods of a context.  A call is recorded when it is made; while
the command waits for it the handlers of the events that arrive run, and
[meanwhile] is what they have done to the storage by the time the call
settles.  A rejected call throws its CDP error, [{code, message}]. *)

Module BrowsingContextCommands.
Import BrowsingContextProcessor.

(** [BrowsingContext.CreateType] *)
Inductive CreateType := Tab | Window.

(** [BrowsingContext.CreateParameters] *)
Record CreateParameters := {
  create_type : CreateType;
  referenceContext : option string;
  create_userContext : option string
}.

(** [BrowsingContext.CloseParameters] *)
Record CloseParameters := {
  close_context : string;
  promptUnload : option bool
}.

(** What a command can throw: the exceptions above and two more. *)
Inductive Failure :=
| Bidi (e : Exception)
| NoSuchUserContextException (message : string)
| NoSuchAlertException (message : string).

(** A command body: the state it leaves and what it returned or threw. *)
Definition Cmd (S A : Type) : Type := S → (Failure + A) * S.

#[export] Instance Cmd_ret {S} : MRet (Cmd S) := λ A a s, (inr a, s).
#[export] Instance Cmd_bind {S} : MBind (Cmd S) := λ A B f m s,
  match m s with
  | (inr a, s') => f a s'
  | (inl e, s') => (inl e, s')
  end.

Definition fail {S A} (e : Failure) : Cmd S A := λ s, (inl e, s).
Definition read {S A} (f : S → A) : Cmd S A := λ s, (inr (f s), s).

(** [try { m } catch (error) { h(error) }] *)
Definition try_catch {S A} (m : Cmd S A) (h : Failure → Cmd S A) : Cmd S A :=
  λ s,
    match m s with
    | (inl e, s') => h e s'
    | (inr a, s') => (inr a, s')
    end.

(** [hay.includes(needle)] *)
Definition includes (needle hay : string) : bool :=
  bool_decide (is_Some (String.index 0 needle hay)).

Section Commands.

(** [BrowsingContext.HandleUserPromptParameters] beyond the context id. *)
Context {PromptParameters : Type}.

(** The calls that leave the class. *)
Inductive Call :=
| Target_createTarget (url : string) (newWindow : bool)
    (browserContextId : option string)
| Target_closeTarget (target : string)
| Context_lifecycleLoaded (c : string)
| Context_activate (c : string)
| Context_close (c : string)
| Context_handleUserPrompt (c : string) (params : PromptParameters)
| Context_dispose (c : string)
| DetachedFromTarget_listen (target : string)
| DetachedFromTarget_wait (target : string).

(** How the call just made settles, and the [targetId] of the response to
[Target.createTarget]. *)
Variable reply : list Call → Cdp.Reply.
Variable createdTargetId : list Call → string.

(** What the event handlers did to the storage while the last call was
awaited. *)
Variable meanwhile :
  list Call → gmap string BrowsingContextImpl → gmap string BrowsingContextImpl.

(** [CdpErrorConstants.GENERIC_ERROR] *)
Variable GENERIC_ERROR : Z.

(** Modelled from the spec: the [BrowsingContextStorage] as an index of the
contexts by id, beside the calls made. *)
Record Mapper := {
  storage : gmap string BrowsingContextImpl;
  calls : list Call
}.

(** A call that is not awaited. *)
Definition emit (c : Call) : Cmd Mapper unit :=
  λ s, (inr tt, {| storage := storage s; calls := calls s ++ [c] |}).

(** [await] of a call that can be rejected. *)
Definition await (c : Call) : Cmd Mapper unit :=
  λ s,
    let made := calls s ++ [c] in
    let s' := {| storage := meanwhile made (storage s); calls := made |} in
    match reply made with
    | Cdp.Fulfilled => (inr tt, s')
    | Cdp.Rejected e => (inl (Bidi (CdpException e)), s')
    end.

(** [await] of a promise that is only ever resolved. *)
Definition wait (c : Call) : Cmd Mapper unit :=
  λ s,
    let made := calls s ++ [c] in
    (inr tt, {| storage := meanwhile made (storage s); calls := made |}).

(** Modelled from the spec: [findContext], the nullable lookup by id. *)
Definition findContext (i : string)
    : Cmd Mapper (option BrowsingContextImpl) :=
  read (λ s, storage s !! i).

(** Modelled from the spec: [getContext], the lookup by id that fails with
[no such frame] for an unknown id (the id stands for the message). *)
Definition getContext (i : string) : Cmd Mapper BrowsingContextImpl :=
  c ← findContext i;
  match c with
  | Some c => mret c
  | None => fail (Bidi (NoSuchFrameException i))
  end.

(** Modelled from the spec: [getAllContexts], the contexts of the storage. *)
Definition getAllContexts : Cmd Mapper (list BrowsingContextImpl) :=
  read (λ s, (map_to_list (storage s)).*2).

(** Modelled from the spec: [BrowsingContextImpl.create], which makes the
context and inserts it in the storage. *)
Definition BrowsingContextImpl_create (t : CdpTarget) (i : string)
    (parent : option string) (user : string) : Cmd Mapper unit :=
  λ s,
    (inr tt,
     {| storage :=
          <[i := {| id := i; parentId := parent; userContext := user;
                    cdpTarget := t |}]> (storage s);
        calls := calls s |}).

(** The [catch] block of [create]. *)
Definition createFailed (user : string) (err : Failure) : Cmd Mapper unit :=
  match err with
  | Bidi (CdpException e) =>
      if String.prefix "Failed to find browser context with id" (Cdp.message e)
         || bool_decide (Cdp.message e = "browserContextId")
      then fail (NoSuchUserContextException
                   ("The context " +:+ user +:+ " was not found"))
      else fail err
  | _ => fail err
  end.

(** [create(params)], which returns [result.context]. *)
Definition create (params : CreateParameters) : Cmd Mapper string :=
  user ← match referenceContext params with
         | Some reference =>
             c ← getContext reference;
             if negb (isTopLevelContext c) then
               fail (Bidi (InvalidArgumentException
                             "referenceContext should be a top-level context"))
             else mret (userContext c)
         | None => mret "default"
         end;
  let user := default user (create_userContext params) in
  let newWindow :=
    match create_type params with Tab => false | Window => true end in
  all ← getAllContexts;
  let existingContexts := filter (λ c, userContext c = user) all in
  let newWindow :=
    if negb (bool_decide (user = "default"))
       && bool_decide (length existingContexts = 0)
    then true else newWindow in
  try_catch
    (await (Target_createTarget "about:blank" newWindow
              (if bool_decide (user = "default") then None else Some user)))
    (createFailed user);;
  contextId ← read (λ s, createdTargetId (calls s));
  c ← getContext contextId;
  await (Context_lifecycleLoaded (id c));;
  mret (id c).

(** [activate(params)] *)
Definition activate (context : string) : Cmd Mapper unit :=
  c ← getContext context;
  if negb (isTopLevelContext c) then
    fail (Bidi (InvalidArgumentException
                  "Activation is only supported on the top-level context"))
  else await (Context_activate (id c)).

(** The [catch] block of [handleUserPrompt]. *)
Definition promptFailed (err : Failure) : Cmd Mapper unit :=
  match err with
  | Bidi (CdpException e) =>
      if includes "No dialog is showing" (Cdp.message e)
      then fail (NoSuchAlertException "No dialog is showing")
      else fail err
  | _ => fail err
  end.

(** [handleUserPrompt(params)] *)
Definition handleUserPrompt (context : string) (params : PromptParameters)
    : Cmd Mapper unit :=
  c ← getContext context;
  try_catch (await (Context_handleUserPrompt (id c) params)) promptFailed.

(** The [catch] block of [close]. *)
Definition closeFailed (err : Failure) : Cmd Mapper unit :=
  match err with
  | Bidi (CdpException e) =>
      if negb (bool_decide (Cdp.code e = GENERIC_ERROR)
               && bool_decide (Cdp.message e = "Not attached to an active page"))
      then fail err
      else mret tt
  | _ => fail err
  end.

(** [close(params)]: the promise of [Target.detachedFromTarget] for the
context is made first and awaited last. *)
Definition close (params : CloseParameters) : Cmd Mapper unit :=
  c ← getContext (close_context params);
  (if negb (isTopLevelContext c) then
     fail (Bidi (InvalidArgumentException
                   ("Non top-level browsing context " +:+ id c
                    +:+ " cannot be closed.")))
   else mret tt);;
  try_catch
    (emit (DetachedFromTarget_listen (close_context params));;
     (if default false (promptUnload params)
      then await (Context_close (id c))
      else await (Target_closeTarget (close_context params)));;
     wait (DetachedFromTarget_wait (close_context params)))
    closeFailed.

(** [#handleFrameAttachedEvent(params)] *)
Definition handleFrameAttachedEvent (frameId parentFrameId : string)
    : Cmd Mapper unit :=
  parentBrowsingContext ← findContext parentFrameId;
  match parentBrowsingContext with
  | Some parent =>
      BrowsingContextImpl_create (cdpTarget parent) frameId
        (Some parentFrameId) (userContext parent)
  | None => mret tt
  end.

(** [#handleFrameDetachedEvent(params)]; what [dispose] does to the storage
is the context's. *)
Definition handleFrameDetachedEvent (frameId reason : string)
    : Cmd Mapper unit :=
  if bool_decide (reason = "swap") then mret tt
  else
    c ← findContext frameId;
    match c with
    | Some c => emit (Context_dispose (id c))
    | None => mret tt
    end.

(** *** Looking a context up *)

Lemma getContext_found i c s :
  storage s !! i = Some c → getContext i s = (inr c, s).
Proof.
  intros Hc. unfold getContext, findContext, read, mbind, Cmd_bind.
  by rewrite Hc.
Qed.

Lemma getContext_missing i s :
  storage s !! i = None →
  getContext i s = (inl (Bidi (NoSuchFrameException i)), s).
Proof.
  intros Hc. unfold getContext, findContext, read, mbind, Cmd_bind.
  by rewrite Hc.
Qed.

(** *** [browsingContext.create] *)

(** No context of the storage is in the user context. *)
Definition unused (user : string) (s : Mapper) : Prop :=
  ∀ i c, storage s !! i = Some c → userContext c ≠ user.

Lemma unused_filter user s :
  length (filter (λ c, userContext c = user) (map_to_list (storage s)).*2) = 0
  ↔ unused user s.
Proof.
  rewrite length_zero_iff_nil. split.
  - intros Hnil i c Hc Huser.
    assert (c ∈ filter (λ c, userContext c = user) (map_to_list (storage s)).*2)
      as Hin.
    { apply list_elem_of_filter. split; [done|].
      apply list_elem_of_fmap. exists (i, c).
      split; [done|]. by apply elem_of_map_to_list. }
    rewrite Hnil in Hin. by apply elem_of_nil in Hin.
  - intros Hunused. apply NetworkStorage.filter_none. intros c Hin Huser.
    apply list_elem_of_fmap in Hin as ([i c'] & -> & Hin).
    apply elem_of_map_to_list in Hin. by apply (Hunused i c').
Qed.

(** The reference context of the parameters is known and top-level. *)
Definition referenceAccepted (params : CreateParameters) (s : Mapper) : Prop :=
  ∀ reference, referenceContext params = Some reference →
    ∃ c, storage s !! reference = Some c ∧ isTopLevelContext c = true.

(** The user context that [create] settles on. *)
Definition userContextFor (params : CreateParameters) (s : Mapper) : string :=
  default
    match referenceContext params with
    | Some reference => default "default" (userContext <$> storage s !! reference)
    | None => "default"
    end
    (create_userContext params).

(** [create] from the call of [Target.createTarget] on. *)
Definition createTarget (user : string) (newWindow : bool)
    : Cmd Mapper string :=
  try_catch
    (await (Target_createTarget "about:blank" newWindow
              (if bool_decide (user = "default") then None else Some user)))
    (createFailed user);;
  contextId ← read (λ s, createdTargetId (calls s));
  c ← getContext contextId;
  await (Context_lifecycleLoaded (id c));;
  mret (id c).

Lemma create_accepted params s :
  referenceAccepted params s →
  let user := userContextFor params s in
  create params s =
    createTarget user
      (if negb (bool_decide (user = "default"))
          && bool_decide
               (length (filter (λ c, userContext c = user)
                          (map_to_list (storage s)).*2) = 0)
       then true
       else match create_type params with Tab => false | Window => true end)
      s.
Proof.
  intros Href. unfold userContextFor, create.
  destruct (referenceContext params) as [reference|] eqn:Hreference.
  - destruct (Href reference Hreference) as (c & Hc & Htop).
    unfold mbind at 1, Cmd_bind at 1. unfold mbind at 1, Cmd_bind at 1.
    rewrite (getContext_found _ c) by done. rewrite Htop, Hc. simpl.
    reflexivity.
  - reflexivity.
Qed.

(** X13.  [create] with a reference context checks it before anything is
sent: an unknown reference throws [NoSuchFrameException], and a reference
that is not a top-level context throws [InvalidArgumentException] with the
message [referenceContext should be a top-level context].  No call is made
and the storage is untouched, whatever the other parameters are. *)
Theorem create_checks_reference (params : CreateParameters) (s : Mapper)
    (reference : string) :
  referenceContext params = Some reference →
  (storage s !! reference = None →
   create params s = (inl (Bidi (NoSuchFrameException reference)), s))
  ∧ (∀ c, storage s !! reference = Some c → isTopLevelContext c = false →
       create params s =
         (inl (Bidi (InvalidArgumentException
                       "referenceContext should be a top-level context")),
          s)).
Proof.
  intros Hreference. unfold create. rewrite Hreference. split.
  - intros Hnone. unfold mbind at 1, Cmd_bind at 1.
    unfold mbind at 1, Cmd_bind at 1. by rewrite getContext_missing.
  - intros c Hc Htop. unfold mbind at 1, Cmd_bind at 1.
    unfold mbind at 1, Cmd_bind at 1.
    rewrite (getContext_found _ c) by done. by rewrite Htop.
Qed.

Lemma createTarget_calls user newWindow s :
  ∃ rest,
    calls (createTarget user newWindow s).2 =
      calls s ++
        Target_createTarget "about:blank" newWindow
          (if bool_decide (user = "default") then None else Some user)
        :: rest.
Proof.
  unfold createTarget, try_catch, await, createFailed, fail.
  unfold mbind at 1, Cmd_bind at 1. cbv zeta.
  destruct (reply _) as [|e].
  - unfold mbind at 1, Cmd_bind at 1, read at 1. cbv beta iota.
    unfold mbind at 1, Cmd_bind at 1, getContext, findContext, read.
    unfold mbind at 1, Cmd_bind at 1. cbv beta iota.
    destruct (_ !! _) as [c|]; simpl.
    + unfold mbind, Cmd_bind. destruct (reply _); simpl;
        exists [Context_lifecycleLoaded (id c)]; by rewrite <- app_assoc.
    + by exists [].
  - destruct (_ || _); simpl; by exists [].
Qed.

(** X14.  What [create] asks of the browser, once the reference context, if
any, is accepted.  The user context is [params.userContext] when given,
else the one of the reference context, else ["default"].  The first call
is [Target.createTarget] for [about:blank], with no [browserContextId] for
the user context ["default"] and with the user context otherwise, and with
[newWindow] set exactly when a window is asked for or the user context is
not ["default"] and holds no context yet. *)
Theorem create_target_parameters (params : CreateParameters) (s : Mapper) :
  referenceAccepted params s →
  let user := userContextFor params s in
  ∃ newWindow rest,
    calls (create params s).2 =
      calls s ++
        Target_createTarget "about:blank" newWindow
          (if bool_decide (user = "default") then None else Some user)
        :: rest
    ∧ (newWindow = true ↔
         create_type params = Window ∨ (user ≠ "default" ∧ unused user s)).
Proof.
  intros Href user. rewrite create_accepted by done. fold user.
  set (newWindow := if _ && _ then true else _).
  destruct (createTarget_calls user newWindow s) as (rest & Hcalls).
  exists newWindow, rest. split; [done|]. unfold newWindow.
  destruct (decide (user = "default")) as [Hd|Hd].
  - rewrite (bool_decide_eq_true_2 _ Hd). simpl.
    destruct (create_type params); split; intros H; try done.
    + by destruct H as [?|[? _]].
    + by left.
  - rewrite (bool_decide_eq_false_2 _ Hd). simpl.
    destruct (decide (length (filter (λ c, userContext c = user)
                                (map_to_list (storage s)).*2) = 0))
      as [Hz|Hz].
    + rewrite (bool_decide_eq_true_2 _ Hz). split; [|done].
      intros _. right. split; [done|]. by apply unused_filter.
    + rewrite (bool_decide_eq_false_2 _ Hz).
      destruct (create_type params); split; intros H; try done.
      * destruct H as [?|[_ Hu]]; [done|]. by apply unused_filter in Hu.
      * by left.
Qed.

(** X15.  How [create] ends, once the reference context, if any, is
accepted.  A rejection of [Target.createTarget] whose message starts with
[Failed to find browser context with id] or is [browserContextId] is thrown
as [NoSuchUserContextException] naming the user context; any other
rejection is thrown as it is.  After a success the context of the new
target is looked up in the storage as the events have left it: if it is not
there [NoSuchFrameException] is thrown; otherwise [create] waits for the
context to load and returns its id. *)
Theorem create_outcome (params : CreateParameters) (s : Mapper) :
  referenceAccepted params s →
  let user := userContextFor params s in
  ∃ newWindow,
    let made :=
      calls s ++
        [Target_createTarget "about:blank" newWindow
           (if bool_decide (user = "default") then None else Some user)] in
    let after := meanwhile made (storage s) in
    match reply made with
    | Cdp.Rejected e =>
        create params s =
          (inl (if String.prefix "Failed to find browser context with id"
                     (Cdp.message e)
                   || bool_decide (Cdp.message e = "browserContextId")
                then NoSuchUserContextException
                       ("The context " +:+ user +:+ " was not found")
                else Bidi (CdpException e)),
           {| storage := after; calls := made |})
    | Cdp.Fulfilled =>
        match after !! createdTargetId made with
        | None =>
            create params s =
              (inl (Bidi (NoSuchFrameException (createdTargetId made))),
               {| storage := after; calls := made |})
        | Some c =>
            let loaded := made ++ [Context_lifecycleLoaded (id c)] in
            create params s =
              (match reply loaded with
               | Cdp.Fulfilled => inr (id c)
               | Cdp.Rejected e => inl (Bidi (CdpException e))
               end,
               {| storage := meanwhile loaded after; calls := loaded |})
        end
    end.
Proof.
  intros Href user. rewrite create_accepted by done. fold user.
  set (newWindow := if _ && _ then true else _). exists newWindow.
  cbv zeta.
  unfold createTarget, try_catch, await, createFailed, fail, getContext,
    findContext, read, mbind, Cmd_bind, mret, Cmd_ret.
  cbv zeta. simpl.
  set (made := calls s ++ [_]).
  destruct (reply made) as [|e]; simpl.
  - destruct (meanwhile made (storage s) !! createdTargetId made) as [c|];
      simpl; [|done].
    by destruct (reply (made ++ [Context_lifecycleLoaded (id c)])).
  - by destruct (_ || _).
Qed.

(** *** Commands for top-level contexts *)

(** X16.  [activate] and [close] are for top-level contexts.  For an id the
storage does not know both throw [NoSuchFrameException]; for a context that
is not top-level [activate] throws [InvalidArgumentException] with the
message [Activation is only supported on the top-level context] and [close]
throws it with [Non top-level browsing context <id> cannot be closed.].  In
each of these cases nothing is called and nothing changes. *)
Theorem activate_close_top_level_only (s : Mapper) (params : CloseParameters) :
  let k := close_context params in
  match storage s !! k with
  | None =>
      activate k s = (inl (Bidi (NoSuchFrameException k)), s)
      ∧ close params s = (inl (Bidi (NoSuchFrameException k)), s)
  | Some c =>
      isTopLevelContext c = false →
      activate k s =
        (inl (Bidi (InvalidArgumentException
                      "Activation is only supported on the top-level context")),
         s)
      ∧ close params s =
          (inl (Bidi (InvalidArgumentException
                        ("Non top-level browsing context " +:+ id c
                         +:+ " cannot be closed."))),
           s)
  end.
Proof.
  intros k. destruct (storage s !! k) as [c|] eqn:Hc.
  - intros Htop. unfold activate, close. fold k.
    unfold mbind at 1, Cmd_bind at 1. rewrite (getContext_found _ c) by done.
    unfold mbind at 1, Cmd_bind at 1. rewrite (getContext_found _ c) by done.
    by rewrite Htop.
  - unfold activate, close. fold k.
    unfold mbind at 1, Cmd_bind at 1. rewrite getContext_missing by done.
    unfold mbind at 1, Cmd_bind at 1. by rewrite getContext_missing.
Qed.

(** X17.  [close] of a top-level context first listens for
[Target.detachedFromTarget], then calls [close] on the context when
[promptUnload] is set and sends [Target.closeTarget] otherwise.  When the
call succeeds it waits for the context's [Target.detachedFromTarget] and
returns.  When the call is rejected nothing is waited for: the error with
code [GENERIC_ERROR] and message [Not attached to an active page] is
swallowed and [close] returns; every other error is thrown as it is. *)
Theorem close_swallows_not_attached (s : Mapper) (params : CloseParameters)
    (c : BrowsingContextImpl) :
  let k := close_context params in
  storage s !! k = Some c →
  isTopLevelContext c = true →
  let made :=
    calls s ++
      [ DetachedFromTarget_listen k;
        if default false (promptUnload params)
        then Context_close (id c) else Target_closeTarget k ] in
  let after := meanwhile made (storage s) in
  close params s =
    match reply made with
    | Cdp.Fulfilled =>
        let waited := made ++ [DetachedFromTarget_wait k] in
        (inr tt, {| storage := meanwhile waited after; calls := waited |})
    | Cdp.Rejected e =>
        (if bool_decide (Cdp.code e = GENERIC_ERROR)
            && bool_decide (Cdp.message e = "Not attached to an active page")
         then inr tt else inl (Bidi (CdpException e)),
         {| storage := after; calls := made |})
    end.
Proof.
  intros k Hc Htop made after. unfold close. fold k.
  unfold mbind at 1, Cmd_bind at 1. rewrite (getContext_found _ c) by done.
  rewrite Htop. unfold after, made.
  destruct (default false (promptUnload params));
    unfold try_catch, emit, await, wait, closeFailed, fail, mbind, Cmd_bind,
      mret, Cmd_ret;
    simpl; rewrite <- !app_assoc; simpl;
    (destruct (reply _) as [|e]; simpl; [by rewrite <- !app_assoc|]);
    by destruct (_ && _).
Qed.

(** *** [browsingContext.handleUserPrompt] *)

Lemma substring_start (needle rest : string) :
  String.substring 0 (String.length needle) (needle +:+ rest) = needle.
Proof.
  induction needle as [|b needle IH].
  - by destruct rest.
  - change (String b needle +:+ rest) with (String b (needle +:+ rest)).
    simpl. by rewrite IH.
Qed.

Lemma substring_at (before needle rest : string) :
  String.substring (String.length before) (String.length needle)
    (before +:+ needle +:+ rest) = needle.
Proof.
  induction before as [|a before IH].
  - exact (substring_start needle rest).
  - change (String a before +:+ needle +:+ rest)
      with (String a (before +:+ needle +:+ rest)).
    simpl. exact IH.
Qed.

Lemma includes_substring (needle before rest : string) :
  needle ≠ "" → includes needle (before +:+ needle +:+ rest) = true.
Proof.
  intros Hne. unfold includes. apply bool_decide_eq_true.
  destruct (String.index 0 needle (before +:+ needle +:+ rest)) eqn:Hindex;
    [by eexists|].
  destruct (String.index_correct3 0 (String.length before) _ _ Hindex Hne);
    [lia|]. apply substring_at.
Qed.

(** X18.  [handleUserPrompt] calls the context once.  A rejection whose
message contains [No dialog is showing], anywhere in it, is thrown as
[NoSuchAlertException] with exactly that text; a rejection without it is
thrown as it is; a success returns. *)
Theorem handleUserPrompt_no_dialog (s : Mapper) (k : string)
    (params : PromptParameters) (c : BrowsingContextImpl) :
  storage s !! k = Some c →
  let made := calls s ++ [Context_handleUserPrompt (id c) params] in
  let after := {| storage := meanwhile made (storage s); calls := made |} in
  handleUserPrompt k params s =
    (match reply made with
     | Cdp.Fulfilled => inr tt
     | Cdp.Rejected e =>
         inl (if includes "No dialog is showing" (Cdp.message e)
              then NoSuchAlertException "No dialog is showing"
              else Bidi (CdpException e))
     end, after)
  ∧ ∀ e before rest,
      reply made = Cdp.Rejected e →
      Cdp.message e = before +:+ "No dialog is showing" +:+ rest →
      handleUserPrompt k params s =
        (inl (NoSuchAlertException "No dialog is showing"), after).
Proof.
  intros Hc made after.
  assert (handleUserPrompt k params s =
            (match reply made with
             | Cdp.Fulfilled => inr tt
             | Cdp.Rejected e =>
                 inl (if includes "No dialog is showing" (Cdp.message e)
                      then NoSuchAlertException "No dialog is showing"
                      else Bidi (CdpException e))
             end, after)) as Hrun.
  { unfold handleUserPrompt. unfold mbind at 1, Cmd_bind at 1.
    rewrite (getContext_found _ c) by done.
    unfold try_catch, await, promptFailed, fail. cbv zeta. fold made.
    destruct (reply made) as [|e]; [done|].
    by destruct (includes _ _). }
  split; [done|]. intros e before rest He Hmessage.
  rewrite Hrun, He, Hmessage, includes_substring; done.
Qed.

(** *** Frames *)

Lemma handleFrameDetachedEvent_swap frameId s :
  handleFrameDetachedEvent frameId "swap" s = (inr tt, s).
Proof. done. Qed.

Lemma handleFrameAttachedEvent_orphan frameId parentFrameId s :
  storage s !! parentFrameId = None →
  handleFrameAttachedEvent frameId parentFrameId s = (inr tt, s).
Proof.
  intros Hnone.
  unfold handleFrameAttachedEvent, findContext, read, mbind, Cmd_bind.
  by rewrite Hnone.
Qed.

End Commands.

(** *** A concrete mapper *)

Definition pageTarget : CdpTarget :=
  {| cdpTarget_id := "T1"; cdpSessionId := "S1" |}.

(** A page in the user context ["U1"] with one frame. *)
Definition sampleMapper : Mapper (PromptParameters:=unit) :=
  {| storage :=
       {[ "T1" := {| id := "T1"; parentId := None; userContext := "U1";
                     cdpTarget := pageTarget |};
          "F1" := {| id := "F1"; parentId := Some "T1"; userContext := "U1";
                     cdpTarget := pageTarget |} ]};
     calls := [] |}.

Definition unknownUserContext : Cdp.CdpError :=
  {| Cdp.code := (-32000)%Z;
     Cdp.message := "Failed to find browser context with id U2" |}.

Definition notAttached : Cdp.CdpError :=
  {| Cdp.code := (-32000)%Z;
     Cdp.message := "Not attached to an active page" |}.

Definition noDialog : Cdp.CdpError :=
  {| Cdp.code := (-32000)%Z;
     Cdp.message := "Cannot accept: No dialog is showing" |}.

Definition rejects (e : Cdp.CdpError) : list (Call (PromptParameters:=unit))
    → Cdp.Reply :=
  λ _, Cdp.Rejected e.

Definition untouched : list (Call (PromptParameters:=unit))
    → gmap string BrowsingContextImpl → gmap string BrowsingContextImpl :=
  λ _ m, m.

Definition sampleCreate : CreateParameters :=
  {| create_type := Tab; referenceContext := Some "T1";
     create_userContext := Some "U2" |}.

Lemma create_checks_reference_witness :
  create (rejects unknownUserContext) (λ _, "T2") untouched
    {| create_type := Tab; referenceContext := Some "F1";
       create_userContext := None |} sampleMapper
  = (inl (Bidi (InvalidArgumentException
                  "referenceContext should be a top-level context")),
     sampleMapper).
Proof.
  apply (proj2 (create_checks_reference (rejects unknownUserContext)
                  (λ _, "T2") untouched
                  {| create_type := Tab; referenceContext := Some "F1";
                     create_userContext := None |} sampleMapper "F1" eq_refl)
           {| id := "F1"; parentId := Some "T1"; userContext := "U1";
              cdpTarget := pageTarget |}).
  - by vm_compute.
  - done.
Defined.

Lemma sampleCreate_accepted : referenceAccepted sampleCreate sampleMapper.
Proof.
  intros reference [= <-]. eexists. split; [by vm_compute|done].
Defined.

Lemma create_target_parameters_witness :
  ∃ newWindow rest,
    calls (create (rejects unknownUserContext) (λ _, "T2") untouched
             sampleCreate sampleMapper).2
    = Target_createTarget "about:blank" newWindow (Some "U2") :: rest
    ∧ (newWindow = true ↔
         create_type sampleCreate = Window
         ∨ ("U2" ≠ "default" ∧ unused "U2" sampleMapper)).
Proof.
  exact (create_target_parameters (rejects unknownUserContext) (λ _, "T2")
           untouched sampleCreate sampleMapper sampleCreate_accepted).
Defined.

Lemma create_outcome_witness :
  ∃ newWindow,
    create (rejects unknownUserContext) (λ _, "T2") untouched sampleCreate
      sampleMapper
    = (inl (NoSuchUserContextException "The context U2 was not found"),
       {| storage := storage sampleMapper;
          calls := [Target_createTarget "about:blank" newWindow (Some "U2")] |}).
Proof.
  exact (create_outcome (rejects unknownUserContext) (λ _, "T2") untouched
           sampleCreate sampleMapper sampleCreate_accepted).
Defined.

Lemma activate_close_top_level_only_witness :
  activate (rejects notAttached) untouched "F1" sampleMapper
  = (inl (Bidi (InvalidArgumentException
                  "Activation is only supported on the top-level context")),
     sampleMapper)
  ∧ close (rejects notAttached) untouched (-32000)
      {| close_context := "F1"; promptUnload := None |} sampleMapper
    = (inl (Bidi (InvalidArgumentException
                    "Non top-level browsing context F1 cannot be closed.")),
       sampleMapper).
Proof.
  exact (activate_close_top_level_only (rejects notAttached) untouched
           (-32000) sampleMapper
           {| close_context := "F1"; promptUnload := None |} eq_refl).
Defined.

Lemma close_swallows_not_attached_witness :
  close (rejects notAttached) untouched (-32000)
    {| close_context := "T1"; promptUnload := None |} sampleMapper
  = (inr tt,
     {| storage := storage sampleMapper;
        calls := [DetachedFromTarget_listen "T1"; Target_closeTarget "T1"] |}).
Proof.
  exact (close_swallows_not_attached (rejects notAttached) untouched (-32000)
           sampleMapper {| close_context := "T1"; promptUnload := None |}
           {| id := "T1"; parentId := None; userContext := "U1";
              cdpTarget := pageTarget |} eq_refl eq_refl).
Defined.

Lemma handleUserPrompt_no_dialog_witness :
  handleUserPrompt (rejects noDialog) untouched "T1" tt sampleMapper
  = (inl (NoSuchAlertException "No dialog is showing"),
     {| storage := storage sampleMapper;
        calls := [Context_handleUserPrompt "T1" tt] |}).
Proof.
  apply (proj2 (handleUserPrompt_no_dialog (rejects noDialog) untouched
                  sampleMapper "T1" tt
                  {| id := "T1"; parentId := None; userContext := "U1";
                     cdpTarget := pageTarget |} eq_refl)
           noDialog "Cannot accept: " "").
  - reflexivity.
  - reflexivity.
Defined.

End BrowsingContextCommands.

(** ** Input actions by tick

An earlier revision of the processor also serves [input.performActions];
[#getActionsByTick] checks the input sources of the command against the
input state of the context and regroups their actions by tick. *)

Module InputActions.

(** [SourceType] *)
Inductive SourceType := NoneSource | Key | Pointer | Wheel.

(** [Input.PointerType] *)
Inductive PointerType := Mouse | Pen | Touch.

#[export] Instance PointerType_eq_dec : EqDecision PointerType.
Proof. solve_decision. Defined.

(** What a template literal prints for [source.subtype]. *)
Definition subtypeText (subtype : option PointerType) : string :=
  match subtype with
  | Some Mouse => "mouse"
  | Some Pen => "pen"
  | Some Touch => "touch"
  | None => "undefined"
  end.

(** What the method can throw: an exception, or the [TypeError] of a call
on [undefined]. *)
Inductive Failure :=
| Raised (e : Exception)
| TypeError.

Section getActionsByTick.

(** An action of a source, and the [InputState] of the context. *)
Context {Item InputState : Type}.

(** One entry of [params.actions]: [parameters] may be missing, and so may
its [pointerType]. *)
Record SourceActions := {
  source_id : string;
  source_type : SourceType;
  parameters : option (option PointerType);
  actions : list Item
}.

(** [{id, action}] *)
Record ActionOption := {
  option_id : string;
  action : Item
}.

(** [inputState.getOrCreate(id, type, subtype)]: the subtype of the source
it returns, or what it throws; the class is outside the modelled sources. *)
Variable getOrCreate :
  string → SourceType → option PointerType → InputState →
  (Exception + option PointerType) * InputState.

(** The pointer type a pointer source asks for: [Mouse] unless the
parameters name one. *)
Definition pointerTypeOf (source : SourceActions) : PointerType :=
  match parameters source with
  | Some (Some pointerType) => pointerType
  | _ => Mouse
  end.

(** The [switch] on the type of the source. *)
Definition check (source : SourceActions) (st : InputState)
    : (Failure + unit) * InputState :=
  match source_type source with
  | Pointer =>
      let pointerType := pointerTypeOf source in
      match getOrCreate (source_id source) Pointer (Some pointerType) st with
      | (inl e, st') => (inl (Raised e), st')
      | (inr subtype, st') =>
          if negb (bool_decide (subtype = Some pointerType)) then
            (inl (Raised (InvalidArgumentException
                            ("Expected input source " +:+ source_id source
                             +:+ " to be " +:+ subtypeText subtype
                             +:+ "; got " +:+ subtypeText (Some pointerType)
                             +:+ "."))),
             st')
          else (inr tt, st')
      end
  | type =>
      match getOrCreate (source_id source) type None st with
      | (inl e, st') => (inl (Raised e), st')
      | (inr _, st') => (inr tt, st')
      end
  end.

(** [action.actions.map((item) => ({id: action.id, action: item}))] *)
Definition optionsOf (source : SourceActions) : list ActionOption :=
  (λ item, {| option_id := source_id source; action := item |})
    <$> actions source.

(** One pass of the inner loop: [actionsByTick[i]!.push(actions[i]!)],
after a new tick is opened when [i] is the number of ticks. *)
Definition pushAt (actionsByTick : list (list ActionOption)) (i : nat)
    (a : ActionOption) : Failure + list (list ActionOption) :=
  let opened :=
    if bool_decide (length actionsByTick = i) then actionsByTick ++ [[]]
    else actionsByTick in
  match opened !! i with
  | Some tick => inr (<[i := tick ++ [a]]> opened)
  | None => inl TypeError
  end.

(** The inner loop, from index [i] on. *)
Fixpoint spread (actionsByTick : list (list ActionOption)) (i : nat)
    (rest : list ActionOption) : Failure + list (list ActionOption) :=
  match rest with
  | [] => inr actionsByTick
  | a :: rest =>
      match pushAt actionsByTick i a with
      | inr pushed => spread pushed (S i) rest
      | inl e => inl e
      end
  end.

(** The outer loop over [params.actions]. *)
Fixpoint eachSource (sources : list SourceActions)
    (actionsByTick : list (list ActionOption)) (st : InputState)
    : (Failure + list (list ActionOption)) * InputState :=
  match sources with
  | [] => (inr actionsByTick, st)
  | source :: sources =>
      match check source st with
      | (inl e, st') => (inl e, st')
      | (inr _, st') =>
          match spread actionsByTick 0 (optionsOf source) with
          | inl e => (inl e, st')
          | inr pushed => eachSource sources pushed st'
          end
      end
  end.

(** [#getActionsByTick(params, inputState)] *)
Definition getActionsByTick (sources : list SourceActions) (st : InputState)
    : (Failure + list (list ActionOption)) * InputState :=
  eachSource sources [] st.

(** *** The inner loop appends one action to each tick *)

Fixpoint merge (ticks : list (list ActionOption)) (options : list ActionOption)
    : list (list ActionOption) :=
  match ticks, options with
  | [], _ => (λ a, [a]) <$> options
  | _, [] => ticks
  | tick :: ticks, a :: options => (tick ++ [a]) :: merge ticks options
  end.

Lemma spread_merge before ticks options :
  spread (before ++ ticks) (length before) options
  = inr (before ++ merge ticks options).
Proof.
  revert before ticks.
  induction options as [|a options IH]; intros before ticks; simpl.
  - by destruct ticks.
  - unfold pushAt. destruct ticks as [|tick ticks].
    + rewrite app_nil_r, bool_decide_eq_true_2 by done.
      rewrite list_lookup_middle by done.
      replace (<[length before:=[] ++ [a]]> (before ++ [[]]))
        with ((before ++ [[a]]) ++ []).
      * replace (S (length before)) with (length (before ++ [[a]]))
          by (rewrite length_app; simpl; lia).
        rewrite IH. by rewrite <- app_assoc.
      * rewrite app_nil_r.
        replace (length before) with (length before + 0) at 1 by lia.
        by rewrite insert_app_r.
    + rewrite bool_decide_eq_false_2
        by (rewrite length_app; simpl; lia).
      rewrite list_lookup_middle by done.
      replace (<[length before:=tick ++ [a]]> (before ++ tick :: ticks))
        with ((before ++ [tick ++ [a]]) ++ ticks).
      * replace (S (length before)) with (length (before ++ [tick ++ [a]]))
          by (rewrite length_app; simpl; lia).
        rewrite IH. by rewrite <- app_assoc.
      * rewrite <- app_assoc. simpl.
        replace (length before) with (length before + 0) at 1 by lia.
        by rewrite insert_app_r.
Qed.

Lemma merge_length ticks options :
  length (merge ticks options) = length ticks `max` length options.
Proof.
  revert options. induction ticks as [|tick ticks IH]; intros options.
  - simpl. by rewrite length_fmap.
  - destruct options as [|a options]; simpl; [done|]. by rewrite IH.
Qed.

Lemma merge_lookup ticks options i :
  default [] (merge ticks options !! i)
  = default [] (ticks !! i) ++ option_list (options !! i).
Proof.
  revert options i. induction ticks as [|tick ticks IH]; intros options i.
  - simpl. rewrite list_lookup_fmap. by destruct (options !! i).
  - destruct options as [|a options]; simpl.
    + by rewrite app_nil_r.
    + destruct i as [|i]; simpl; [done|]. apply IH.
Qed.

(** *** The ticks of a list of sources *)

(** The actions of tick [i]: the [i]-th action of each source that has
one, in the order of the sources. *)
Definition tick (i : nat) (sources : list SourceActions) : list ActionOption :=
  omap (λ source, optionsOf source !! i) sources.

Definition ticks (sources : list SourceActions) : nat :=
  max_list_with (λ source, length (actions source)) sources.

Lemma tick_beyond i sources : ticks sources ≤ i → tick i sources = [].
Proof.
  unfold tick, ticks. induction sources as [|source sources IH]; simpl;
    [done|].
  intros Hle. rewrite (lookup_ge_None_2 (optionsOf source)).
  - apply IH. lia.
  - unfold optionsOf. rewrite length_fmap. lia.
Qed.

Lemma ticks_snoc sources source :
  ticks (sources ++ [source])
  = ticks sources `max` length (actions source).
Proof.
  unfold ticks. induction sources as [|s sources IH]; simpl; [lia|].
  rewrite IH. lia.
Qed.

Lemma tick_snoc i sources source :
  tick i (sources ++ [source])
  = tick i sources ++ option_list (optionsOf source !! i).
Proof.
  unfold tick. rewrite omap_app. simpl. by destruct (optionsOf source !! i).
Qed.

(** The ticks built from the sources seen so far. *)
Definition Regrouped (sources : list SourceActions)
    (actionsByTick : list (list ActionOption)) : Prop :=
  length actionsByTick = ticks sources
  ∧ ∀ i, default [] (actionsByTick !! i) = tick i sources.

Lemma Regrouped_merge sources source actionsByTick :
  Regrouped sources actionsByTick →
  Regrouped (sources ++ [source]) (merge actionsByTick (optionsOf source)).
Proof.
  intros [Hlength Hticks]. split.
  - rewrite merge_length, ticks_snoc, Hlength.
    unfold optionsOf. by rewrite length_fmap.
  - intros i. by rewrite merge_lookup, tick_snoc, Hticks.
Qed.

(** The checks of the sources alone, one after the other as the loop makes
them: each source is checked in the input state that the check of the one
before left. *)
Fixpoint checkEach (sources : list SourceActions) (st : InputState)
    : (Failure + unit) * InputState :=
  match sources with
  | [] => (inr tt, st)
  | source :: sources =>
      match check source st with
      | (inl e, st') => (inl e, st')
      | (inr _, st') => checkEach sources st'
      end
  end.

Lemma eachSource_regroups seen sources actionsByTick st :
  Regrouped seen actionsByTick →
  match checkEach sources st with
  | (inr _, st') =>
      ∃ result,
        eachSource sources actionsByTick st = (inr result, st')
        ∧ Regrouped (seen ++ sources) result
  | (inl e, st') => eachSource sources actionsByTick st = (inl e, st')
  end.
Proof.
  revert seen actionsByTick st.
  induction sources as [|source sources IH];
    intros seen actionsByTick st Hregrouped; simpl.
  - exists actionsByTick. by rewrite app_nil_r.
  - destruct (check source st) as [[e|[]] st']; [done|].
    rewrite (spread_merge [] actionsByTick). simpl.
    specialize (IH (seen ++ [source])
                  (merge actionsByTick (optionsOf source)) st'
                  (Regrouped_merge _ _ _ Hregrouped)).
    destruct (checkEach sources st') as [[e|[]] st'']; [done|].
    destruct IH as (result & Hrun & Hresult).
    exists result. split; [done|]. by rewrite <- app_assoc in Hresult.
Qed.

(** X19.  [#getActionsByTick] fails exactly when the check of a source
fails in the input state that the checks before it left, and then with the
failure of that check: it never pushes to a tick that is not there.
Otherwise it returns, with the input state the checks left.  There are as
many ticks as the longest list of actions is long; tick [i] holds the
[i]-th action of every source that has one, each with the id of its source,
in the order of the sources; and no tick is empty. *)
Theorem getActionsByTick_regroups (sources : list SourceActions)
    (st : InputState) :
  match checkEach sources st with
  | (inr _, st') =>
      ∃ actionsByTick,
        getActionsByTick sources st = (inr actionsByTick, st')
        ∧ length actionsByTick = ticks sources
        ∧ (∀ i, i < ticks sources →
             actionsByTick !! i = Some (tick i sources)
             ∧ tick i sources ≠ [])
  | (inl e, st') => getActionsByTick sources st = (inl e, st')
  end.
Proof.
  pose proof (eachSource_regroups [] sources [] st) as Hrun.
  destruct (checkEach sources st) as [[e|[]] st'].
  { apply Hrun. split; [done|]. intros i. by rewrite lookup_nil. }
  destruct Hrun as (result & Hrun & Hlength & Hticks).
  { split; [done|]. intros i. by rewrite lookup_nil. }
  simpl in Hlength, Hticks.
  exists result. split; [done|]. split; [done|].
  intros i Hi.
  destruct (lookup_lt_is_Some_2 result i) as [t Ht]; [lia|].
  specialize (Hticks i). rewrite Ht in Hticks. simpl in Hticks. subst t.
  split; [done|].
  clear -Hi. unfold ticks, tick in *.
  induction sources as [|source sources IH]; simpl in *; [lia|].
  destruct (decide (i < length (actions source))) as [Hlt|Hge].
  - destruct (lookup_lt_is_Some_2 (optionsOf source) i) as [a ->].
    + unfold optionsOf. by rewrite length_fmap.
    + done.
  - destruct (optionsOf source !! i); [done|]. apply IH. lia.
Qed.

(** X20.  The check of a pointer source.  It asks the input state for a
pointer source of the type named in the parameters, or of type [mouse] when
the parameters or their pointer type are missing.  When the input state
holds the id with another subtype, the method throws
[InvalidArgumentException], naming the id, the subtype held and the one
asked for, and returns no tick, though the sources before it were
regrouped. *)
Theorem getActionsByTick_pointer_mismatch (before later : list SourceActions)
    (source : SourceActions) (st st1 st2 : InputState)
    (held : option PointerType) (seen : list (list ActionOption)) :
  source_type source = Pointer →
  eachSource before [] st = (inr seen, st1) →
  getOrCreate (source_id source) Pointer (Some (pointerTypeOf source)) st1
  = (inr held, st2) →
  held ≠ Some (pointerTypeOf source) →
  getActionsByTick (before ++ source :: later) st
  = (inl (Raised (InvalidArgumentException
                    ("Expected input source " +:+ source_id source
                     +:+ " to be " +:+ subtypeText held
                     +:+ "; got " +:+ subtypeText (Some (pointerTypeOf source))
                     +:+ "."))),
     st2).
Proof.
  intros Htype Hbefore Hheld Hne. unfold getActionsByTick.
  assert (∀ ts, eachSource before ts st = (inr seen, st1) →
            eachSource (before ++ source :: later) ts st
            = eachSource (source :: later) seen st1) as Hskip.
  { clear Hbefore. revert st. induction before as [|b before IH];
      intros st ts Hrun; simpl in *.
    - by injection Hrun as -> ->.
    - destruct (check b st) as [[e|[]] st']; [done|].
      destruct (spread ts 0 (optionsOf b)) as [e|pushed]; [done|].
      by apply IH. }
  rewrite (Hskip [] Hbefore). simpl. unfold check.
  rewrite Htype, Hheld. by rewrite bool_decide_eq_false_2.
Qed.

End getActionsByTick.

(** *** A concrete input state: the subtypes of the pointer sources *)

Definition sampleGetOrCreate (i : string) (type : SourceType)
    (subtype : option PointerType) (st : gmap string (option PointerType))
    : (Exception + option PointerType) * gmap string (option PointerType) :=
  match st !! i with
  | Some held => (inr held, st)
  | None => (inr subtype, <[i := subtype]> st)
  end.

Definition keyboard : SourceActions (Item:=string) :=
  {| source_id := "k"; source_type := Key; parameters := None;
     actions := ["down a"; "up a"; "down b"] |}.

Definition mouse : SourceActions (Item:=string) :=
  {| source_id := "m"; source_type := Pointer; parameters := None;
     actions := ["move"; "click"] |}.

Definition pen : SourceActions (Item:=string) :=
  {| source_id := "m"; source_type := Pointer;
     parameters := Some (Some Pen); actions := ["move"] |}.

Example getActionsByTick_sample :
  getActionsByTick sampleGetOrCreate [keyboard; mouse] ∅
  = (inr [ [ {| option_id := "k"; action := "down a" |};
             {| option_id := "m"; action := "move" |} ];
           [ {| option_id := "k"; action := "up a" |};
             {| option_id := "m"; action := "click" |} ];
           [ {| option_id := "k"; action := "down b" |} ] ],
     {[ "k" := None; "m" := Some Mouse ]}).
Proof. by vm_compute. Qed.

(** A key source and a pointer source on an empty input state: the pointer
source is created as a mouse, both checks pass, and the three ticks hold the
actions of the two sources. *)
Lemma getActionsByTick_regroups_witness :
  ∃ actionsByTick,
    getActionsByTick sampleGetOrCreate [keyboard; mouse] ∅
    = (inr actionsByTick, {[ "k" := None; "m" := Some Mouse ]})
    ∧ length actionsByTick = 3
    ∧ (∀ i, i < 3 →
         actionsByTick !! i = Some (tick i [keyboard; mouse])
         ∧ tick i [keyboard; mouse] ≠ []).
Proof.
  exact (getActionsByTick_regroups sampleGetOrCreate [keyboard; mouse] ∅).
Defined.

(** The same pointer source asked for as a pen after it was created as a
mouse: the third check fails in the state the first two left, and the method
fails with it. *)
Example getActionsByTick_check_fails :
  checkEach sampleGetOrCreate [keyboard; mouse; pen] ∅
  = (inl (Raised (InvalidArgumentException
                    "Expected input source m to be mouse; got pen.")),
     {[ "k" := None; "m" := Some Mouse ]})
  ∧ checkEach sampleGetOrCreate [pen] ∅ = (inr tt, {[ "m" := Some Pen ]}).
Proof. by vm_compute. Qed.

Lemma getActionsByTick_pointer_mismatch_witness :
  getActionsByTick sampleGetOrCreate [keyboard; mouse; pen] ∅
  = (inl (Raised (InvalidArgumentException
                    "Expected input source m to be mouse; got pen.")),
     {[ "k" := None; "m" := Some Mouse ]}).
Proof.
  apply (getActionsByTick_pointer_mismatch sampleGetOrCreate
           [keyboard; mouse] [] pen ∅
           {[ "k" := None; "m" := Some Mouse ]}
           {[ "k" := None; "m" := Some Mouse ]}
           (Some Mouse)
           [ [ {| option_id := "k"; action := "down a" |};
               {| option_id := "m"; action := "move" |} ];
             [ {| option_id := "k"; action := "up a" |};
               {| option_id := "m"; action := "click" |} ];
             [ {| option_id := "k"; action := "down b" |} ] ]).
  - reflexivity.
  - by vm_compute.
  - by vm_compute.
  - discriminate.
Defined.

End InputActions.

(** ** CdpTarget: asynchronous methods of a target

An [async] method is a [Task]: what it does up to its next [await], and how
it goes on from the value awaited.  A task runs until it awaits a CDP reply
([start]); a reply resumes the tasks that wait for it ([deliver]).  The
event loop is the list of replies in the order in which they arrive. *)

Module CdpTarget.

(** [interface FetchStages] *)
Record FetchStages := {
  request : bool;
  response : bool;
  auth : bool
}.

#[export] Instance FetchStages_eq_dec : EqDecision FetchStages.
Proof. solve_decision. Defined.

(** The mutable fields of a [CdpTarget]. *)
Record TargetState := {
  networkDomainEnabled : bool;
  fetchDomainStages : FetchStages
}.

Definition noStages : FetchStages :=
  {| request := false; response := false; auth := false |}.

(** The fields of a new [CdpTarget]. *)
Definition created : TargetState :=
  {| networkDomainEnabled := false; fetchDomainStages := noStages |}.

(** [Result<void>] *)
Inductive Result :=
| Success
| Error (e : Cdp.CdpError).

#[export] Instance Result_eq_dec : EqDecision Result.
Proof. solve_decision. Defined.

(** What an execution leaves in its log: a command sent under an id, the
reply to it, a call of [this.#unblocked.resolve], and the detached
continuation that [#disableFetch] hangs on the blocked requests. *)
Inductive Event :=
| Issued (id : nat) (c : Cdp.Command)
| Replied (id : nat) (r : Cdp.Reply)
| Resolved (r : Result)
| ToggleDeferred.

#[export] Instance Event_eq_dec : EqDecision Event.
Proof. solve_decision. Defined.

#[warnings="-register-all"]
Inductive Task : Type :=
| Done
| Throw (e : Cdp.CdpError)
| Get (k : TargetState → Task)
| Put (s : TargetState) (k : Task)
| Resolve (r : Result) (k : Task)
| Defer (k : Task)
| Send (c : Cdp.Command) (k : Cdp.Reply → Task)
| All (ts : list Task) (k : Cdp.Reply → Task).

(** A task that has run up to an [await]: it has returned, or thrown, or
it waits for the reply to the command it sent, or for a [Promise.all]. *)
#[warnings="-register-all"]
Inductive Proc : Type :=
| Ended
| Failed (e : Cdp.CdpError)
| Awaiting (id : nat) (k : Cdp.Reply → Task)
| AwaitingAll (ps : list Proc) (k : Cdp.Reply → Task).

(** Induction on tasks and on suspended tasks, through the list of an
[All]. *)
Section Task_induction.
Variable P : Task → Prop.
Hypothesis HDone : P Done.
Hypothesis HThrow : ∀ e, P (Throw e).
Hypothesis HGet : ∀ k, (∀ s, P (k s)) → P (Get k).
Hypothesis HPut : ∀ s k, P k → P (Put s k).
Hypothesis HResolve : ∀ r k, P k → P (Resolve r k).
Hypothesis HDefer : ∀ k, P k → P (Defer k).
Hypothesis HSend : ∀ c k, (∀ r, P (k r)) → P (Send c k).
Hypothesis HAll : ∀ ts k, Forall P ts → (∀ r, P (k r)) → P (All ts k).

Fixpoint Task_nested_ind (t : Task) : P t :=
  match t with
  | Done => HDone
  | Throw e => HThrow e
  | Get k => HGet k (λ s, Task_nested_ind (k s))
  | Put s k => HPut s k (Task_nested_ind k)
  | Resolve r k => HResolve r k (Task_nested_ind k)
  | Defer k => HDefer k (Task_nested_ind k)
  | Send c k => HSend c k (λ r, Task_nested_ind (k r))
  | All ts k =>
      HAll ts k
        ((fix go (ts : list Task) : Forall P ts :=
            match ts with
            | [] => ListDef.Forall_nil P
            | t :: ts' =>
                ListDef.Forall_cons P t ts' (Task_nested_ind t) (go ts')
            end) ts)
        (λ r, Task_nested_ind (k r))
  end.
End Task_induction.

Section Proc_induction.
Variable P : Proc → Prop.
Hypothesis HEnded : P Ended.
Hypothesis HFailed : ∀ e, P (Failed e).
Hypothesis HAwaiting : ∀ id k, P (Awaiting id k).
Hypothesis HAwaitingAll : ∀ ps k, Forall P ps → P (AwaitingAll ps k).

Fixpoint Proc_nested_ind (p : Proc) : P p :=
  match p with
  | Ended => HEnded
  | Failed e => HFailed e
  | Awaiting id k => HAwaiting id k
  | AwaitingAll ps k =>
      HAwaitingAll ps k
        ((fix go (ps : list Proc) : Forall P ps :=
            match ps with
            | [] => ListDef.Forall_nil P
            | p :: ps' =>
                ListDef.Forall_cons P p ps' (Proc_nested_ind p) (go ps')
            end) ps)
  end.
End Proc_induction.

(** [a; b]: [b] after [a] has returned. *)
Fixpoint andThen (a b : Task) : Task :=
  match a with
  | Done => b
  | Throw e => Throw e
  | Get k => Get (λ s, andThen (k s) b)
  | Put s k => Put s (andThen k b)
  | Resolve r k => Resolve r (andThen k b)
  | Defer k => Defer (andThen k b)
  | Send c k => Send c (λ r, andThen (k r) b)
  | All ts k => All ts (λ r, andThen (k r) b)
  end.

(** [try { a } catch { h }] *)
Fixpoint try_catch (a : Task) (h : Cdp.CdpError → Task) : Task :=
  match a with
  | Done => Done
  | Throw e => h e
  | Get k => Get (λ s, try_catch (k s) h)
  | Put s k => Put s (try_catch k h)
  | Resolve r k => Resolve r (try_catch k h)
  | Defer k => Defer (try_catch k h)
  | Send c k => Send c (λ r, try_catch (k r) h)
  | All ts k => All ts (λ r, try_catch (k r) h)
  end.

(** What an [await] does with the value awaited. *)
Definition settled (r : Cdp.Reply) : Task :=
  match r with
  | Cdp.Fulfilled => Done
  | Cdp.Rejected e => Throw e
  end.

(** [await this.#cdpClient.sendCommand(c)] *)
Definition sendCommand (c : Cdp.Command) : Task := Send c settled.

(** [await Promise.all(ts)] *)
Definition awaitAll (ts : list Task) : Task := All ts settled.

(** *** The event loop *)

Record World := {
  state : TargetState;
  nextId : nat;
  log : list Event;
  detached : list Proc
}.

Definition set_state (s : TargetState) (w : World) : World :=
  {| state := s; nextId := nextId w; log := log w; detached := detached w |}.

Definition record (e : Event) (w : World) : World :=
  {| state := state w; nextId := nextId w; log := log w ++ [e];
     detached := detached w |}.

Definition issue (c : Cdp.Command) (w : World) : World :=
  {| state := state w; nextId := S (nextId w);
     log := log w ++ [Issued (nextId w) c]; detached := detached w |}.

Definition hasEnded (p : Proc) : bool :=
  match p with Ended => true | _ => false end.

Definition failure (p : Proc) : option Cdp.CdpError :=
  match p with Failed e => Some e | _ => None end.

Definition isSettled (p : Proc) : bool :=
  match p with Ended | Failed _ => true | _ => false end.

(** How [Promise.all] settles: rejected as soon as one of its promises is,
fulfilled when all are. *)
Definition settle (ps : list Proc) : option Cdp.Reply :=
  match list_find (λ p, is_Some (failure p)) ps with
  | Some (_, Failed e) => Some (Cdp.Rejected e)
  | _ => if forallb hasEnded ps then Some Cdp.Fulfilled else None
  end.

(** The promises that go on after their [Promise.all] was rejected. *)
Definition orphan (ps : list Proc) (w : World) : World :=
  {| state := state w; nextId := nextId w; log := log w;
     detached := detached w ++ filter (λ p, isSettled p = false) ps |}.

(** Run a task up to its next [await] of a reply. *)
Fixpoint start (t : Task) (w : World) : Proc * World :=
  match t with
  | Done => (Ended, w)
  | Throw e => (Failed e, w)
  | Get k => start (k (state w)) w
  | Put s k => start k (set_state s w)
  | Resolve r k => start k (record (Resolved r) w)
  | Defer k => start k (record ToggleDeferred w)
  | Send c k => (Awaiting (nextId w) k, issue c w)
  | All ts k =>
      let '(ps, w') :=
        (fix start_each (ts : list Task) (w : World) : list Proc * World :=
           match ts with
           | [] => ([], w)
           | t :: ts =>
               let '(p, w1) := start t w in
               let '(ps, w2) := start_each ts w1 in
               (p :: ps, w2)
           end) ts w in
      match settle ps with
      | Some r => start (k r) (orphan ps w')
      | None => (AwaitingAll ps k, w')
      end
  end.

Fixpoint start_each (ts : list Task) (w : World) : list Proc * World :=
  match ts with
  | [] => ([], w)
  | t :: ts =>
      let '(p, w1) := start t w in
      let '(ps, w2) := start_each ts w1 in
      (p :: ps, w2)
  end.

(** The reply [r] to command [id] arrives. *)
Fixpoint deliver (id : nat) (r : Cdp.Reply) (p : Proc) (w : World)
    : Proc * World :=
  match p with
  | Awaiting id' k =>
      if decide (id' = id) then start (k r) (record (Replied id r) w)
      else (p, w)
  | AwaitingAll ps k =>
      let '(ps', w') :=
        (fix deliver_each (ps : list Proc) (w : World) : list Proc * World :=
           match ps with
           | [] => ([], w)
           | p :: ps =>
               let '(p', w1) := deliver id r p w in
               let '(ps', w2) := deliver_each ps w1 in
               (p' :: ps', w2)
           end) ps w in
      match settle ps' with
      | Some res => start (k res) (orphan ps' w')
      | None => (AwaitingAll ps' k, w')
      end
  | _ => (p, w)
  end.

Definition deliver_each (id : nat) (r : Cdp.Reply)
    : list Proc → World → list Proc * World :=
  fix deliver_each (ps : list Proc) (w : World) : list Proc * World :=
    match ps with
    | [] => ([], w)
    | p :: ps =>
        let '(p', w1) := deliver id r p w in
        let '(ps', w2) := deliver_each ps w1 in
        (p' :: ps', w2)
    end.

(** The method under study and the rest of the world. *)
Record Machine := {
  main : Proc;
  world : World
}.

Definition boot (t : Task) (s : TargetState) : Machine :=
  let '(p, w) :=
    start t {| state := s; nextId := 0; log := []; detached := [] |} in
  {| main := p; world := w |}.

(** One turn of the loop: the reply reaches the method, then the promises
detached before this turn. *)
Definition step (m : Machine) (reply : nat * Cdp.Reply) : Machine :=
  let w := world m in
  let '(p, w1) :=
    deliver reply.1 reply.2 (main m)
      {| state := state w; nextId := nextId w; log := log w; detached := [] |} in
  let '(bg, w2) := deliver_each reply.1 reply.2 (detached w) w1 in
  {| main := p;
     world := {| state := state w2; nextId := nextId w2; log := log w2;
                 detached := bg ++ detached w2 |} |}.

Definition run (m : Machine) (replies : list (nat * Cdp.Reply)) : Machine :=
  foldl step m replies.

Lemma start_All ts k w :
  start (All ts k) w =
    let '(ps, w') := start_each ts w in
    match settle ps with
    | Some r => start (k r) (orphan ps w')
    | None => (AwaitingAll ps k, w')
    end.
Proof. reflexivity. Qed.

Lemma deliver_AwaitingAll id r ps k w :
  deliver id r (AwaitingAll ps k) w =
    let '(ps', w') := deliver_each id r ps w in
    match settle ps' with
    | Some res => start (k res) (orphan ps' w')
    | None => (AwaitingAll ps' k, w')
    end.
Proof. reflexivity. Qed.

(** *** The log only grows *)

Definition extends (w w' : World) : Prop := ∃ new, log w' = log w ++ new.

Lemma extends_refl w : extends w w.
Proof. exists []. by rewrite app_nil_r. Qed.

Lemma extends_trans w1 w2 w3 : extends w1 w2 → extends w2 w3 → extends w1 w3.
Proof.
  intros [n1 H1] [n2 H2]. exists (n1 ++ n2). by rewrite H2, H1, app_assoc.
Qed.

Lemma start_each_extends ts w :
  Forall (λ t, ∀ w, extends w (start t w).2) ts → extends w (start_each ts w).2.
Proof.
  intros Hts. revert w. induction Hts as [|t ts Ht _ IH]; intros w; simpl.
  - apply extends_refl.
  - specialize (Ht w). destruct (start t w) as [p w1].
    specialize (IH w1). destruct (start_each ts w1) as [ps w2].
    by eapply extends_trans.
Qed.

Lemma start_extends t w : extends w (start t w).2.
Proof.
  revert w. induction t as [|e|k IH|s k IH|x k IH|k IH|c k IH|ts k IHts IHk]
    using Task_nested_ind; intros w; simpl; try apply extends_refl.
  - apply IH.
  - apply (IH (set_state s w)).
  - eapply extends_trans; [|apply IH]. by eexists.
  - eapply extends_trans; [|apply IH]. by eexists.
  - by eexists.
  - change (extends w (start (All ts k) w).2). rewrite start_All.
    pose proof (start_each_extends ts w IHts) as Hts.
    destruct (start_each ts w) as [ps w'].
    destruct (settle ps); [|done].
    eapply extends_trans; [exact Hts|]. apply (IHk _ (orphan ps w')).
Qed.

Lemma deliver_each_extends id r ps w :
  Forall (λ p, ∀ w, extends w (deliver id r p w).2) ps →
  extends w (deliver_each id r ps w).2.
Proof.
  intros Hps. revert w. induction Hps as [|p ps Hp _ IH]; intros w; simpl.
  - apply extends_refl.
  - specialize (Hp w). destruct (deliver id r p w) as [p' w1].
    specialize (IH w1). destruct (deliver_each id r ps w1) as [ps' w2].
    by eapply extends_trans.
Qed.

Lemma deliver_extends id r p w : extends w (deliver id r p w).2.
Proof.
  revert w. induction p as [|e|id' k|ps k IHps]
    using Proc_nested_ind; intros w; simpl; try apply extends_refl.
  - destruct (decide (id' = id)); [|apply extends_refl].
    eapply extends_trans; [|apply start_extends]. by eexists.
  - change (extends w (deliver id r (AwaitingAll ps k) w).2).
    rewrite deliver_AwaitingAll.
    pose proof (deliver_each_extends id r ps w IHps) as Hps.
    destruct (deliver_each id r ps w) as [ps' w'].
    destruct (settle ps'); [|done].
    eapply extends_trans; [exact Hps|]. apply (start_extends _ (orphan ps' w')).
Qed.

Lemma step_extends m reply : extends (world m) (world (step m reply)).
Proof.
  unfold step.
  pose proof (deliver_extends reply.1 reply.2 (main m)
    {| state := state (world m); nextId := nextId (world m);
       log := log (world m); detached := [] |}) as H1.
  destruct (deliver _ _ (main m) _) as [p w1].
  pose proof (deliver_each_extends reply.1 reply.2 (detached (world m)) w1) as H2.
  destruct (deliver_each _ _ (detached (world m)) w1) as [bg w2].
  destruct H1 as [n1 H1], H2 as [n2 H2].
  - apply Forall_forall. intros t _ w. apply deliver_extends.
  - exists (n1 ++ n2). simpl in *. by rewrite H2, H1, app_assoc.
Qed.

Lemma run_extends m replies : extends (world m) (world (run m replies)).
Proof.
  revert m. induction replies as [|reply replies IH]; intros m; simpl.
  - apply extends_refl.
  - eapply extends_trans; [apply step_extends|apply IH].
Qed.

(** *** Facts on [start_each] and [settle] *)

Lemma start_each_app l1 l2 w :
  start_each (l1 ++ l2) w =
    let '(a, w1) := start_each l1 w in
    let '(b, w2) := start_each l2 w1 in
    (a ++ b, w2).
Proof.
  revert w. induction l1 as [|t l1 IH]; intros w; simpl.
  - by destruct (start_each l2 w).
  - destruct (start t w) as [p w1]. rewrite IH.
    destruct (start_each l1 w1) as [a w2].
    by destruct (start_each l2 w2).
Qed.

Lemma settle_None ps :
  Forall (λ p, failure p = None) ps →
  Exists (λ p, hasEnded p = false) ps →
  settle ps = None.
Proof.
  intros Hfail Hpending. unfold settle.
  assert (list_find (λ p, is_Some (failure p)) ps = None) as ->.
  { apply list_find_None. eapply Forall_impl; [exact Hfail|].
    intros p -> [? ?]. done. }
  assert (forallb hasEnded ps = false) as ->; [|done].
  apply not_true_is_false. intros Hall.
  apply Exists_exists in Hpending as (p & Hin & Hp).
  rewrite forallb_forall in Hall. apply list_elem_of_In in Hin.
  specialize (Hall p Hin). congruence.
Qed.

(** *** Tasks that do not resolve the deferred

[SafeTask P t]: [t] never calls [resolve], and throws only errors in [P] as
long as the replies it gets are fulfilled or rejected with an error in [P]. *)

Definition allowed (P : Cdp.CdpError → Prop) (r : Cdp.Reply) : Prop :=
  match r with
  | Cdp.Fulfilled => True
  | Cdp.Rejected e => P e
  end.

Definition isResolved (e : Event) : option Result :=
  match e with
  | Resolved r => Some r
  | _ => None
  end.

Fixpoint SafeTask (P : Cdp.CdpError → Prop) (t : Task) : Prop :=
  match t with
  | Done => True
  | Throw e => P e
  | Get k => ∀ s, SafeTask P (k s)
  | Put _ k => SafeTask P k
  | Resolve _ _ => False
  | Defer k => SafeTask P k
  | Send _ k => ∀ r, allowed P r → SafeTask P (k r)
  | All ts k =>
      (fix each (ts : list Task) : Prop :=
         match ts with
         | [] => True
         | t :: ts => SafeTask P t ∧ each ts
         end) ts
      ∧ ∀ r, allowed P r → SafeTask P (k r)
  end.

Fixpoint SafeProc (P : Cdp.CdpError → Prop) (p : Proc) : Prop :=
  match p with
  | Ended => True
  | Failed e => P e
  | Awaiting _ k => ∀ r, allowed P r → SafeTask P (k r)
  | AwaitingAll ps k =>
      (fix each (ps : list Proc) : Prop :=
         match ps with
         | [] => True
         | p :: ps => SafeProc P p ∧ each ps
         end) ps
      ∧ ∀ r, allowed P r → SafeTask P (k r)
  end.

Lemma SafeTask_All P ts k :
  SafeTask P (All ts k) ↔
    Forall (SafeTask P) ts ∧ ∀ r, allowed P r → SafeTask P (k r).
Proof.
  simpl. apply and_iff_compat_r.
  induction ts as [|t ts IH]; [by rewrite Forall_nil|].
  by rewrite Forall_cons, IH.
Qed.

Lemma SafeProc_AwaitingAll P ps k :
  SafeProc P (AwaitingAll ps k) ↔
    Forall (SafeProc P) ps ∧ ∀ r, allowed P r → SafeTask P (k r).
Proof.
  simpl. apply and_iff_compat_r.
  induction ps as [|p ps IH]; [by rewrite Forall_nil|].
  by rewrite Forall_cons, IH.
Qed.

(** The calls of [resolve] in a log. *)
Definition resolutions (l : list Event) : list Result := omap isResolved l.

Lemma resolutions_app l1 l2 :
  resolutions (l1 ++ l2) = resolutions l1 ++ resolutions l2.
Proof. apply omap_app. Qed.

(** Nothing was resolved, and the detached promises stay safe. *)
Definition Quiet (P : Cdp.CdpError → Prop) (w w' : World) : Prop :=
  (Forall (SafeProc P) (detached w) → Forall (SafeProc P) (detached w'))
  ∧ resolutions (log w') = resolutions (log w).

Lemma Quiet_refl P w : Quiet P w w.
Proof. by split. Qed.

Lemma Quiet_trans P w1 w2 w3 : Quiet P w1 w2 → Quiet P w2 w3 → Quiet P w1 w3.
Proof. intros [H1 E1] [H2 E2]. split; [auto|congruence]. Qed.

Lemma Quiet_orphan P ps w : Forall (SafeProc P) ps → Quiet P w (orphan ps w).
Proof.
  intros Hps. split; [|done]. simpl. intros Hw.
  apply Forall_app. split; [done|].
  apply Forall_forall. intros p [_ Hin]%list_elem_of_filter.
  by eapply Forall_forall in Hps.
Qed.

Lemma settle_allowed P ps r :
  Forall (SafeProc P) ps → settle ps = Some r → allowed P r.
Proof.
  intros Hps. unfold settle.
  destruct (list_find _ ps) as [[i p]|] eqn:Hfind.
  - apply list_find_Some in Hfind as (Hi & _ & _).
    apply list_elem_of_lookup_2 in Hi. eapply Forall_forall in Hps; [|done].
    destruct p; try (destruct (forallb hasEnded ps)); by intros [= <-].
  - destruct (forallb hasEnded ps); by intros [= <-].
Qed.

Lemma start_each_safe P ts :
  Forall (λ t, SafeTask P t →
               ∀ w, SafeProc P (start t w).1 ∧ Quiet P w (start t w).2) ts →
  Forall (SafeTask P) ts →
  ∀ w, Forall (SafeProc P) (start_each ts w).1
       ∧ Quiet P w (start_each ts w).2.
Proof.
  intros IHts Hts. induction IHts as [|t ts Ht _ IH]; intros w; simpl.
  - split; [done|apply Quiet_refl].
  - apply Forall_cons in Hts as [Hsafe Hts].
    destruct (Ht Hsafe w) as [Hp Hq]. destruct (start t w) as [p w1].
    destruct (IH Hts w1) as [Hps Hq']. destruct (start_each ts w1) as [ps w2].
    split; [by apply Forall_cons|by eapply Quiet_trans].
Qed.

Lemma start_safe P t :
  SafeTask P t → ∀ w, SafeProc P (start t w).1 ∧ Quiet P w (start t w).2.
Proof.
  induction t as [|e|k IH|s k IH|x k IH|k IH|c k IH|ts k IHts IHk]
    using Task_nested_ind; intros Hsafe w.
  - split; [done|apply Quiet_refl].
  - split; [done|apply Quiet_refl].
  - apply (IH _ (Hsafe _)).
  - destruct (IH Hsafe (set_state s w)) as [Hp Hq]. by split.
  - done.
  - destruct (IH Hsafe (record ToggleDeferred w)) as [Hp [Hd Hr]].
    split; [done|]. split; [done|]. cbn [start]. rewrite Hr. simpl.
    rewrite resolutions_app. apply app_nil_r.
  - split; [done|]. split; [done|]. simpl.
    rewrite resolutions_app. apply app_nil_r.
  - apply SafeTask_All in Hsafe as [Hts Hk]. rewrite start_All.
    destruct (start_each_safe P ts IHts Hts w) as [Hps Hq].
    destruct (start_each ts w) as [ps w'].
    destruct (settle ps) as [r|] eqn:Hsettle.
    + destruct (IHk r (Hk r (settle_allowed _ _ _ Hps Hsettle)) (orphan ps w'))
        as [Hp Hq'].
      split; [done|].
      eapply Quiet_trans; [exact Hq|].
      eapply Quiet_trans; [by apply Quiet_orphan|done].
    + split; [|done]. apply SafeProc_AwaitingAll. by split.
Qed.

Lemma deliver_each_safe P id r ps :
  Forall (λ p, SafeProc P p →
               ∀ w, SafeProc P (deliver id r p w).1
                    ∧ Quiet P w (deliver id r p w).2) ps →
  Forall (SafeProc P) ps →
  ∀ w, Forall (SafeProc P) (deliver_each id r ps w).1
       ∧ Quiet P w (deliver_each id r ps w).2.
Proof.
  intros IHps Hps. induction IHps as [|p ps Hp _ IH]; intros w; simpl.
  - split; [done|apply Quiet_refl].
  - apply Forall_cons in Hps as [Hsafe Hps].
    destruct (Hp Hsafe w) as [Hp' Hq]. destruct (deliver id r p w) as [p' w1].
    destruct (IH Hps w1) as [Hps' Hq'].
    destruct (deliver_each id r ps w1) as [ps' w2].
    split; [by apply Forall_cons|by eapply Quiet_trans].
Qed.

Lemma deliver_safe P id r p :
  allowed P r → SafeProc P p →
  ∀ w, SafeProc P (deliver id r p w).1 ∧ Quiet P w (deliver id r p w).2.
Proof.
  intros Hr. induction p as [|e|id' k|ps k IHps] using Proc_nested_ind;
    intros Hsafe w.
  - split; [done|apply Quiet_refl].
  - split; [done|apply Quiet_refl].
  - simpl. destruct (decide (id' = id)); [|split; [done|apply Quiet_refl]].
    destruct (start_safe P (k r) (Hsafe r Hr) (record (Replied id r) w))
      as [Hp [Hd Hres]].
    split; [done|]. split; [done|]. rewrite Hres. simpl.
    rewrite resolutions_app. apply app_nil_r.
  - apply SafeProc_AwaitingAll in Hsafe as [Hps Hk].
    rewrite deliver_AwaitingAll.
    destruct (deliver_each_safe P id r ps IHps Hps w) as [Hps' Hq].
    destruct (deliver_each id r ps w) as [ps' w'].
    destruct (settle ps') as [res|] eqn:Hsettle.
    + destruct (start_safe P (k res)
                  (Hk res (settle_allowed _ _ _ Hps' Hsettle)) (orphan ps' w'))
        as [Hp Hq'].
      split; [done|].
      eapply Quiet_trans; [exact Hq|].
      eapply Quiet_trans; [by apply Quiet_orphan|done].
    + split; [|done]. apply SafeProc_AwaitingAll. by split.
Qed.

Lemma SafeTask_andThen P a b :
  SafeTask P a → SafeTask P b → SafeTask P (andThen a b).
Proof.
  intros Ha Hb. induction a as [|e|k IH|s k IH|x k IH|k IH|c k IH|ts k _ IHk]
    using Task_nested_ind; simpl in *; try done.
  - intros s. by apply IH.
  - by apply IH.
  - by apply IH.
  - intros r Hr. apply IH. by apply Ha.
  - destruct Ha as [Hts Hk]. split; [done|].
    intros r Hr. apply IHk. by apply Hk.
Qed.

Lemma SafeTask_try_catch P a h :
  SafeTask P a → (∀ e, P e → SafeTask P (h e)) → SafeTask P (try_catch a h).
Proof.
  intros Ha Hh. induction a as [|e|k IH|s k IH|x k IH|k IH|c k IH|ts k _ IHk]
    using Task_nested_ind; simpl in *; try done.
  - by apply Hh.
  - intros s. by apply IH.
  - by apply IH.
  - by apply IH.
  - intros r Hr. apply IH. by apply Ha.
  - destruct Ha as [Hts Hk]. split; [done|].
    intros r Hr. apply IHk. by apply Hk.
Qed.

Lemma SafeTask_sendCommand P c : SafeTask P (sendCommand c).
Proof. intros [|e]; simpl; done. Qed.

(** *** Commands sent and replies awaited

Every command sent leaves one suspended task, and every reply taken
resumes one: the tasks that wait are as many as the commands sent and not
yet answered. *)

Fixpoint waits (p : Proc) : nat :=
  match p with
  | Awaiting _ _ => 1
  | AwaitingAll ps _ =>
      (fix each (ps : list Proc) : nat :=
         match ps with
         | [] => 0
         | p :: ps => waits p + each ps
         end) ps
  | _ => 0
  end.

Definition waitsOf (ps : list Proc) : nat := sum_list_with waits ps.

Lemma waits_AwaitingAll ps k : waits (AwaitingAll ps k) = waitsOf ps.
Proof.
  simpl. unfold waitsOf. induction ps as [|p ps IH]; [done|].
  simpl. by rewrite IH.
Qed.

Lemma waitsOf_app ps1 ps2 : waitsOf (ps1 ++ ps2) = waitsOf ps1 + waitsOf ps2.
Proof. apply sum_list_with_app. Qed.

Lemma waitsOf_unsettled ps :
  waitsOf (filter (λ p, isSettled p = false) ps) = waitsOf ps.
Proof.
  unfold waitsOf. induction ps as [|p ps IH]; [done|].
  rewrite filter_cons. destruct (decide (isSettled p = false)) as [Hp|Hp].
  - simpl. by rewrite IH.
  - rewrite IH. simpl. by destruct p.
Qed.

Definition isIssued (e : Event) : bool :=
  match e with Issued _ _ => true | _ => false end.

Definition isReplied (e : Event) : bool :=
  match e with Replied _ _ => true | _ => false end.

(** The number of commands sent, and of replies taken, in a log. *)
Definition issued (l : list Event) : nat :=
  length (filter (λ e, isIssued e = true) l).

Definition replied (l : list Event) : nat :=
  length (filter (λ e, isReplied e = true) l).

Lemma issued_app l1 l2 : issued (l1 ++ l2) = issued l1 + issued l2.
Proof. unfold issued. by rewrite filter_app, length_app. Qed.

Lemma replied_app l1 l2 : replied (l1 ++ l2) = replied l1 + replied l2.
Proof. unfold replied. by rewrite filter_app, length_app. Qed.

(** The tasks left waiting by a run from [w] to [w'] that ends with [n]
waiting in the task run. *)
Definition Balanced (before : nat) (w : World) (after : nat) (w' : World)
    : Prop :=
  after + waitsOf (detached w') + replied (log w') + issued (log w)
  = before + waitsOf (detached w) + replied (log w) + issued (log w').

Lemma start_each_balanced ts :
  Forall (λ t, ∀ w, Balanced 0 w (waits (start t w).1) (start t w).2) ts →
  ∀ w, Balanced 0 w (waitsOf (start_each ts w).1) (start_each ts w).2.
Proof.
  intros IHts. induction IHts as [|t ts Ht _ IH]; intros w; simpl.
  - done.
  - specialize (Ht w). destruct (start t w) as [p w1].
    specialize (IH w1). destruct (start_each ts w1) as [ps w2].
    unfold Balanced, waitsOf in *. simpl in *. lia.
Qed.

Lemma start_balanced t w : Balanced 0 w (waits (start t w).1) (start t w).2.
Proof.
  revert w. induction t as [|e|k IH|s k IH|x k IH|k IH|c k IH|ts k IHts IHk]
    using Task_nested_ind; intros w; cbn [start].
  - done.
  - done.
  - apply IH.
  - apply (IH (set_state s w)).
  - specialize (IH (record (Resolved x) w)). unfold Balanced in *.
    simpl in *. rewrite issued_app, replied_app in IH.
    unfold issued, replied in *. simpl in *. lia.
  - specialize (IH (record ToggleDeferred w)). unfold Balanced in *.
    simpl in *. rewrite issued_app, replied_app in IH.
    unfold issued, replied in *. simpl in *. lia.
  - unfold Balanced. simpl. rewrite issued_app, replied_app.
    unfold issued, replied. simpl. lia.
  - change (Balanced 0 w (waits (start (All ts k) w).1) (start (All ts k) w).2).
    rewrite start_All.
    pose proof (start_each_balanced ts IHts w) as Hts.
    destruct (start_each ts w) as [ps w'].
    destruct (settle ps) as [r|].
    + specialize (IHk r (orphan ps w')). unfold Balanced in *. simpl in *.
      rewrite waitsOf_app, waitsOf_unsettled in IHk. lia.
    + simpl (_.1). simpl (_.2). rewrite waits_AwaitingAll. done.
Qed.

Lemma deliver_each_balanced id r ps :
  Forall (λ p, ∀ w, Balanced (waits p) w (waits (deliver id r p w).1)
                      (deliver id r p w).2) ps →
  ∀ w, Balanced (waitsOf ps) w (waitsOf (deliver_each id r ps w).1)
         (deliver_each id r ps w).2.
Proof.
  intros IHps. induction IHps as [|p ps Hp _ IH]; intros w; simpl.
  - done.
  - specialize (Hp w). destruct (deliver id r p w) as [p' w1].
    specialize (IH w1). destruct (deliver_each id r ps w1) as [ps' w2].
    unfold Balanced, waitsOf in *. simpl in *. lia.
Qed.

Lemma deliver_balanced id r p w :
  Balanced (waits p) w (waits (deliver id r p w).1) (deliver id r p w).2.
Proof.
  revert w. induction p as [|e|id' k|ps k IHps] using Proc_nested_ind;
    intros w; try done.
  - cbn [deliver]. destruct (decide (id' = id)); [|done].
    pose proof (start_balanced (k r) (record (Replied id r) w)) as H.
    unfold Balanced in *. simpl in *.
    rewrite issued_app, replied_app in H.
    unfold issued, replied in *. simpl in *. lia.
  - rewrite deliver_AwaitingAll.
    pose proof (deliver_each_balanced id r ps IHps w) as Hps.
    destruct (deliver_each id r ps w) as [ps' w'].
    rewrite waits_AwaitingAll.
    destruct (settle ps') as [res|].
    + pose proof (start_balanced (k res) (orphan ps' w')) as H.
      unfold Balanced in *. simpl in *.
      rewrite waitsOf_app, waitsOf_unsettled in H. lia.
    + simpl (_.1). simpl (_.2). rewrite waits_AwaitingAll. done.
Qed.

(** A suspended task whose [Promise.all]s are all unsettled. *)
Fixpoint Proper (p : Proc) : Prop :=
  match p with
  | AwaitingAll ps _ =>
      settle ps = None
      ∧ (fix each (ps : list Proc) : Prop :=
           match ps with
           | [] => True
           | p :: ps => Proper p ∧ each ps
           end) ps
  | _ => True
  end.

Lemma Proper_AwaitingAll ps k :
  Proper (AwaitingAll ps k) ↔ settle ps = None ∧ Forall Proper ps.
Proof.
  simpl. apply and_iff_compat_l.
  induction ps as [|p ps IH]; [by rewrite Forall_nil|].
  by rewrite Forall_cons, IH.
Qed.

Lemma start_each_proper ts w :
  Forall (λ t, ∀ w, Proper (start t w).1) ts →
  Forall Proper (start_each ts w).1.
Proof.
  intros IHts. revert w. induction IHts as [|t ts Ht _ IH]; intros w; simpl.
  - done.
  - specialize (Ht w). destruct (start t w) as [p w1].
    specialize (IH w1). destruct (start_each ts w1) as [ps w2].
    by apply Forall_cons.
Qed.

Lemma start_proper t w : Proper (start t w).1.
Proof.
  revert w. induction t as [|e|k IH|s k IH|x k IH|k IH|c k IH|ts k IHts IHk]
    using Task_nested_ind; intros w; cbn [start]; try done.
  change (Proper (start (All ts k) w).1). rewrite start_All.
  pose proof (start_each_proper ts w IHts) as Hts.
  destruct (start_each ts w) as [ps w'].
  destruct (settle ps) as [r|] eqn:Hsettle.
  - apply IHk.
  - by apply Proper_AwaitingAll.
Qed.

Lemma deliver_each_proper id r ps w :
  Forall (λ p, Proper p → ∀ w, Proper (deliver id r p w).1) ps →
  Forall Proper ps →
  Forall Proper (deliver_each id r ps w).1.
Proof.
  intros IHps Hps. revert w.
  induction IHps as [|p ps Hp _ IH]; intros w; simpl.
  - done.
  - apply Forall_cons in Hps as [Hproper Hps].
    specialize (Hp Hproper w). destruct (deliver id r p w) as [p' w1].
    specialize (IH Hps w1). destruct (deliver_each id r ps w1) as [ps' w2].
    by apply Forall_cons.
Qed.

Lemma deliver_proper id r p :
  Proper p → ∀ w, Proper (deliver id r p w).1.
Proof.
  induction p as [|e|id' k|ps k IHps] using Proc_nested_ind;
    intros Hp w; try done.
  - cbn [deliver]. destruct (decide (id' = id)); [|done]. apply start_proper.
  - apply Proper_AwaitingAll in Hp as [_ Hps]. rewrite deliver_AwaitingAll.
    pose proof (deliver_each_proper id r ps w IHps Hps) as Hps'.
    destruct (deliver_each id r ps w) as [ps' w'].
    destruct (settle ps') as [res|] eqn:Hsettle.
    + apply start_proper.
    + by apply Proper_AwaitingAll.
Qed.

Lemma settle_None_unsettled ps :
  settle ps = None → ∃ p, p ∈ ps ∧ isSettled p = false.
Proof.
  unfold settle. destruct (list_find _ ps) as [[i p]|] eqn:Hfind.
  - apply list_find_Some in Hfind as (_ & [e He] & _).
    destruct p; by try discriminate.
  - apply list_find_None in Hfind.
    destruct (forallb hasEnded ps) eqn:Hall; [done|]. intros _.
    assert (∃ p, p ∈ ps ∧ hasEnded p = false) as (p & Hin & Hp).
    { clear Hfind. induction ps as [|p ps IH]; [done|]. simpl in Hall.
      apply andb_false_iff in Hall as [Hp|Hps].
      - exists p. split; [apply list_elem_of_here|done].
      - destruct (IH Hps) as (q & Hin & Hq). exists q.
        split; [by apply list_elem_of_further|done]. }
    exists p. split; [done|].
    eapply Forall_forall in Hfind; [|done].
    destruct p; try done. exfalso. apply Hfind. by eexists.
Qed.

Lemma proper_waits p : Proper p → isSettled p = false → 0 < waits p.
Proof.
  induction p as [|e|id' k|ps k IHps] using Proc_nested_ind;
    intros Hp Hunsettled; try done.
  - simpl. lia.
  - apply Proper_AwaitingAll in Hp as [Hsettle Hps].
    rewrite waits_AwaitingAll.
    destruct (settle_None_unsettled ps Hsettle) as (p & Hin & Hp).
    eapply Forall_forall in IHps; [|done].
    eapply Forall_forall in Hps; [|done].
    specialize (IHps Hps Hp).
    apply list_elem_of_split in Hin as (l1 & l2 & ->).
    rewrite waitsOf_app. unfold waitsOf at 2. simpl. lia.
Qed.

(** *** What every execution keeps *)

(** The tasks that wait are as many as the commands not yet answered. *)
Definition Counted (m : Machine) : Prop :=
  waits (main m) + waitsOf (detached (world m)) + replied (log (world m))
  = issued (log (world m)).

Lemma boot_counted t s : Counted (boot t s).
Proof.
  unfold boot, Counted.
  pose proof (start_balanced t
    {| state := s; nextId := 0; log := []; detached := [] |}) as H.
  destruct (start t _) as [p w]. unfold Balanced in H. simpl in *.
  unfold issued, replied, waitsOf in *. simpl in *. lia.
Qed.

Lemma step_counted m reply : Counted m → Counted (step m reply).
Proof.
  unfold Counted, step. intros Hm.
  pose proof (deliver_balanced reply.1 reply.2 (main m)
    {| state := state (world m); nextId := nextId (world m);
       log := log (world m); detached := [] |}) as H1.
  destruct (deliver _ _ (main m) _) as [p w1].
  pose proof (deliver_each_balanced reply.1 reply.2 (detached (world m))) as H2.
  specialize (H2 (proj2 (Forall_forall _ _)
                    (λ p _ w, deliver_balanced reply.1 reply.2 p w)) w1).
  destruct (deliver_each _ _ (detached (world m)) w1) as [bg w2].
  unfold Balanced in *. simpl in *. rewrite waitsOf_app. lia.
Qed.

Lemma run_counted m replies : Counted m → Counted (run m replies).
Proof.
  revert m. induction replies as [|reply replies IH]; intros m Hm; [done|].
  simpl. by apply IH, step_counted.
Qed.

Lemma step_proper m reply : Proper (main m) → Proper (main (step m reply)).
Proof.
  intros Hm. unfold step.
  pose proof (deliver_proper reply.1 reply.2 (main m) Hm
    {| state := state (world m); nextId := nextId (world m);
       log := log (world m); detached := [] |}) as H1.
  destruct (deliver _ _ (main m) _) as [p w1].
  by destruct (deliver_each _ _ (detached (world m)) w1) as [bg w2].
Qed.

Lemma run_proper t s replies : Proper (main (run (boot t s) replies)).
Proof.
  assert (Proper (main (boot t s))) as Hboot.
  { unfold boot.
    pose proof (start_proper t
      {| state := s; nextId := 0; log := []; detached := [] |}) as H.
    by destruct (start t _). }
  revert Hboot. generalize (boot t s). intros m.
  revert m. induction replies as [|reply replies IH]; intros m Hm; [done|].
  simpl. by apply IH, step_proper.
Qed.

(** *** The methods *)

Definition set_networkDomainEnabled (b : bool) (s : TargetState) : TargetState :=
  {| networkDomainEnabled := b; fetchDomainStages := fetchDomainStages s |}.

Definition set_fetchDomainStages (v : FetchStages) (s : TargetState)
    : TargetState :=
  {| networkDomainEnabled := networkDomainEnabled s; fetchDomainStages := v |}.

(** [this.#f = v] *)
Definition assign (f : TargetState → TargetState) : Task :=
  Get (λ s, Put (f s) Done).

Definition patternsOf (stages : FetchStages) : list Cdp.RequestPattern :=
  (if request stages || auth stages
   then [ {| Cdp.urlPattern := "*"; Cdp.requestStage := Cdp.Request |} ]
   else [])
  ++
  (if response stages
   then [ {| Cdp.urlPattern := "*"; Cdp.requestStage := Cdp.Response |} ]
   else []).

Section CdpTarget.

(** [this.#cdpClient.isCloseError] *)
Variable isCloseError : Cdp.CdpError → bool.

(** [this.#acceptInsecureCerts] *)
Variable acceptInsecureCerts : bool.

(** [this.#networkStorage.getInterceptionStages(this.topLevelId)] *)
Variable interceptionStages : FetchStages.

(** [this.isSubscribedTo(BiDiModule.Network)] *)
Variable subscribedToNetwork : bool.

(** How many requests of this target have an [interceptPhase]. *)
Variable blockedRequests : nat.

(** The scripts that [this.#preloadScriptStorage.find({targetId:
this.topLevelId, global: true})] returns. *)
Variable preloadScripts : list string.

(** [#toggleNetwork(enable)] *)
Definition private_toggleNetwork (enable : bool) : Task :=
  andThen (assign (set_networkDomainEnabled enable))
    (try_catch
       (sendCommand (if enable then Cdp.Network_enable else Cdp.Network_disable))
       (λ _, assign (set_networkDomainEnabled (negb enable)))).

(** [#enableFetch(stages)] *)
Definition enableFetch (stages : FetchStages) : Task :=
  let patterns := patternsOf stages in
  Get (λ s,
    if networkDomainEnabled s && negb (bool_decide (length patterns = 0)) then
      let oldStages := fetchDomainStages s in
      andThen (assign (set_fetchDomainStages stages))
        (try_catch
           (sendCommand (Cdp.Fetch_enable patterns (auth stages)))
           (λ _, assign (set_fetchDomainStages oldStages)))
    else Done).

(** [#disableFetch(network)]; with blocked requests the rest is left to a
detached continuation, which runs when they have moved on. *)
Definition disableFetch (network : bool) : Task :=
  if bool_decide (blockedRequests = 0) then
    andThen (assign (set_fetchDomainStages noStages))
      (sendCommand Cdp.Fetch_disable)
  else Defer Done.

Definition when (b : bool) (t : Task) : Task := if b then t else Done.

(** [toggleNetwork()] *)
Definition toggleNetwork : Task :=
  Get (λ s,
    let stages := interceptionStages in
    let fetchEnable := request stages || response stages || auth stages in
    let fetchChanged :=
      negb (bool_decide (request (fetchDomainStages s) = request stages))
      || negb (bool_decide (response (fetchDomainStages s) = response stages))
      || negb (bool_decide (auth (fetchDomainStages s) = auth stages)) in
    let networkEnable := subscribedToNetwork in
    let networkChanged :=
      negb (bool_decide (networkDomainEnabled s = networkEnable)) in
    andThen (when (networkEnable && networkChanged) (private_toggleNetwork true))
   (andThen (when (fetchEnable && fetchChanged) (enableFetch stages))
   (andThen (when (negb fetchEnable && fetchChanged)
           (disableFetch (negb networkEnable && networkChanged)))
        (when (negb networkEnable && networkChanged
               && negb fetchEnable && negb fetchChanged)
           (private_toggleNetwork false))))).

(** Modelled from the spec: [script.initInTarget(this, true)], which
installs the script in the target with one CDP command and waits for the
CDP id that the reply assigns. *)
Definition initInTarget (script : string) : Task :=
  sendCommand (Cdp.Page_addScriptToEvaluateOnNewDocument script).

(** [#initAndEvaluatePreloadScripts()] *)
Definition initAndEvaluatePreloadScripts : Task :=
  awaitAll (initInTarget <$> preloadScripts).

(** The array given to [Promise.all] in [#unblock]. *)
Definition unblockSteps : list Task :=
  [ sendCommand Cdp.Runtime_enable;
    sendCommand Cdp.Page_enable;
    sendCommand (Cdp.Page_setLifecycleEventsEnabled true);
    sendCommand (Cdp.Security_setIgnoreCertificateErrors acceptInsecureCerts);
    toggleNetwork;
    sendCommand (Cdp.Target_setAutoAttach true true true);
    initAndEvaluatePreloadScripts;
    sendCommand Cdp.Runtime_runIfWaitingForDebugger ].

(** What [#unblock] does once the batch has settled. *)
Definition resolveUnblocked (r : Cdp.Reply) : Task :=
  match r with
  | Cdp.Rejected e =>
      if negb (isCloseError e) then Resolve (Error e) Done
      else Resolve Success Done
  | Cdp.Fulfilled => Resolve Success Done
  end.

(** [#unblock()] *)
Definition unblock : Task := All unblockSteps resolveUnblocked.

(** *** What [#unblock] sends before it first awaits *)

Lemma start_each_scripts scripts w :
  start_each (initInTarget <$> scripts) w =
    (imap (λ i _, Awaiting (nextId w + i) settled) scripts,
     {| state := state w; nextId := nextId w + length scripts;
        log := log w ++
          imap (λ i script,
                  Issued (nextId w + i)
                    (Cdp.Page_addScriptToEvaluateOnNewDocument script)) scripts;
        detached := detached w |}).
Proof.
  revert w. induction scripts as [|script scripts IH]; intros w.
  - simpl. rewrite Nat.add_0_r, app_nil_r. by destruct w.
  - rewrite fmap_cons. cbn [start_each]. simpl (start _ _). cbv beta iota.
    rewrite IH. simpl. f_equal.
    + rewrite Nat.add_0_r. f_equal. apply imap_ext. intros i x _. simpl.
      f_equal. lia.
    + f_equal; [lia|]. rewrite <- app_assoc. simpl. rewrite Nat.add_0_r.
      do 2 f_equal. apply imap_ext. intros i x _. simpl. f_equal. lia.
Qed.

Lemma start_initAndEvaluatePreloadScripts w :
  ∃ p,
    start initAndEvaluatePreloadScripts w =
      (p,
       {| state := state w; nextId := nextId w + length preloadScripts;
          log := log w ++
            imap (λ i script,
                    Issued (nextId w + i)
                      (Cdp.Page_addScriptToEvaluateOnNewDocument script))
              preloadScripts;
          detached := detached w |})
    ∧ failure p = None.
Proof.
  unfold initAndEvaluatePreloadScripts, awaitAll. rewrite start_All.
  rewrite start_each_scripts.
  destruct preloadScripts as [|script scripts].
  - exists Ended. split; [|done]. simpl. unfold orphan. simpl.
    by rewrite filter_nil, !app_nil_r.
  - rewrite settle_None.
    + by eexists.
    + apply Forall_forall. intros t [i [x [-> _]]]%elem_of_lookup_imap.
      done.
    + apply Exists_cons_hd. done.
Qed.

(** The commands of the synchronous part of [#unblock], in the order in
which they are sent, numbered from 0. *)
Definition unblockBatch : list Cdp.Command :=
  [ Cdp.Runtime_enable;
    Cdp.Page_enable;
    Cdp.Page_setLifecycleEventsEnabled true;
    Cdp.Security_setIgnoreCertificateErrors acceptInsecureCerts ]
  ++ (if subscribedToNetwork then [Cdp.Network_enable] else [])
  ++ [ Cdp.Target_setAutoAttach true true true ]
  ++ (Cdp.Page_addScriptToEvaluateOnNewDocument <$> preloadScripts)
  ++ [ Cdp.Runtime_runIfWaitingForDebugger ].

(** C1, as amended.  [#unblock] sends all its commands of the first round in
one synchronous batch, [Runtime.runIfWaitingForDebugger] last: when it is
sent, [Runtime.enable], [Page.enable], [Page.setLifecycleEventsEnabled],
[Security.setIgnoreCertificateErrors], [Network.enable] (when subscribed),
[Target.setAutoAttach] and the installation of every preload script have
been sent, in this order, and none of them has been answered.  The method
then waits for the batch; whatever replies arrive, the log of the execution
starts with this batch. *)
Theorem unblock_issues_one_batch :
  let m := boot unblock created in
  log (world m) = imap Issued unblockBatch
  ∧ (∃ ps, main m = AwaitingAll ps resolveUnblocked)
  ∧ ∀ replies, ∃ rest,
      log (world (run m replies)) = imap Issued unblockBatch ++ rest.
Proof.
  assert (let m := boot unblock created in
          log (world m) = imap Issued unblockBatch
          ∧ ∃ ps, main m = AwaitingAll ps resolveUnblocked) as [Hlog Hmain].
  { unfold boot, unblock. rewrite start_All.
    change unblockSteps with
      ([ sendCommand Cdp.Runtime_enable;
         sendCommand Cdp.Page_enable;
         sendCommand (Cdp.Page_setLifecycleEventsEnabled true);
         sendCommand
           (Cdp.Security_setIgnoreCertificateErrors acceptInsecureCerts);
         toggleNetwork;
         sendCommand (Cdp.Target_setAutoAttach true true true) ]
       ++ [ initAndEvaluatePreloadScripts;
            sendCommand Cdp.Runtime_runIfWaitingForDebugger ]).
    rewrite start_each_app. unfold unblockBatch, toggleNetwork.
    destruct subscribedToNetwork;
      destruct interceptionStages as [[] [] []];
      match goal with
      | |- context [start_each ?l ?w ] =>
          let p := fresh "p" in
          let Hp := fresh "Hp" in
          destruct (start_each l w) as [ts1 w1] eqn:Hp;
          vm_compute in Hp; injection Hp as <- <-
      end;
      cbn [start_each];
      match goal with
      | |- context [start initAndEvaluatePreloadScripts ?w ] =>
          destruct (start_initAndEvaluatePreloadScripts w) as (t' & -> & Ht')
      end;
      simpl (start (sendCommand _) _); cbv beta iota;
      (rewrite settle_None;
       [ simpl; split; [|by eexists];
         rewrite !imap_app, !imap_cons; simpl;
         rewrite imap_fmap, length_fmap, Nat.add_0_r; reflexivity
       | repeat (apply Forall_cons; split; [done|]); by apply Forall_nil
       | apply Exists_cons_hd; done ]). }
  split_and!; [done|done|].
  intros replies.
  destruct (run_extends (boot unblock created) replies) as [rest Hrest].
  exists rest. by rewrite Hrest, Hlog.
Qed.

(** *** How [#unblock] resolves *)

(** What the deferred is resolved with, given how the batch settled. *)
Definition verdict (r : Cdp.Reply) : Result :=
  match r with
  | Cdp.Fulfilled => Success
  | Cdp.Rejected e => if isCloseError e then Success else Error e
  end.

Lemma resolveUnblocked_verdict r : resolveUnblocked r = Resolve (verdict r) Done.
Proof. destruct r as [|e]; simpl; [done|]. by destruct (isCloseError e). Qed.

Lemma SafeTask_assign P f : SafeTask P (assign f).
Proof. by intros s. Qed.

Lemma SafeTask_caught P c f :
  SafeTask P (try_catch (sendCommand c) (λ _, assign f)).
Proof. intros [|e] Hr; simpl; [done|]. by intros s. Qed.

Lemma SafeTask_private_toggleNetwork P enable :
  SafeTask P (private_toggleNetwork enable).
Proof.
  unfold private_toggleNetwork.
  apply SafeTask_andThen; [apply SafeTask_assign|apply SafeTask_caught].
Qed.

Lemma SafeTask_enableFetch P stages : SafeTask P (enableFetch stages).
Proof.
  unfold enableFetch. intros s. destruct (_ && _); [|done].
  apply SafeTask_andThen; [apply SafeTask_assign|apply SafeTask_caught].
Qed.

Lemma SafeTask_disableFetch P network : SafeTask P (disableFetch network).
Proof.
  unfold disableFetch. destruct (bool_decide _); [|done].
  apply SafeTask_andThen; [apply SafeTask_assign|apply SafeTask_sendCommand].
Qed.

Lemma SafeTask_when P b t : SafeTask P t → SafeTask P (when b t).
Proof. by destruct b. Qed.

Lemma SafeTask_toggleNetwork P : SafeTask P toggleNetwork.
Proof.
  unfold toggleNetwork. intros s.
  repeat apply SafeTask_andThen; apply SafeTask_when;
    auto using SafeTask_private_toggleNetwork, SafeTask_enableFetch,
      SafeTask_disableFetch.
Qed.

Lemma SafeTask_initAndEvaluatePreloadScripts P :
  SafeTask P initAndEvaluatePreloadScripts.
Proof.
  unfold initAndEvaluatePreloadScripts, awaitAll. apply SafeTask_All. split.
  - apply Forall_fmap, Forall_forall. intros script _.
    apply SafeTask_sendCommand.
  - by intros [|e].
Qed.

Lemma SafeTask_unblockSteps P : Forall (SafeTask P) unblockSteps.
Proof.
  unfold unblockSteps.
  repeat (apply Forall_cons; split);
    auto using SafeTask_sendCommand, SafeTask_toggleNetwork,
      SafeTask_initAndEvaluatePreloadScripts.
Qed.

(** The deferred is unresolved and [#unblock] waits for its batch, or it
was resolved once, by the verdict on how the batch settled, and [#unblock]
has returned. *)
Definition Unresolved (P : Cdp.CdpError → Prop) (m : Machine) : Prop :=
  ∃ ps, main m = AwaitingAll ps resolveUnblocked
        ∧ Forall (SafeProc P) ps
        ∧ resolutions (log (world m)) = [].

Definition ResolvedOnce (P : Cdp.CdpError → Prop) (m : Machine) : Prop :=
  main m = Ended
  ∧ ∃ r, allowed P r ∧ resolutions (log (world m)) = [verdict r].

Definition Good (P : Cdp.CdpError → Prop) (m : Machine) : Prop :=
  (Unresolved P m ∨ ResolvedOnce P m)
  ∧ Forall (SafeProc P) (detached (world m)).

Lemma batch_good P ps w :
  Forall (SafeProc P) ps →
  Forall (SafeProc P) (detached w) →
  resolutions (log w) = [] →
  let after :=
    match settle ps with
    | Some res => start (resolveUnblocked res) (orphan ps w)
    | None => (AwaitingAll ps resolveUnblocked, w)
    end in
  Good P {| main := after.1; world := after.2 |}.
Proof.
  intros Hps Hw Hlog. destruct (settle ps) as [res|] eqn:Hsettle; simpl.
  - rewrite resolveUnblocked_verdict. simpl. split.
    + right. split; [done|]. exists res.
      split; [exact (settle_allowed P ps res Hps Hsettle)|].
      simpl. rewrite resolutions_app, Hlog. done.
    + simpl. by apply (Quiet_orphan P ps w).
  - split; [|done]. left. by exists ps.
Qed.

Lemma boot_good P s : Good P (boot unblock s).
Proof.
  unfold boot, unblock. rewrite start_All.
  set (w0 := {| state := s; nextId := 0; log := []; detached := [] |}).
  destruct (start_each_safe P unblockSteps) with (w := w0) as [Hps [Hd Hr]].
  { apply Forall_forall. intros t _. apply start_safe. }
  { apply SafeTask_unblockSteps. }
  destruct (start_each unblockSteps w0) as [ps w].
  pose proof (batch_good P ps w Hps (Hd (Forall_nil_2 _)) Hr) as H.
  destruct (settle ps) as [res|]; simpl in H; [|done].
  by destruct (start (resolveUnblocked res) (orphan ps w)).
Qed.

Lemma step_good P m reply :
  allowed P reply.2 → Good P m → Good P (step m reply).
Proof.
  intros Hr [Hmain Hbg]. unfold step.
  set (w0 := {| state := state (world m); nextId := nextId (world m);
                log := log (world m); detached := [] |}).
  assert (Good P {| main := (deliver reply.1 reply.2 (main m) w0).1;
                    world := (deliver reply.1 reply.2 (main m) w0).2 |})
    as Hdelivered.
  { destruct Hmain as [(ps & Hps & Hsafe & Hlog)|(Hended & res & Hres & Hlog)].
    - rewrite Hps, deliver_AwaitingAll.
      destruct (deliver_each_safe P reply.1 reply.2 ps) with (w := w0)
        as [Hps' [Hd Hq]]; [|done|].
      { apply Forall_forall. intros p _. by apply deliver_safe. }
      destruct (deliver_each reply.1 reply.2 ps w0) as [ps' w'].
      pose proof (batch_good P ps' w' Hps' (Hd (Forall_nil_2 _))) as H.
      simpl in Hq. rewrite Hq in H. specialize (H Hlog).
      by destruct (settle ps').
    - rewrite Hended. simpl. split; [|done]. right. split; [done|].
      by exists res. }
  destruct (deliver reply.1 reply.2 (main m) w0) as [p w1].
  destruct Hdelivered as [Hp Hw1]. simpl in Hp, Hw1.
  destruct (deliver_each_safe P reply.1 reply.2 (detached (world m)))
    with (w := w1) as [Hbg' [Hd Hq]]; [|done|].
  { apply Forall_forall. intros q _. by apply deliver_safe. }
  destruct (deliver_each reply.1 reply.2 (detached (world m)) w1) as [bg w2].
  simpl in *. split.
  - destruct Hp as [(ps & Hps & Hsafe & Hlog)|(Hended & res & Hres & Hlog)].
    + left. exists ps. simpl in *. split_and!; [done|done|congruence].
    + right. split; [done|]. exists res. simpl in *. split; [done|congruence].
  - simpl. apply Forall_app. auto.
Qed.

Lemma run_good P m replies :
  Forall (λ reply, allowed P reply.2) replies → Good P m →
  Good P (run m replies).
Proof.
  intros Hreplies. revert m.
  induction Hreplies as [|reply replies Hr _ IH]; intros m Hm; [done|].
  simpl. by apply IH, step_good.
Qed.

Lemma settle_ended ps :
  Forall (λ p, p = Ended) ps → settle ps = Some Cdp.Fulfilled.
Proof.
  intros Hall. unfold settle.
  assert (list_find (λ p, is_Some (failure p)) ps = None) as ->.
  { apply list_find_None. eapply Forall_impl; [exact Hall|].
    intros p -> [? ?]. done. }
  assert (forallb hasEnded ps = true) as ->; [|done].
  apply forallb_forall. intros p Hin%list_elem_of_In.
  eapply Forall_forall in Hall; [|exact Hin]. by subst.
Qed.

(** *** The deferred in terms of the replies *)

(** The reply that the command sent under [id] gets: the first one that
arrives under that id. *)
Fixpoint answer (replies : list (nat * Cdp.Reply)) (id : nat)
    : option Cdp.Reply :=
  match replies with
  | [] => None
  | reply :: replies =>
      if decide (reply.1 = id) then Some reply.2 else answer replies id
  end.

(** The commands of the batch whose rejection fails a step of [#unblock]:
all but [Network.enable], command 4 of a subscribed target, which
[#toggleNetwork] sends under its own handler. *)
Definition decisive (id : nat) : bool :=
  bool_decide (id < length unblockBatch)
  && negb (subscribedToNetwork && bool_decide (id = 4)).

(** Where [toggleNetwork] stands on a new target: it waits for the reply to
[Network.enable], command 4, when the target is subscribed; after a
fulfilled reply, with an interception stage on, it sends [Fetch.enable],
which gets the first id after the batch, and waits for any reply to it. *)
Inductive NetworkPhase :=
| AwaitsNetworkEnable
| AwaitsFetchEnable
| NetworkToggled.

Definition networkHears (phase : NetworkPhase) (reply : nat * Cdp.Reply)
    : NetworkPhase :=
  match phase with
  | AwaitsNetworkEnable =>
      if decide (reply.1 = 4) then
        match reply.2 with
        | Cdp.Fulfilled =>
            if request interceptionStages || response interceptionStages
               || auth interceptionStages
            then AwaitsFetchEnable else NetworkToggled
        | Cdp.Rejected _ => NetworkToggled
        end
      else AwaitsNetworkEnable
  | AwaitsFetchEnable =>
      if decide (reply.1 = length unblockBatch) then NetworkToggled
      else AwaitsFetchEnable
  | NetworkToggled => NetworkToggled
  end.

Definition networkPhase (replies : list (nat * Cdp.Reply)) : NetworkPhase :=
  foldl networkHears
    (if subscribedToNetwork then AwaitsNetworkEnable else NetworkToggled)
    replies.

(** Every step of the batch has ended: each deciding command has its reply
and [toggleNetwork] has returned. *)
Definition complete (replies : list (nat * Cdp.Reply)) : Prop :=
  (∀ id, decisive id = true → is_Some (answer replies id))
  ∧ networkPhase replies = NetworkToggled.

(** No deciding command has been rejected. *)
Definition unrejected (replies : list (nat * Cdp.Reply)) : Prop :=
  ∀ id e, decisive id = true → answer replies id ≠ Some (Cdp.Rejected e).

Lemma answer_snoc replies reply id :
  answer (replies ++ [reply]) id =
    match answer replies id with
    | Some r => Some r
    | None => if decide (reply.1 = id) then Some reply.2 else None
    end.
Proof.
  induction replies as [|x replies IH]; simpl; [done|].
  by destruct (decide (x.1 = id)).
Qed.

Lemma answer_app_Some replies more id r :
  answer replies id = Some r → answer (replies ++ more) id = Some r.
Proof.
  induction replies as [|x replies IH]; simpl; [done|].
  by destruct (decide (x.1 = id)).
Qed.

Lemma answer_app_None replies more id :
  answer replies id = None → answer (replies ++ more) id = answer more id.
Proof.
  induction replies as [|x replies IH]; simpl; [done|].
  by destruct (decide (x.1 = id)).
Qed.

Lemma answer_None replies id : answer replies id = None ↔ id ∉ replies.*1.
Proof.
  induction replies as [|x replies IH]; simpl.
  - split; [intros _; apply not_elem_of_nil|done].
  - rewrite not_elem_of_cons. destruct (decide (x.1 = id)) as [<-|Hne].
    + split; [done|]. by intros [? _].
    + rewrite IH. split; [by split|by intros [_ ?]].
Qed.

Lemma networkPhase_snoc replies reply :
  networkPhase (replies ++ [reply]) = networkHears (networkPhase replies) reply.
Proof. unfold networkPhase. by rewrite foldl_app. Qed.

Lemma networkPhase_subscribed replies :
  networkPhase replies ≠ NetworkToggled → subscribedToNetwork = true.
Proof.
  induction replies as [|reply replies IH] using rev_ind.
  - unfold networkPhase. simpl. by destruct subscribedToNetwork.
  - rewrite networkPhase_snoc. intros H. apply IH. intros Hphase.
    rewrite Hphase in H. done.
Qed.

Lemma networkPhase_fetch replies :
  networkPhase replies = AwaitsFetchEnable →
  request interceptionStages || response interceptionStages
  || auth interceptionStages = true.
Proof.
  induction replies as [|reply replies IH] using rev_ind.
  - unfold networkPhase. simpl. by destruct subscribedToNetwork.
  - rewrite networkPhase_snoc.
    destruct (networkPhase replies); simpl.
    + destruct (decide (reply.1 = 4)); [|done].
      destruct reply.2; [|done].
      by destruct (_ || _ || _).
    + intros _. by apply IH.
    + done.
Qed.

Lemma networkPhase_toggled replies more :
  networkPhase replies = NetworkToggled →
  networkPhase (replies ++ more) = NetworkToggled.
Proof.
  unfold networkPhase. rewrite foldl_app. intros ->.
  induction more as [|reply more IH]; [done|]. apply IH.
Qed.

(** *** The promises of the batch in terms of the replies *)

(** The promise of a command sent with a plain [sendCommand]. *)
Definition cmd (replies : list (nat * Cdp.Reply)) (id : nat) : Proc :=
  match answer replies id with
  | None => Awaiting id settled
  | Some Cdp.Fulfilled => Ended
  | Some (Cdp.Rejected e) => Failed e
  end.

(** The id of [Target.setAutoAttach]; the preload scripts come next, and
[Runtime.runIfWaitingForDebugger] last. *)
Definition autoAttachId : nat := if subscribedToNetwork then 5 else 4.

Definition scriptIds : list nat :=
  seq (S autoAttachId) (length preloadScripts).

Definition lastId : nat := S autoAttachId + length preloadScripts.

Definition scriptProcs (replies : list (nat * Cdp.Reply)) : list Proc :=
  cmd replies <$> scriptIds.

Definition scriptsProc (replies : list (nat * Cdp.Reply)) : Proc :=
  match settle (scriptProcs replies) with
  | Some Cdp.Fulfilled => Ended
  | Some (Cdp.Rejected e) => Failed e
  | None => AwaitingAll (scriptProcs replies) settled
  end.

(** [toggleNetwork] as it waits for [Network.enable], and as it waits for
[Fetch.enable]. *)
Definition toggling : Proc :=
  (start toggleNetwork
     {| state := created; nextId := 4; log := []; detached := [] |}).1.

Definition enabling : Proc :=
  (deliver 4 Cdp.Fulfilled toggling
     {| state := {| networkDomainEnabled := true;
                    fetchDomainStages := noStages |};
        nextId := length unblockBatch; log := []; detached := [] |}).1.

Definition networkProc (replies : list (nat * Cdp.Reply)) : Proc :=
  match networkPhase replies with
  | AwaitsNetworkEnable => toggling
  | AwaitsFetchEnable => enabling
  | NetworkToggled => Ended
  end.

Definition procs (replies : list (nat * Cdp.Reply)) : list Proc :=
  [ cmd replies 0; cmd replies 1; cmd replies 2; cmd replies 3;
    networkProc replies; cmd replies autoAttachId; scriptsProc replies;
    cmd replies lastId ].

Lemma length_unblockBatch : length unblockBatch = S lastId.
Proof.
  unfold unblockBatch, lastId, autoAttachId.
  rewrite !length_app, length_fmap. destruct subscribedToNetwork; simpl; lia.
Qed.

(** A delivery that leaves the world as it is, up to the reply noted in the
log. *)
Definition Same (w w' : World) : Prop :=
  state w' = state w ∧ nextId w' = nextId w ∧ detached w' = detached w
  ∧ resolutions (log w') = resolutions (log w).

Lemma Same_refl w : Same w w.
Proof. done. Qed.

Lemma Same_trans w1 w2 w3 : Same w1 w2 → Same w2 w3 → Same w1 w3.
Proof. intros (?&?&?&?) (?&?&?&?). split_and!; congruence. Qed.

Lemma Same_record id r w : Same w (record (Replied id r) w).
Proof.
  split_and!; try done. simpl. rewrite resolutions_app. apply app_nil_r.
Qed.

Lemma deliver_each_cons id r p ps w :
  deliver_each id r (p :: ps) w =
    let '(p', w1) := deliver id r p w in
    let '(ps', w2) := deliver_each id r ps w1 in
    (p' :: ps', w2).
Proof. reflexivity. Qed.

Lemma deliver_cmd replies j reply w :
  ∃ w', deliver reply.1 reply.2 (cmd replies j) w
        = (cmd (replies ++ [reply]) j, w')
        ∧ Same w w'.
Proof.
  unfold cmd. rewrite answer_snoc.
  destruct (answer replies j) as [[|e]|]; simpl.
  - by exists w.
  - by exists w.
  - destruct (decide (j = reply.1)) as [->|Hne].
    + rewrite decide_True by done.
      exists (record (Replied reply.1 reply.2) w).
      split; [|apply Same_record]. by destruct reply.2.
    + rewrite decide_False by done. by exists w.
Qed.

Lemma deliver_each_cmds replies ids reply w :
  ∃ w', deliver_each reply.1 reply.2 (cmd replies <$> ids) w
        = (cmd (replies ++ [reply]) <$> ids, w')
        ∧ Same w w'.
Proof.
  revert w. induction ids as [|j ids IH]; intros w.
  - by exists w.
  - rewrite !fmap_cons, deliver_each_cons.
    destruct (deliver_cmd replies j reply w) as (w1 & -> & H1).
    destruct (IH w1) as (w2 & -> & H2).
    exists w2. split; [done|]. by eapply Same_trans.
Qed.

Lemma settle_None_unfailed ps :
  settle ps = None → Forall (λ p, failure p = None) ps.
Proof.
  unfold settle. destruct (list_find _ ps) as [[i p]|] eqn:Hfind.
  - apply list_find_Some in Hfind as (_ & [e He] & _).
    destruct p; by try discriminate.
  - intros _. apply list_find_None in Hfind.
    eapply Forall_impl; [exact Hfind|]. intros p Hp.
    destruct (failure p) eqn:Hf; [|done]. destruct Hp. by eexists.
Qed.

Lemma settle_unfailed ps :
  Forall (λ p, failure p = None) ps →
  settle ps = if forallb hasEnded ps then Some Cdp.Fulfilled else None.
Proof.
  intros Hps. unfold settle.
  assert (list_find (λ p, is_Some (failure p)) ps = None) as ->; [|done].
  apply list_find_None. eapply Forall_impl; [exact Hps|].
  intros p -> [? ?]. done.
Qed.

Lemma settle_Fulfilled ps :
  settle ps = Some Cdp.Fulfilled → Forall (λ p, p = Ended) ps.
Proof.
  unfold settle. destruct (list_find _ ps) as [[i p]|] eqn:Hfind.
  - apply list_find_Some in Hfind as (_ & [e He] & _).
    destruct p; by try discriminate.
  - destruct (forallb hasEnded ps) eqn:Hall; [|done]. intros _.
    apply Forall_forall. intros p Hin%list_elem_of_In.
    rewrite forallb_forall in Hall. specialize (Hall p Hin). by destruct p.
Qed.

Lemma settle_Rejected ps e :
  settle ps = Some (Cdp.Rejected e) → Failed e ∈ ps.
Proof.
  unfold settle. destruct (list_find _ ps) as [[i p]|] eqn:Hfind.
  - apply list_find_Some in Hfind as (Hi & [e' He] & _).
    destruct p; try discriminate. intros [= <-].
    by eapply list_elem_of_lookup_2.
  - by destruct (forallb hasEnded ps).
Qed.

Lemma settle_only_failed ps e :
  Failed e ∈ ps → (∀ e', Failed e' ∈ ps → e' = e) →
  settle ps = Some (Cdp.Rejected e).
Proof.
  intros Hin Hone. destruct (settle ps) as [[|e']|] eqn:Hsettle.
  - apply settle_Fulfilled in Hsettle.
    eapply Forall_forall in Hsettle; [|exact Hin]. done.
  - apply settle_Rejected in Hsettle. by rewrite (Hone e' Hsettle).
  - apply settle_None_unfailed in Hsettle.
    eapply Forall_forall in Hsettle; [|exact Hin]. done.
Qed.

Lemma cmd_Ended replies j :
  cmd replies j = Ended ↔ answer replies j = Some Cdp.Fulfilled.
Proof. unfold cmd. by destruct (answer replies j) as [[|e]|]. Qed.

Lemma cmd_Failed replies j e :
  cmd replies j = Failed e ↔ answer replies j = Some (Cdp.Rejected e).
Proof.
  unfold cmd. destruct (answer replies j) as [[|e']|]; split; try done.
  - by intros [= ->].
  - by intros [= ->].
Qed.

Lemma cmd_Ended_app replies more j :
  cmd replies j = Ended → cmd (replies ++ more) j = Ended.
Proof. rewrite !cmd_Ended. apply answer_app_Some. Qed.

Lemma deliver_scriptsProc replies reply w :
  failure (scriptsProc replies) = None →
  ∃ w', deliver reply.1 reply.2 (scriptsProc replies) w
        = (scriptsProc (replies ++ [reply]), w')
        ∧ resolutions (log w') = resolutions (log w)
        ∧ (failure (scriptsProc (replies ++ [reply])) = None → Same w w').
Proof.
  unfold scriptsProc.
  destruct (settle (scriptProcs replies)) as [[|e]|] eqn:Hsettle; [|done|].
  - intros _. exists w.
    assert (settle (scriptProcs (replies ++ [reply])) = Some Cdp.Fulfilled)
      as ->; [|done].
    apply settle_ended. apply settle_Fulfilled in Hsettle.
    unfold scriptProcs in *. apply Forall_fmap, Forall_forall.
    intros j Hj. rewrite Forall_fmap, Forall_forall in Hsettle.
    apply cmd_Ended_app, Hsettle, Hj.
  - intros _. rewrite deliver_AwaitingAll. unfold scriptProcs.
    destruct (deliver_each_cmds replies scriptIds reply w)
      as (w' & -> & Hsame).
    fold (scriptProcs (replies ++ [reply])).
    destruct (settle (scriptProcs (replies ++ [reply]))) as [[|e]|]
      eqn:Hafter; simpl.
    + eexists. split; [done|]. destruct Hsame as (Hs & Hn & Hd & Hr).
      split; [done|]. intros _. split_and!; try done. simpl.
      apply settle_Fulfilled in Hafter.
      rewrite Hd. rewrite (NetworkStorage.filter_none); [apply app_nil_r|].
      intros p Hin. eapply Forall_forall in Hafter; [|exact Hin]. by subst.
    + eexists. split; [done|]. split; [apply Hsame|done].
    + exists w'. split; [done|]. split; [apply Hsame|done].
Qed.

Definition recorded : TargetState :=
  {| networkDomainEnabled := true; fetchDomainStages := noStages |}.

Lemma start_toggleNetwork_created (w : World) :
  state w = created → nextId w = 4 →
  start toggleNetwork w =
    if subscribedToNetwork then
      (toggling,
       {| state := recorded; nextId := 5;
          log := log w ++ [Issued 4 Cdp.Network_enable];
          detached := detached w |})
    else (Ended, w).
Proof.
  destruct w as [s n l d]. simpl. intros -> ->.
  unfold toggling, toggleNetwork.
  destruct subscribedToNetwork, interceptionStages as [[] [] []]; done.
Qed.

Lemma toggling_unsettled :
  subscribedToNetwork = true → isSettled toggling = false.
Proof.
  unfold toggling, toggleNetwork.
  destruct subscribedToNetwork, interceptionStages as [[] [] []]; done.
Qed.

Lemma deliver_toggling (id : nat) (r : Cdp.Reply) (w : World) :
  subscribedToNetwork = true →
  state w = recorded → nextId w = length unblockBatch →
  ∃ w',
    deliver id r toggling w =
      (if decide (id = 4) then
         match r with
         | Cdp.Fulfilled =>
             if request interceptionStages || response interceptionStages
                || auth interceptionStages
             then enabling else Ended
         | Cdp.Rejected _ => Ended
         end
       else toggling, w')
    ∧ detached w' = detached w
    ∧ resolutions (log w') = resolutions (log w)
    ∧ (id ≠ 4 → w' = w).
Proof.
  destruct w as [s n l d]. unfold enabling. simpl. intros Hsub -> <-.
  unfold toggling, toggleNetwork. destruct subscribedToNetwork; [|done].
  destruct (decide (id = 4)) as [->|Hne].
  - destruct interceptionStages as [[] [] []], r as [|e]; simpl;
      eexists; (split; [reflexivity|]); simpl;
      rewrite ?resolutions_app; simpl; rewrite ?app_nil_r; done.
  - destruct interceptionStages as [[] [] []]; simpl;
      rewrite decide_False by done; by eexists.
Qed.

Lemma enabling_unsettled :
  subscribedToNetwork = true →
  request interceptionStages || response interceptionStages
  || auth interceptionStages = true →
  isSettled enabling = false.
Proof.
  unfold enabling, toggling, toggleNetwork.
  destruct subscribedToNetwork, interceptionStages as [[] [] []]; done.
Qed.

Lemma deliver_enabling (id : nat) (r : Cdp.Reply) (w : World) :
  ∃ w',
    deliver id r enabling w =
      (if decide (id = length unblockBatch) then Ended else enabling, w')
    ∧ detached w' = detached w
    ∧ resolutions (log w') = resolutions (log w).
Proof.
  unfold enabling, toggling, toggleNetwork. generalize (length unblockBatch).
  intros n.
  destruct (decide (id = n)) as [->|Hne].
  - destruct subscribedToNetwork, interceptionStages as [[] [] []],
      r as [|e]; simpl; rewrite ?decide_True by done; simpl;
      eexists; (split; [reflexivity|]); simpl;
      rewrite ?resolutions_app; simpl; rewrite ?app_nil_r; done.
  - destruct subscribedToNetwork, interceptionStages as [[] [] []];
      simpl; rewrite ?decide_False by done; by eexists.
Qed.

Lemma deliver_networkProc replies reply w :
  (networkPhase replies = AwaitsNetworkEnable →
   state w = recorded ∧ nextId w = length unblockBatch) →
  ∃ w',
    deliver reply.1 reply.2 (networkProc replies) w
    = (networkProc (replies ++ [reply]), w')
    ∧ detached w' = detached w
    ∧ resolutions (log w') = resolutions (log w)
    ∧ (networkPhase (replies ++ [reply]) = AwaitsNetworkEnable → w' = w).
Proof.
  intros Hw. unfold networkProc. rewrite networkPhase_snoc.
  destruct (networkPhase replies) eqn:Hphase; simpl.
  - destruct Hw as [Hstate Hnext]; [done|].
    destruct (deliver_toggling reply.1 reply.2 w) as (w' & -> & Hd & Hr & Hw');
      [by apply (networkPhase_subscribed replies); rewrite Hphase|done|done|].
    exists w'. split_and!; [|done|done|].
    + f_equal. destruct (decide (reply.1 = 4)); [|done].
      destruct reply.2; [|done]. by destruct (_ || _ || _).
    + destruct (decide (reply.1 = 4)); [|auto].
      destruct reply.2; [|done]. by destruct (_ || _ || _).
  - destruct (deliver_enabling reply.1 reply.2 w) as (w' & -> & Hd & Hr).
    exists w'. split_and!; [|done|done|].
    + f_equal. by destruct (decide _).
    + by destruct (decide _).
  - by exists w.
Qed.

(** [#unblock] waits for its batch: its promises are the ones of the replies
taken so far, nothing is detached and nothing resolved. *)
Definition Waits (replies : list (nat * Cdp.Reply)) (m : Machine) : Prop :=
  main m = AwaitingAll (procs replies) resolveUnblocked
  ∧ settle (procs replies) = None
  ∧ detached (world m) = []
  ∧ resolutions (log (world m)) = []
  ∧ (networkPhase replies = AwaitsNetworkEnable →
     state (world m) = recorded ∧ nextId (world m) = length unblockBatch).

Lemma deliver_each_procs replies reply w :
  settle (procs replies) = None →
  (networkPhase replies = AwaitsNetworkEnable →
   state w = recorded ∧ nextId w = length unblockBatch) →
  ∃ w',
    deliver_each reply.1 reply.2 (procs replies) w
    = (procs (replies ++ [reply]), w')
    ∧ resolutions (log w') = resolutions (log w)
    ∧ (settle (procs (replies ++ [reply])) = None →
       detached w' = detached w
       ∧ (networkPhase (replies ++ [reply]) = AwaitsNetworkEnable →
          state w' = state w ∧ nextId w' = nextId w)).
Proof.
  intros Hsettle Hw.
  apply settle_None_unfailed in Hsettle. unfold procs in *.
  assert (failure (scriptsProc replies) = None) as Hscripts.
  { eapply Forall_forall in Hsettle; [exact Hsettle|].
    do 6 apply list_elem_of_further. apply list_elem_of_here. }
  rewrite deliver_each_cons.
  destruct (deliver_cmd replies 0 reply w) as (w1 & -> & S1).
  rewrite deliver_each_cons.
  destruct (deliver_cmd replies 1 reply w1) as (w2 & -> & S2).
  rewrite deliver_each_cons.
  destruct (deliver_cmd replies 2 reply w2) as (w3 & -> & S3).
  rewrite deliver_each_cons.
  destruct (deliver_cmd replies 3 reply w3) as (w4 & -> & S4).
  assert (Same w w4) as S04
    by (eapply Same_trans; [|exact S4]; eapply Same_trans; [|exact S3];
        eapply Same_trans; [exact S1|exact S2]).
  rewrite deliver_each_cons.
  destruct (deliver_networkProc replies reply w4) as (w5 & -> & D5 & R5 & E5).
  { intros Hphase. destruct (Hw Hphase) as [Hs Hn].
    destruct S04 as (Hs' & Hn' & _). split; congruence. }
  rewrite deliver_each_cons.
  destruct (deliver_cmd replies autoAttachId reply w5) as (w6 & -> & S6).
  rewrite deliver_each_cons.
  destruct (deliver_scriptsProc replies reply w6 Hscripts)
    as (w7 & -> & R7 & S7).
  rewrite deliver_each_cons.
  destruct (deliver_cmd replies lastId reply w7) as (w8 & -> & S8).
  exists w8. split; [done|].
  destruct S04 as (Hs4 & Hn4 & Hd4 & Hr4), S6 as (Hs6 & Hn6 & Hd6 & Hr6),
    S8 as (Hs8 & Hn8 & Hd8 & Hr8).
  split; [congruence|].
  intros Hafter. apply settle_None_unfailed in Hafter.
  assert (failure (scriptsProc (replies ++ [reply])) = None) as Hscripts'.
  { eapply Forall_forall in Hafter; [exact Hafter|].
    do 6 apply list_elem_of_further. apply list_elem_of_here. }
  destruct (S7 Hscripts') as (Hs7 & Hn7 & Hd7 & _).
  split; [congruence|].
  intros Hphase. specialize (E5 Hphase). subst w5. split; congruence.
Qed.

Lemma step_waits replies m reply :
  Waits replies m →
  match settle (procs (replies ++ [reply])) with
  | None => Waits (replies ++ [reply]) (step m reply)
  | Some res =>
      main (step m reply) = Ended
      ∧ resolutions (log (world (step m reply))) = [verdict res]
  end.
Proof.
  intros (Hmain & Hsettle & Hdetached & Hres & Hnetwork).
  unfold step. rewrite Hmain, deliver_AwaitingAll, Hdetached.
  destruct (deliver_each_procs replies reply
              {| state := state (world m); nextId := nextId (world m);
                 log := log (world m); detached := [] |} Hsettle Hnetwork)
    as (w' & -> & Hres' & Hafter).
  simpl in Hres', Hafter.
  destruct (settle (procs (replies ++ [reply]))) as [res|] eqn:Hsettle'.
  - rewrite resolveUnblocked_verdict. simpl. split; [done|].
    by rewrite resolutions_app, Hres', Hres.
  - destruct (Hafter eq_refl) as [Hd Hn]. unfold Waits. simpl.
    split_and!; [done|done|done|congruence|].
    intros Hphase. destruct (Hn Hphase) as [-> ->].
    apply Hnetwork. clear -Hphase. rewrite networkPhase_snoc in Hphase.
    destruct (networkPhase replies); simpl in Hphase; [done| |done].
    by destruct (decide _).
Qed.

(** *** How the batch settles, in terms of the replies *)

Ltac elem_solve :=
  repeat first [apply list_elem_of_here | apply list_elem_of_further].

Lemma decisive_ids id :
  decisive id = true ↔
    id ∈ [0; 1; 2; 3; autoAttachId; lastId] ∨ id ∈ scriptIds.
Proof.
  unfold decisive. rewrite length_unblockBatch.
  unfold scriptIds, lastId, autoAttachId.
  rewrite andb_true_iff, bool_decide_eq_true, negb_true_iff, elem_of_seq.
  rewrite !elem_of_cons, elem_of_nil.
  destruct subscribedToNetwork; simpl.
  - rewrite bool_decide_eq_false. lia.
  - split; [|lia]. intros [? _]. lia.
Qed.

Lemma failure_toggling : failure toggling = None.
Proof.
  unfold toggling, toggleNetwork.
  destruct subscribedToNetwork, interceptionStages as [[] [] []]; done.
Qed.

Lemma failure_enabling : failure enabling = None.
Proof.
  unfold enabling, toggling, toggleNetwork. generalize (length unblockBatch).
  intros n.
  destruct subscribedToNetwork, interceptionStages as [[] [] []]; done.
Qed.

Lemma failure_networkProc replies : failure (networkProc replies) = None.
Proof.
  unfold networkProc.
  destruct (networkPhase replies);
    auto using failure_toggling, failure_enabling.
Qed.

Lemma networkProc_Ended replies :
  hasEnded (networkProc replies) = true ↔ networkPhase replies = NetworkToggled.
Proof.
  unfold networkProc. destruct (networkPhase replies) eqn:Hphase.
  - pose proof (toggling_unsettled
                  (networkPhase_subscribed replies
                     ltac:(by rewrite Hphase))) as H.
    destruct toggling; by split.
  - pose proof (enabling_unsettled
                  (networkPhase_subscribed replies
                     ltac:(by rewrite Hphase))
                  (networkPhase_fetch replies Hphase)) as H.
    destruct enabling; by split.
  - done.
Qed.

Lemma scriptsProc_Failed replies e :
  scriptsProc replies = Failed e →
  ∃ j, j ∈ scriptIds ∧ answer replies j = Some (Cdp.Rejected e).
Proof.
  unfold scriptsProc.
  destruct (settle (scriptProcs replies)) as [[|e']|] eqn:Hsettle; try done.
  intros [= ->]. apply settle_Rejected in Hsettle.
  unfold scriptProcs in Hsettle.
  apply list_elem_of_fmap in Hsettle as (j & Hj & Hin).
  exists j. split; [done|]. by apply cmd_Failed.
Qed.

Lemma scriptsProc_Ended replies :
  hasEnded (scriptsProc replies) = true ↔
    ∀ j, j ∈ scriptIds → answer replies j = Some Cdp.Fulfilled.
Proof.
  unfold scriptsProc. split.
  - destruct (settle (scriptProcs replies)) as [[|e']|] eqn:Hsettle;
      try done.
    intros _ j Hj. apply settle_Fulfilled in Hsettle.
    unfold scriptProcs in Hsettle.
    rewrite Forall_fmap, Forall_forall in Hsettle.
    by apply cmd_Ended, Hsettle.
  - intros Hall. rewrite settle_ended; [done|].
    unfold scriptProcs. apply Forall_fmap, Forall_forall.
    intros j Hj. by apply cmd_Ended, Hall.
Qed.

Lemma procs_unfailed replies :
  unrejected replies → Forall (λ p, failure p = None) (procs replies).
Proof.
  intros Hun.
  assert (∀ j, decisive j = true → failure (cmd replies j) = None) as Hcmd.
  { intros j Hj. destruct (cmd replies j) eqn:Hc; try done.
    apply cmd_Failed in Hc. by destruct (Hun j e Hj). }
  unfold procs.
  repeat (apply Forall_cons; split); try (by apply Forall_nil);
    try (apply Hcmd, decisive_ids; left; elem_solve).
  - apply failure_networkProc.
  - destruct (scriptsProc replies) eqn:Hs; try done.
    apply scriptsProc_Failed in Hs as (j & Hj & Hanswer).
    destruct (Hun j e); [apply decisive_ids; by right|done].
Qed.

Lemma procs_ended replies :
  unrejected replies →
  forallb hasEnded (procs replies) = true ↔ complete replies.
Proof.
  intros Hun.
  assert (∀ j, decisive j = true →
            hasEnded (cmd replies j) = true ↔ is_Some (answer replies j))
    as Hcmd.
  { intros j Hj. unfold cmd.
    destruct (answer replies j) as [[|e]|] eqn:Hanswer; simpl.
    - split; [by eexists|done].
    - by destruct (Hun j e Hj).
    - split; [done|]. by intros [? ?]. }
  unfold procs, complete. simpl. rewrite !andb_true_iff.
  rewrite networkProc_Ended, scriptsProc_Ended.
  rewrite !Hcmd by (apply decisive_ids; left; elem_solve).
  split.
  - intros (H0 & H1 & H2 & H3 & Hnet & Ha & Hs & Hl & _). split; [|done].
    intros id Hid. apply decisive_ids in Hid as [Hid|Hid].
    + rewrite !elem_of_cons, elem_of_nil in Hid.
      destruct Hid as [->|[->|[->|[->|[->|[->|[]]]]]]]; done.
    + rewrite (Hs id Hid). by eexists.
  - intros [Hall Hnet].
    split_and!; try done; try (apply Hall, decisive_ids; left; elem_solve).
    intros j Hj.
    destruct (Hall j) as [[|e] Hanswer]; [apply decisive_ids; by right|done|].
    destruct (Hun j e); [apply decisive_ids; by right|done].
Qed.

Lemma settle_procs_complete replies :
  unrejected replies → complete replies →
  settle (procs replies) = Some Cdp.Fulfilled.
Proof.
  intros Hun Hcomplete. rewrite settle_unfailed by by apply procs_unfailed.
  by rewrite (proj2 (procs_ended replies Hun) Hcomplete).
Qed.

Lemma settle_procs_incomplete replies :
  unrejected replies → ¬ complete replies →
  settle (procs replies) = None.
Proof.
  intros Hun Hincomplete. rewrite settle_unfailed by by apply procs_unfailed.
  destruct (forallb hasEnded (procs replies)) eqn:Hall; [|done].
  destruct Hincomplete. by apply procs_ended.
Qed.

Lemma settle_procs_rejected before id e :
  unrejected before → decisive id = true → answer before id = None →
  settle (procs (before ++ [(id, Cdp.Rejected e)])) = Some (Cdp.Rejected e).
Proof.
  intros Hun Hid Hnone.
  set (replies := before ++ [(id, Cdp.Rejected e)]).
  assert (∀ j e', decisive j = true →
            answer replies j = Some (Cdp.Rejected e') → j = id ∧ e' = e)
    as Honly.
  { intros j e' Hj. unfold replies. rewrite answer_snoc.
    destruct (answer before j) as [r|] eqn:Hanswer.
    - intros [= ->]. by destruct (Hun j e' Hj).
    - simpl. destruct (decide (id = j)); [|done]. by intros [= ->]. }
  assert (answer replies id = Some (Cdp.Rejected e)) as Hanswer.
  { unfold replies. rewrite answer_snoc, Hnone. simpl.
    by rewrite decide_True. }
  apply settle_only_failed.
  - apply decisive_ids in Hid as [Hid|Hid].
    + apply cmd_Failed in Hanswer. rewrite <- Hanswer. unfold procs.
      rewrite !elem_of_cons, elem_of_nil in Hid.
      destruct Hid as [->|[->|[->|[->|[->|[->|[]]]]]]]; elem_solve.
    + assert (scriptsProc replies = Failed e) as <-;
        [|unfold procs; elem_solve].
      unfold scriptsProc. rewrite (settle_only_failed _ e); [done| |].
      * unfold scriptProcs. apply list_elem_of_fmap. exists id.
        split; [|done]. symmetry. by apply cmd_Failed.
      * unfold scriptProcs. intros e' (j & Hj & Hin)%list_elem_of_fmap.
        symmetry in Hj. apply cmd_Failed in Hj.
        apply (Honly j e'); [apply decisive_ids; by right|done].
  - intros e' Hin. unfold procs in Hin.
    rewrite !elem_of_cons, elem_of_nil in Hin.
    assert (∀ j, decisive j = true → Failed e' = cmd replies j → e' = e)
      as Hcmd.
    { intros j Hj Hc. symmetry in Hc. apply cmd_Failed in Hc.
      by apply (Honly j e'). }
    destruct Hin as [H|[H|[H|[H|[H|[H|[H|[H|[]]]]]]]]].
    + apply (Hcmd 0); [apply decisive_ids; left; elem_solve|done].
    + apply (Hcmd 1); [apply decisive_ids; left; elem_solve|done].
    + apply (Hcmd 2); [apply decisive_ids; left; elem_solve|done].
    + apply (Hcmd 3); [apply decisive_ids; left; elem_solve|done].
    + pose proof (failure_networkProc replies) as Hf.
      rewrite <- H in Hf. done.
    + apply (Hcmd autoAttachId); [apply decisive_ids; left; elem_solve|done].
    + symmetry in H. apply scriptsProc_Failed in H as (j & Hj & Hanswer').
      apply (Honly j e'); [apply decisive_ids; by right|done].
    + apply (Hcmd lastId); [apply decisive_ids; left; elem_solve|done].
Qed.

(** *** The execution in terms of the replies *)

Lemma unrejected_nil : unrejected [].
Proof. by intros id e _. Qed.

Lemma incomplete_nil : ¬ complete [].
Proof.
  intros [Hall _]. destruct (Hall 0) as [r Hr]; [|done].
  apply decisive_ids. left. elem_solve.
Qed.

Lemma imap_awaiting {A} (l : list A) (n : nat) :
  imap (λ i _, Awaiting (n + i) settled) l
  = cmd [] <$> seq n (length l).
Proof.
  revert n. induction l as [|x l IH]; intros n; [done|].
  simpl. rewrite Nat.add_0_r. f_equal. rewrite <- IH.
  apply imap_ext. intros i y _. simpl. f_equal. lia.
Qed.

Lemma resolutions_issued {A} (f : nat → A → Event) (l : list A) :
  (∀ i x, isResolved (f i x) = None) → resolutions (imap f l) = [].
Proof.
  intros Hf. revert f Hf. induction l as [|x l IH]; intros f Hf; [done|].
  simpl. unfold resolutions in *. simpl. rewrite Hf. apply IH.
  intros i y. apply Hf.
Qed.

Lemma start_scripts (w : World) :
  nextId w = S autoAttachId →
  ∃ w',
    start initAndEvaluatePreloadScripts w = (scriptsProc [], w')
    ∧ state w' = state w ∧ nextId w' = lastId
    ∧ detached w' = detached w
    ∧ resolutions (log w') = resolutions (log w).
Proof.
  intros Hnext.
  unfold initAndEvaluatePreloadScripts, awaitAll. rewrite start_All.
  rewrite start_each_scripts, Hnext, imap_awaiting.
  fold scriptIds. fold (scriptProcs []). unfold scriptsProc.
  destruct (settle (scriptProcs [])) as [[|e]|] eqn:Hsettle.
  - eexists. split; [reflexivity|]. simpl.
    split_and!; [done|done| |].
    + apply settle_Fulfilled in Hsettle.
      rewrite NetworkStorage.filter_none; [apply app_nil_r|].
      intros p Hin. eapply Forall_forall in Hsettle; [|exact Hin]. by subst.
    + rewrite resolutions_app, resolutions_issued by done. apply app_nil_r.
  - apply settle_Rejected in Hsettle. unfold scriptProcs in Hsettle.
    by apply list_elem_of_fmap in Hsettle as (j & Hj & _).
  - eexists. split; [reflexivity|]. simpl.
    split_and!; [done|done|done|].
    rewrite resolutions_app, resolutions_issued by done. apply app_nil_r.
Qed.

Lemma start_each_cons t ts w :
  start_each (t :: ts) w =
    let '(p, w1) := start t w in
    let '(ps, w2) := start_each ts w1 in
    (p :: ps, w2).
Proof. reflexivity. Qed.

Lemma start_sendCommand c w :
  start (sendCommand c) w = (Awaiting (nextId w) settled, issue c w).
Proof. reflexivity. Qed.

Lemma boot_waits : Waits [] (boot unblock created).
Proof.
  assert (settle (procs []) = None) as Hsettle
    by (apply settle_procs_incomplete;
        [apply unrejected_nil|apply incomplete_nil]).
  unfold boot, unblock. rewrite start_All. unfold unblockSteps.
  do 4 (rewrite start_each_cons, start_sendCommand; cbv beta iota zeta).
  rewrite start_each_cons, start_toggleNetwork_created by done.
  assert (∃ w5,
            (if subscribedToNetwork
             then
               (toggling,
                {| state := recorded; nextId := 5;
                   log :=
                     log (issue
                            (Cdp.Security_setIgnoreCertificateErrors
                               acceptInsecureCerts)
                            (issue (Cdp.Page_setLifecycleEventsEnabled true)
                               (issue Cdp.Page_enable
                                  (issue Cdp.Runtime_enable
                                     {| state := created; nextId := 0;
                                        log := []; detached := [] |}))))
                     ++ [Issued 4 Cdp.Network_enable];
                   detached :=
                     detached
                       (issue
                          (Cdp.Security_setIgnoreCertificateErrors
                             acceptInsecureCerts)
                          (issue (Cdp.Page_setLifecycleEventsEnabled true)
                             (issue Cdp.Page_enable
                                (issue Cdp.Runtime_enable
                                   {| state := created; nextId := 0;
                                      log := []; detached := [] |})))) |})
             else
               (Ended,
                issue
                  (Cdp.Security_setIgnoreCertificateErrors acceptInsecureCerts)
                  (issue (Cdp.Page_setLifecycleEventsEnabled true)
                     (issue Cdp.Page_enable
                        (issue Cdp.Runtime_enable
                           {| state := created; nextId := 0;
                              log := []; detached := [] |})))))
            = (networkProc [], w5)
            ∧ nextId w5 = autoAttachId ∧ detached w5 = []
            ∧ resolutions (log w5) = []
            ∧ (subscribedToNetwork = true → state w5 = recorded))
    as (w5 & -> & Hn5 & Hd5 & Hr5 & Hs5).
  { unfold networkProc, networkPhase, autoAttachId.
    destruct subscribedToNetwork; by eexists. }
  cbv beta iota zeta.
  rewrite start_each_cons, start_sendCommand. cbv beta iota zeta.
  rewrite start_each_cons.
  destruct (start_scripts (issue (Cdp.Target_setAutoAttach true true true) w5))
    as (w7 & -> & Hs7 & Hn7 & Hd7 & Hr7); [simpl; by rewrite Hn5|].
  cbv beta iota zeta.
  rewrite start_each_cons, start_sendCommand. cbv beta iota zeta.
  change (start_each [] ?w) with (@nil Proc, w). cbv beta iota zeta.
  rewrite Hn5, Hn7.
  change [ Awaiting (nextId {| state := created; nextId := 0; log := [];
                               detached := [] |}) settled;
           Awaiting (nextId (issue Cdp.Runtime_enable
                               {| state := created; nextId := 0; log := [];
                                  detached := [] |})) settled;
           Awaiting (nextId (issue Cdp.Page_enable
                               (issue Cdp.Runtime_enable
                                  {| state := created; nextId := 0; log := [];
                                     detached := [] |}))) settled;
           Awaiting (nextId (issue (Cdp.Page_setLifecycleEventsEnabled true)
                               (issue Cdp.Page_enable
                                  (issue Cdp.Runtime_enable
                                     {| state := created; nextId := 0;
                                        log := []; detached := [] |}))))
             settled;
           networkProc []; Awaiting autoAttachId settled;
           scriptsProc []; Awaiting lastId settled ]
    with (procs []).
  rewrite Hsettle. unfold Waits. simpl.
  split_and!; [done|done|by rewrite Hd7|..].
  - rewrite resolutions_app, Hr7. simpl.
    rewrite resolutions_app, Hr5. done.
  - intros Hphase. rewrite Hs7. simpl. split.
    + apply Hs5. apply (networkPhase_subscribed []). by rewrite Hphase.
    + rewrite Hn7. symmetry. apply length_unblockBatch.
Qed.

Lemma run_snoc_reply m replies reply :
  run m (replies ++ [reply]) = step (run m replies) reply.
Proof. unfold run. by rewrite foldl_app. Qed.

Lemma unrejected_prefix replies more :
  unrejected (replies ++ more) → unrejected replies.
Proof.
  intros Hun id e Hid Hanswer. apply (Hun id e Hid).
  by apply answer_app_Some.
Qed.

Lemma complete_app replies more :
  complete replies → complete (replies ++ more).
Proof.
  intros [Hall Hnet]. split; [|by apply networkPhase_toggled].
  intros id Hid. destruct (Hall id Hid) as [r Hr]. exists r.
  by apply answer_app_Some.
Qed.

Lemma run_waits replies :
  unrejected replies → ¬ complete replies →
  Waits replies (run (boot unblock created) replies).
Proof.
  induction replies as [|reply replies IH] using rev_ind;
    intros Hun Hincomplete.
  - apply boot_waits.
  - rewrite run_snoc_reply.
    pose proof (step_waits replies (run (boot unblock created) replies) reply)
      as Hstep.
    rewrite (settle_procs_incomplete _ Hun Hincomplete) in Hstep.
    apply Hstep, IH; [by eapply unrejected_prefix|].
    intros Hcomplete. by apply Hincomplete, complete_app.
Qed.

Lemma run_settles replies reply res :
  unrejected replies → ¬ complete replies →
  settle (procs (replies ++ [reply])) = Some res →
  main (run (boot unblock created) (replies ++ [reply])) = Ended
  ∧ resolutions (log (world (run (boot unblock created) (replies ++ [reply]))))
    = [verdict res].
Proof.
  intros Hun Hincomplete Hsettle. rewrite run_snoc_reply.
  pose proof (step_waits replies (run (boot unblock created) replies) reply
                (run_waits replies Hun Hincomplete)) as Hstep.
  by rewrite Hsettle in Hstep.
Qed.

(** Once [#unblock] has returned, nothing resolves the deferred again. *)
Lemma run_resolved replies more x :
  resolutions (log (world (run (boot unblock created) replies))) = [x] →
  resolutions (log (world (run (boot unblock created) (replies ++ more))))
  = [x].
Proof.
  set (P := λ _ : Cdp.CdpError, True).
  assert (∀ l : list (nat * Cdp.Reply), Forall (λ reply, allowed P reply.2) l)
    as Hallowed.
  { intros l. apply Forall_forall. by intros [id [|e]] _. }
  induction more as [|reply more IH] using rev_ind; intros Hx.
  - by rewrite app_nil_r.
  - specialize (IH Hx). rewrite app_assoc, run_snoc_reply.
    pose proof (run_good P (boot unblock created) (replies ++ more)
                  (Hallowed _) (boot_good P created)) as Hgood.
    set (m := run (boot unblock created) (replies ++ more)) in *.
    destruct Hgood as [[(ps & _ & _ & Hnone)|(Hended & _)] Hbg];
      [by rewrite IH in Hnone|].
    unfold step. rewrite Hended. simpl.
    destruct (deliver_each_safe P reply.1 reply.2 (detached (world m)))
      with (w := {| state := state (world m); nextId := nextId (world m);
                    log := log (world m); detached := [] |})
      as [_ [_ Hq]]; [|done|].
    { apply Forall_forall. intros q _. apply deliver_safe.
      by destruct reply as [id [|e]]. }
    destruct (deliver_each reply.1 reply.2 (detached (world m)) _)
      as [bg w2].
    simpl in *. by rewrite Hq.
Qed.

Lemma first_complete replies :
  unrejected replies → complete replies →
  ∃ before reply after,
    replies = before ++ reply :: after
    ∧ ¬ complete before ∧ complete (before ++ [reply]).
Proof.
  induction replies as [|reply replies IH] using rev_ind;
    intros Hun Hcomplete.
  - by destruct incomplete_nil.
  - pose proof (unrejected_prefix _ _ Hun) as Hun'.
    destruct (forallb hasEnded (procs replies)) eqn:Hended.
    + apply procs_ended in Hended; [|done].
      destruct (IH Hun' Hended) as (before & x & after & -> & Hb & Hx).
      exists before, x, (after ++ [reply]).
      split; [by rewrite <- app_assoc|done].
    + exists replies, reply, []. split; [done|]. split; [|done].
      intros Hearlier. apply procs_ended in Hearlier; [|done]. congruence.
Qed.

(** Either no deciding command is rejected, or there is a first one that
is. *)
Lemma first_rejected replies :
  unrejected replies
  ∨ ∃ before id e after,
      replies = before ++ (id, Cdp.Rejected e) :: after
      ∧ decisive id = true ∧ answer before id = None ∧ unrejected before.
Proof.
  induction replies as [|reply replies IH] using rev_ind.
  - left. apply unrejected_nil.
  - destruct IH as [Hun|(before & id & e & after & -> & Hid & Hnone & Hun)].
    + destruct reply as [id [|e]].
      * left. intros j e' Hj. rewrite answer_snoc.
        destruct (answer replies j) as [r|] eqn:Hanswer;
          [intros [= ->]; by destruct (Hun j e' Hj)|].
        simpl. by destruct (decide (id = j)).
      * destruct (decisive id) eqn:Hid;
          [destruct (answer replies id) as [r|] eqn:Hnone|].
        -- left. intros j e' Hj. rewrite answer_snoc.
           destruct (answer replies j) as [r'|] eqn:Hanswer;
             [intros [= ->]; by destruct (Hun j e' Hj)|].
           simpl. destruct (decide (id = j)) as [->|]; [|done]. congruence.
        -- right. by exists replies, id, e, [].
        -- left. intros j e' Hj. rewrite answer_snoc.
           destruct (answer replies j) as [r'|] eqn:Hanswer;
             [intros [= ->]; by destruct (Hun j e' Hj)|].
           simpl. destruct (decide (id = j)) as [->|]; [|done]. congruence.
    + right. exists before, id, e, (after ++ [reply]).
      split; [by rewrite <- app_assoc|done].
Qed.

(** C8, as amended.  In every execution of [#unblock] on a new target,
whatever replies arrive and in whatever order, [this.#unblocked.resolve] is
called at most once, and what it was called with stays.  What decides is the
first rejection of a deciding command, that is of [Runtime.enable],
[Page.enable], [Page.setLifecycleEventsEnabled],
[Security.setIgnoreCertificateErrors], [Target.setAutoAttach], the
installation of a preload script or [Runtime.runIfWaitingForDebugger]: the
deferred is resolved in that turn, with [success] when the client classifies
the error as a close error and with that error otherwise, whatever was
answered to [Network.enable] and [Fetch.enable] and whatever is rejected
later.  When no deciding command is rejected, the deferred is resolved with
[success] as soon as every deciding command is answered and [toggleNetwork]
has returned, which it does also when [Network.enable] or [Fetch.enable] is
rejected; until then it is unresolved.  Every list of replies is of one of
these two kinds.  As long as the deferred is unresolved, [#unblock] waits for
its batch and some command sent is still unanswered. *)
Theorem unblocked_resolves_once (replies : list (nat * Cdp.Reply)) :
  let resolved replies :=
    resolutions (log (world (run (boot unblock created) replies))) in
  length (resolved replies) ≤ 1
  ∧ (∀ x more, resolved replies = [x] → resolved (replies ++ more) = [x])
  ∧ (resolved replies = [] →
     (∃ ps, main (run (boot unblock created) replies)
            = AwaitingAll ps resolveUnblocked)
     ∧ replied (log (world (run (boot unblock created) replies)))
       < issued (log (world (run (boot unblock created) replies))))
  ∧ (∀ before id e after,
       replies = before ++ (id, Cdp.Rejected e) :: after →
       decisive id = true → answer before id = None → unrejected before →
       resolved replies = [if isCloseError e then Success else Error e])
  ∧ (unrejected replies →
     (complete replies → resolved replies = [Success])
     ∧ (¬ complete replies → resolved replies = []))
  ∧ (unrejected replies
     ∨ ∃ before id e after,
         replies = before ++ (id, Cdp.Rejected e) :: after
         ∧ decisive id = true ∧ answer before id = None ∧ unrejected before).
Proof.
  intros resolved. split_and!.
  - set (P := λ _ : Cdp.CdpError, True).
    destruct (run_good P (boot unblock created) replies)
      as [[(ps & _ & _ & Hnone)|(_ & r & _ & Hone)] _].
    + apply Forall_forall. by intros [id [|e]] _.
    + apply boot_good.
    + unfold resolved. rewrite Hnone. simpl. lia.
    + unfold resolved. by rewrite Hone.
  - intros x more. apply run_resolved.
  - intros Hnone. set (P := λ _ : Cdp.CdpError, True).
    set (m := run (boot unblock created) replies) in *.
    destruct (run_good P (boot unblock created) replies)
      as [[(ps & Hps & _ & _)|(_ & r & _ & Hone)] _].
    + apply Forall_forall. by intros [id [|e]] _.
    + apply boot_good.
    + fold m in Hps. split; [by exists ps|].
      pose proof (run_counted (boot unblock created) replies
                    (boot_counted unblock created)) as Hcount.
      pose proof (run_proper unblock created replies) as Hproper.
      fold m in Hcount, Hproper. unfold Counted in Hcount.
      assert (isSettled (main m) = false) as Hpending by by rewrite Hps.
      pose proof (proper_waits (main m) Hproper Hpending). lia.
    + unfold resolved in Hnone. unfold m in Hone.
      rewrite Hone in Hnone. discriminate.
  - intros before id e after -> Hid Hnone Hun.
    assert (¬ complete before) as Hincomplete.
    { intros [Hall _]. destruct (Hall id Hid) as [r Hr]. congruence. }
    destruct (run_settles before (id, Cdp.Rejected e) (Cdp.Rejected e)
                Hun Hincomplete) as [_ Hres];
      [by apply settle_procs_rejected|].
    unfold resolved.
    change (before ++ (id, Cdp.Rejected e) :: after)
      with (before ++ [(id, Cdp.Rejected e)] ++ after).
    rewrite app_assoc. by apply run_resolved.
  - intros Hun. split.
    + intros Hcomplete.
      destruct (first_complete replies Hun Hcomplete)
        as (before & reply & after & -> & Hincomplete & Hthen).
      assert (unrejected (before ++ [reply])) as Hun'.
      { apply (unrejected_prefix _ after). by rewrite <- app_assoc. }
      destruct (run_settles before reply Cdp.Fulfilled) as [_ Hres];
        [by eapply unrejected_prefix|done|by apply settle_procs_complete|].
      unfold resolved.
      change (before ++ reply :: after) with (before ++ [reply] ++ after).
      rewrite app_assoc. by apply run_resolved.
    + intros Hincomplete.
      by destruct (run_waits replies Hun Hincomplete) as (_ & _ & _ & Hres & _).
  - apply first_rejected.
Qed.

(** *** The network flag under [#toggleNetwork] *)

(** X21.  [#toggleNetwork(enable)] sets the network flag to [enable], sends
[Network.enable] or [Network.disable] and waits.  When the command is
rejected the flag becomes the opposite of [enable] and the error is not
passed on; when it succeeds the flag stays.  The fetch stages are not
touched. *)
Theorem toggleNetwork_flag_follows_reply (enable : bool) (w : World) :
  let sent := start (private_toggleNetwork enable) w in
  log sent.2 =
    log w ++ [Issued (nextId w)
                (if enable then Cdp.Network_enable else Cdp.Network_disable)]
  ∧ networkDomainEnabled (state sent.2) = enable
  ∧ fetchDomainStages (state sent.2) = fetchDomainStages (state w)
  ∧ ∀ r : Cdp.Reply,
      let back := deliver (nextId w) r sent.1 sent.2 in
      back.1 = Ended
      ∧ log back.2 = log sent.2 ++ [Replied (nextId w) r]
      ∧ networkDomainEnabled (state back.2) =
          match r with
          | Cdp.Fulfilled => enable
          | Cdp.Rejected _ => negb enable
          end
      ∧ fetchDomainStages (state back.2) = fetchDomainStages (state w).
Proof.
  unfold private_toggleNetwork. simpl. split_and!; [done|done|done|].
  intros r. rewrite decide_True by done. by destruct r.
Qed.

(** *** Fetch waits for Network *)

Lemma TargetState_eq (a b : TargetState) :
  networkDomainEnabled a = networkDomainEnabled b →
  fetchDomainStages a = fetchDomainStages b → a = b.
Proof. destruct a, b. simpl. by intros -> ->. Qed.

(** X22.  [toggleNetwork()] on a target whose Network domain is off and
that has no fetch stage on, as a new target is.  Without a subscription to
the network module it sends nothing, whatever the interception stages are.
With one it sends [Network.enable] alone and waits: when that is rejected
nothing more is sent and the target is as it was; when it succeeds the
network flag is on, and [Fetch.enable] follows, with the patterns of the
interception stages, exactly when one of these stages is on. *)
Theorem toggleNetwork_fetch_waits_for_network (w : World) :
  networkDomainEnabled (state w) = false →
  fetchDomainStages (state w) = noStages →
  let sent := start toggleNetwork w in
  if subscribedToNetwork then
    log sent.2 = log w ++ [Issued (nextId w) Cdp.Network_enable]
    ∧ (∀ e,
         let back := deliver (nextId w) (Cdp.Rejected e) sent.1 sent.2 in
         back.1 = Ended
         ∧ log back.2 = log sent.2 ++ [Replied (nextId w) (Cdp.Rejected e)]
         ∧ state back.2 = state w)
    ∧ (let back := deliver (nextId w) Cdp.Fulfilled sent.1 sent.2 in
       networkDomainEnabled (state back.2) = true
       ∧ log back.2 =
           log sent.2 ++ [Replied (nextId w) Cdp.Fulfilled]
             ++ (if bool_decide (interceptionStages = noStages) then []
                 else [Issued (S (nextId w))
                         (Cdp.Fetch_enable (patternsOf interceptionStages)
                            (auth interceptionStages))]))
  else sent = (Ended, w).
Proof.
  intros Hnetwork Hfetch. unfold toggleNetwork.
  destruct w as [[network fetch] n l d]. simpl in Hnetwork, Hfetch. subst.
  destruct subscribedToNetwork;
    destruct interceptionStages as [[] [] []]; simpl; try done;
    (split; [done|]; split; [intros e|];
     rewrite decide_True by done; simpl; by rewrite <- ?app_assoc).
Qed.

(** *** [Fetch.disable] waits for the blocked requests *)

(** X23.  [#disableFetch]: while a request of the target is blocked in an
intercept phase nothing is sent and the fetch stages stay as they are; the
rest is left to a detached continuation.  With no blocked request the
stages are recorded as off and [Fetch.disable] is sent; its rejection is
passed on to the caller, and the stages stay recorded as off.  The argument
[network] plays no part. *)
Theorem disableFetch_waits_for_blocked_requests (network : bool) (w : World) :
  let sent := start (disableFetch network) w in
  if bool_decide (blockedRequests = 0) then
    log sent.2 = log w ++ [Issued (nextId w) Cdp.Fetch_disable]
    ∧ fetchDomainStages (state sent.2) = noStages
    ∧ networkDomainEnabled (state sent.2) = networkDomainEnabled (state w)
    ∧ ∀ r : Cdp.Reply,
        let back := deliver (nextId w) r sent.1 sent.2 in
        back.1 = match r with
                 | Cdp.Fulfilled => Ended
                 | Cdp.Rejected e => Failed e
                 end
        ∧ log back.2 = log sent.2 ++ [Replied (nextId w) r]
        ∧ state back.2 = state sent.2
  else
    sent = (Ended, record ToggleDeferred w).
Proof.
  unfold disableFetch. destruct (bool_decide (blockedRequests = 0)); [|done].
  simpl. split_and!; [done|done|done|].
  intros r. rewrite decide_True by done. by destruct r.
Qed.

(** *** An earlier revision of the class

Before [toggleNetwork], [#enableFetch] and [#disableFetch] the class had
[toggleFetchIfNeeded()], which reads the stages from the network storage,
records them and then sends [Fetch.enable] without a handler. *)
Definition toggleFetchIfNeeded : Task :=
  Get (λ s,
    let stages := interceptionStages in
    if negb (networkDomainEnabled s)
       || (bool_decide (request (fetchDomainStages s) = request stages)
           && bool_decide (response (fetchDomainStages s) = response stages)
           && bool_decide (auth (fetchDomainStages s) = auth stages))
    then Done
    else
      andThen (assign (set_fetchDomainStages stages))
        (if negb (bool_decide (length (patternsOf stages) = 0))
         then sendCommand (Cdp.Fetch_enable (patternsOf stages) (auth stages))
         else Defer Done)).

(** [toggleNetworkIfNeeded()] of that revision: the network command and the
fetch toggling go into one [Promise.all]. *)
Definition toggleNetworkIfNeeded : Task :=
  Get (λ s,
    let enabled := subscribedToNetwork in
    if bool_decide (enabled = networkDomainEnabled s) then Done
    else
      andThen (assign (set_networkDomainEnabled enabled))
        (try_catch
           (awaitAll
              [ sendCommand
                  (if enabled then Cdp.Network_enable else Cdp.Network_disable);
                toggleFetchIfNeeded ])
           (λ _, assign (set_networkDomainEnabled (negb enabled))))).

(** *** The fetch stages under [#enableFetch] and [toggleFetchIfNeeded] *)

(** C3, as amended.  [#enableFetch(stages)] sends [Fetch.enable] only when
the Network domain is enabled and there is a pattern to enable; otherwise it
changes nothing.  It records the new stages before it sends the command:
they are the recorded ones while the command is in flight.  When the reply
comes, whatever the target has become in the meantime, a success changes
nothing more, and a rejection sets the recorded stages back to the ones of
the moment the method was called, leaves the network flag alone and is not
passed on.  [toggleFetchIfNeeded] of the earlier revision records the new
stages before it sends, too, and has no handler: a rejection is passed on
and the new stages stay recorded. *)
Theorem enableFetch_restores (stages : FetchStages) (w : World) :
  (let sent := start (enableFetch stages) w in
   if networkDomainEnabled (state w)
      && negb (bool_decide (length (patternsOf stages) = 0))
   then
     sent.2 =
       {| state := {| networkDomainEnabled := true;
                      fetchDomainStages := stages |};
          nextId := S (nextId w);
          log := log w ++ [Issued (nextId w)
                             (Cdp.Fetch_enable (patternsOf stages)
                                (auth stages))];
          detached := detached w |}
     ∧ ∀ (r : Cdp.Reply) (later : World),
         deliver (nextId w) r sent.1 later =
           (Ended,
            {| state :=
                 match r with
                 | Cdp.Fulfilled => state later
                 | Cdp.Rejected _ =>
                     {| networkDomainEnabled :=
                          networkDomainEnabled (state later);
                        fetchDomainStages := fetchDomainStages (state w) |}
                 end;
               nextId := nextId later;
               log := log later ++ [Replied (nextId w) r];
               detached := detached later |})
   else sent = (Ended, w))
  ∧ (let sent := start toggleFetchIfNeeded w in
     if negb (networkDomainEnabled (state w))
        || bool_decide (fetchDomainStages (state w) = interceptionStages)
     then sent = (Ended, w)
     else if bool_decide (length (patternsOf interceptionStages) = 0) then
       sent =
         (Ended,
          {| state := {| networkDomainEnabled := true;
                         fetchDomainStages := interceptionStages |};
             nextId := nextId w;
             log := log w ++ [ToggleDeferred];
             detached := detached w |})
     else
       sent.2 =
         {| state := {| networkDomainEnabled := true;
                        fetchDomainStages := interceptionStages |};
            nextId := S (nextId w);
            log := log w ++ [Issued (nextId w)
                               (Cdp.Fetch_enable
                                  (patternsOf interceptionStages)
                                  (auth interceptionStages))];
            detached := detached w |}
       ∧ ∀ (r : Cdp.Reply) (later : World),
           deliver (nextId w) r sent.1 later =
             (match r with
              | Cdp.Fulfilled => Ended
              | Cdp.Rejected e => Failed e
              end,
              {| state := state later;
                 nextId := nextId later;
                 log := log later ++ [Replied (nextId w) r];
                 detached := detached later |})).
Proof.
  destruct w as [[network fetch] n l d]. split.
  - unfold enableFetch. simpl.
    destruct network; simpl; [|done].
    destruct (bool_decide (length (patternsOf stages) = 0)); simpl; [done|].
    split; [done|]. intros r later. rewrite decide_True by done.
    by destruct r, later as [[] ? ? ?].
  - unfold toggleFetchIfNeeded. simpl.
    destruct network; simpl; [|done].
    destruct fetch as [[] [] []], interceptionStages as [[] [] []];
      simpl; try done;
      (split; [done|]; intros r later; rewrite decide_True by done;
       by destruct r, later).
Qed.

End CdpTarget.

(** *** A concrete target *)

Definition sampleIsCloseError (e : Cdp.CdpError) : bool :=
  bool_decide (Cdp.message e = "Target closed").

Definition sampleError : Cdp.CdpError :=
  {| Cdp.code := (-32000)%Z; Cdp.message := "Not allowed" |}.

Definition closeError : Cdp.CdpError :=
  {| Cdp.code := (-32001)%Z; Cdp.message := "Target closed" |}.

(** A target without network subscription, interception or preload
scripts. *)
Definition sampleUnblock : Task :=
  unblock sampleIsCloseError true noStages false 0 [].

Definition requestStages : FetchStages :=
  {| request := true; response := false; auth := false |}.

Definition networkEnabled : World :=
  {| state := {| networkDomainEnabled := true; fetchDomainStages := noStages |};
     nextId := 0; log := []; detached := [] |}.

Example unblock_all_fulfilled :
  let m := run (boot sampleUnblock created)
             [(3, Cdp.Fulfilled); (0, Cdp.Fulfilled); (5, Cdp.Fulfilled);
              (1, Cdp.Fulfilled); (2, Cdp.Fulfilled); (4, Cdp.Fulfilled)] in
  main m = Ended ∧ resolutions (log (world m)) = [Success].
Proof. by vm_compute. Qed.

Example unblock_target_closed :
  let m := run (boot sampleUnblock created)
             [(1, Cdp.Fulfilled); (2, Cdp.Rejected closeError);
              (0, Cdp.Rejected sampleError)] in
  main m = Ended ∧ resolutions (log (world m)) = [Success].
Proof. by vm_compute. Qed.

(** With interception of requests and a network subscription, [Fetch.enable]
is command 7: it is sent when [Network.enable], command 4, is answered, after
[Runtime.runIfWaitingForDebugger], command 6. *)
Example unblock_fetch_enable_follows :
  let m := run (boot (unblock sampleIsCloseError true requestStages true 0 [])
                  created)
             [(4, Cdp.Fulfilled)] in
  log (world m) !! 6 = Some (Issued 6 Cdp.Runtime_runIfWaitingForDebugger)
  ∧ log (world m) !! 7 = Some (Replied 4 Cdp.Fulfilled)
  ∧ log (world m) !! 8
    = Some (Issued 7 (Cdp.Fetch_enable (patternsOf requestStages) false)).
Proof. by vm_compute. Qed.

Example enableFetch_rejected :
  let sent := start (enableFetch requestStages) networkEnabled in
  let back := deliver 0 (Cdp.Rejected sampleError) sent.1 sent.2 in
  fetchDomainStages (state sent.2) = requestStages
  ∧ back.1 = Ended
  ∧ fetchDomainStages (state back.2) = noStages.
Proof. by vm_compute. Qed.

(** The earlier [toggleFetchIfNeeded] fails with the error of a rejected
[Fetch.enable] and leaves the new stages recorded. *)
Example toggleFetchIfNeeded_rejected :
  let sent := start (toggleFetchIfNeeded requestStages) networkEnabled in
  let back := deliver 0 (Cdp.Rejected sampleError) sent.1 sent.2 in
  back.1 = Failed sampleError
  ∧ fetchDomainStages (state back.2) = requestStages.
Proof. by vm_compute. Qed.

(** *** The fetch stages as the specification states them *)

(** The recorded stages change only when [Fetch.enable] has succeeded:
wherever [#enableFetch] leaves other stages than it found, the log holds a
fulfilled reply. *)
Definition enableFetch_as_stated : Prop :=
  ∀ (stages : FetchStages) (w : World),
    let sent := start (enableFetch stages) w in
    fetchDomainStages (state sent.2) ≠ fetchDomainStages (state w) →
    ∃ id, Replied id Cdp.Fulfilled ∈ log sent.2.

(** On a target with the Network domain on and no stage recorded,
[#enableFetch] with the request stage leaves that stage recorded as soon as
it has sent [Fetch.enable], with no reply in the log. *)
Lemma enableFetch_as_stated_counterexample : ¬ enableFetch_as_stated.
Proof.
  intros H.
  destruct (H requestStages networkEnabled) as [id Hin]; [by vm_compute|].
  vm_compute in Hin. apply list_elem_of_singleton in Hin. discriminate.
Qed.

(** Two overlapping calls of [toggleNetwork] on a new target that is
subscribed to the network module and has the request stage to intercept.
The first sends [Network.enable], command 0; the second finds the flag on
and sends [Fetch.enable], command 1.  When command 0 is answered the first
call sends [Fetch.enable] again, command 2, having found the new stages
recorded.  Command 1 is rejected and command 2 succeeds: the stages
recorded at the end are the ones the second call found, none, though the
last [Fetch.enable] succeeded. *)
Example toggleNetwork_overlapping :
  let m :=
    run (boot (awaitAll [ toggleNetwork requestStages true 0;
                          toggleNetwork requestStages true 0 ]) created)
      [ (0, Cdp.Fulfilled); (1, Cdp.Rejected sampleError);
        (2, Cdp.Fulfilled) ] in
  main m = Ended
  ∧ log (world m) =
      [ Issued 0 Cdp.Network_enable;
        Issued 1 (Cdp.Fetch_enable (patternsOf requestStages) false);
        Replied 0 Cdp.Fulfilled;
        Issued 2 (Cdp.Fetch_enable (patternsOf requestStages) false);
        Replied 1 (Cdp.Rejected sampleError);
        Replied 2 Cdp.Fulfilled ]
  ∧ state (world m) =
      {| networkDomainEnabled := true; fetchDomainStages := noStages |}.
Proof. by vm_compute. Qed.

Lemma toggleNetwork_fetch_waits_for_network_witness :
  let w := {| state := created; nextId := 0; log := []; detached := [] |} in
  let sent := start (toggleNetwork requestStages true 0) w in
  let back := deliver 0 Cdp.Fulfilled sent.1 sent.2 in
  log sent.2 = [Issued 0 Cdp.Network_enable]
  ∧ log back.2 =
      [ Issued 0 Cdp.Network_enable; Replied 0 Cdp.Fulfilled;
        Issued 1 (Cdp.Fetch_enable (patternsOf requestStages) false) ].
Proof.
  destruct (toggleNetwork_fetch_waits_for_network requestStages true 0
              {| state := created; nextId := 0; log := []; detached := [] |}
              eq_refl eq_refl)
    as (Hsent & _ & _ & Hback).
  split; [exact Hsent|exact Hback].
Defined.

(** X24.  Repeated [toggleNetwork()] comes to rest.  On a target with no
blocked request whose commands all succeed, whatever its state, the
subscription and the interception stages: two calls complete, and a third
sends nothing and changes nothing.  The Network domain then is on when the
target is subscribed to the network module, and also when it was on and an
interception stage is on; the recorded fetch stages are the interception
stages when the Network domain is on, and otherwise are off, or as they
were if an interception stage is on. *)
Theorem toggleNetwork_comes_to_rest (stages : FetchStages) (subscribed : bool)
    (s : TargetState) :
  let call s :=
    run (boot (toggleNetwork stages subscribed 0) s)
      [(0, Cdp.Fulfilled); (1, Cdp.Fulfilled)] in
  let s1 := state (world (call s)) in
  let s2 := state (world (call s1)) in
  let fetchEnable := request stages || response stages || auth stages in
  main (call s) = Ended
  ∧ main (call s1) = Ended
  ∧ boot (toggleNetwork stages subscribed 0) s2
    = {| main := Ended;
         world := {| state := s2; nextId := 0; log := []; detached := [] |} |}
  ∧ networkDomainEnabled s2
    = subscribed || (networkDomainEnabled s && fetchEnable)
  ∧ fetchDomainStages s2
    = if networkDomainEnabled s2 then stages
      else if fetchEnable then fetchDomainStages s else noStages.
Proof.
  destruct stages as [[] [] []], subscribed, s as [[] [[] [] []]];
    by vm_compute.
Qed.

Definition sendsFetchEnable (e : Event) : bool :=
  match e with
  | Issued _ (Cdp.Fetch_enable _ _) => true
  | _ => false
  end.

(** X25.  A rejected [Network.enable] or [Fetch.enable] does not fail
[#unblock].  On a new target that is subscribed to the network module and
has no preload script, when every other command succeeds the deferred is
resolved with [success], whatever [Network.enable] and [Fetch.enable] are
answered and however the client classifies their errors.  The Network
domain is then recorded as on exactly when [Network.enable] succeeded;
[Fetch.enable] is sent only in that case and only with an interception
stage on, and the fetch stages are recorded exactly when it succeeded. *)
Theorem unblock_survives_network_rejections
    (isCloseError : Cdp.CdpError → bool) (acceptInsecureCerts : bool)
    (stages : FetchStages) (blockedRequests : nat)
    (network fetch : Cdp.Reply) :
  let m :=
    run (boot (unblock isCloseError acceptInsecureCerts stages true
                 blockedRequests []) created)
      [ (0, Cdp.Fulfilled); (1, Cdp.Fulfilled); (2, Cdp.Fulfilled);
        (3, Cdp.Fulfilled); (4, network); (5, Cdp.Fulfilled);
        (6, Cdp.Fulfilled); (7, fetch) ] in
  let sent :=
    bool_decide (network = Cdp.Fulfilled)
    && negb (bool_decide (stages = noStages)) in
  main m = Ended
  ∧ resolutions (log (world m)) = [Success]
  ∧ networkDomainEnabled (state (world m))
    = bool_decide (network = Cdp.Fulfilled)
  ∧ fetchDomainStages (state (world m))
    = (if sent && bool_decide (fetch = Cdp.Fulfilled) then stages
       else noStages)
  ∧ filter (λ e, sendsFetchEnable e = true) (log (world m))
    = if sent
      then [Issued 7 (Cdp.Fetch_enable (patternsOf stages) (auth stages))]
      else [].
Proof.
  destruct acceptInsecureCerts, stages as [[] [] []],
    network as [|e1], fetch as [|e2]; by vm_compute.
Qed.

(** X26.  In the earlier revision, [toggleNetworkIfNeeded()] on a new target
that is subscribed to the network module and has an interception stage on
sends [Network.enable] and [Fetch.enable] together, before either is
answered, and records the new fetch stages at once.  When [Network.enable]
is rejected the method returns with the network flag off again, while the
new fetch stages stay recorded and the answer to [Fetch.enable] is still
awaited, detached. *)
Theorem toggleNetworkIfNeeded_sends_together (stages : FetchStages)
    (e : Cdp.CdpError) :
  stages ≠ noStages →
  let m := boot (toggleNetworkIfNeeded stages true) created in
  let failed := step m (0, Cdp.Rejected e) in
  log (world m)
  = [ Issued 0 Cdp.Network_enable;
      Issued 1 (Cdp.Fetch_enable (patternsOf stages) (auth stages)) ]
  ∧ state (world m)
    = {| networkDomainEnabled := true; fetchDomainStages := stages |}
  ∧ main failed = Ended
  ∧ state (world failed)
    = {| networkDomainEnabled := false; fetchDomainStages := stages |}
  ∧ detached (world failed) = [Awaiting 1 settled].
Proof.
  intros Hne. destruct stages as [[] [] []]; try done; by vm_compute.
Qed.

Lemma toggleNetworkIfNeeded_sends_together_witness :
  let m := boot (toggleNetworkIfNeeded requestStages true) created in
  log (world m)
  = [ Issued 0 Cdp.Network_enable;
      Issued 1 (Cdp.Fetch_enable (patternsOf requestStages) false) ].
Proof.
  apply (toggleNetworkIfNeeded_sends_together requestStages sampleError).
  discriminate.
Defined.

(** A target that is subscribed to the network module, intercepts requests
and has one preload script: its batch is [Runtime.enable] 0, [Page.enable]
1, [Page.setLifecycleEventsEnabled] 2, [Security.setIgnoreCertificateErrors]
3, [Network.enable] 4, [Target.setAutoAttach] 5, the script 6 and
[Runtime.runIfWaitingForDebugger] 7. *)
Definition subscribedUnblock : Task :=
  unblock sampleIsCloseError true requestStages true 0 ["script"].

(** [Network.enable] is rejected, then the installation of the script, then
[Runtime.enable] with a close error: the rejection of the script is the
first of a deciding command, and the deferred is resolved with its error. *)
Lemma unblocked_resolves_once_witness :
  resolutions
    (log (world (run (boot subscribedUnblock created)
                   [ (1, Cdp.Fulfilled); (4, Cdp.Rejected sampleError);
                     (6, Cdp.Rejected sampleError);
                     (0, Cdp.Rejected closeError) ])))
  = [Error sampleError].
Proof.
  refine (proj1 (proj2 (proj2 (proj2
            (unblocked_resolves_once sampleIsCloseError true requestStages
               true 0 ["script"]
               [ (1, Cdp.Fulfilled); (4, Cdp.Rejected sampleError);
                 (6, Cdp.Rejected sampleError);
                 (0, Cdp.Rejected closeError) ]))))
            [ (1, Cdp.Fulfilled); (4, Cdp.Rejected sampleError) ]
            6 sampleError [ (0, Cdp.Rejected closeError) ]
            eq_refl eq_refl eq_refl _).
  intros id e Hid. simpl.
  destruct (decide (1 = id)) as [<-|_]; [done|].
  destruct (decide (4 = id)) as [<-|_]; [|done].
  vm_compute in Hid. discriminate.
Defined.

(** *** How the deferred resolves as the specification states it *)

(** Whenever a step fails, that is a deciding command is rejected, the
deferred is resolved with [success] if the error is a close error and with
the error otherwise. *)
Definition unblocked_as_stated : Prop :=
  ∀ (isCloseError : Cdp.CdpError → bool) (acceptInsecureCerts : bool)
    (interceptionStages : FetchStages) (subscribedToNetwork : bool)
    (blockedRequests : nat) (preloadScripts : list string)
    (replies : list (nat * Cdp.Reply)) (id : nat) (e : Cdp.CdpError),
    decisive acceptInsecureCerts subscribedToNetwork preloadScripts id
    = true →
    answer replies id = Some (Cdp.Rejected e) →
    resolutions
      (log (world (run (boot (unblock isCloseError acceptInsecureCerts
                                interceptionStages subscribedToNetwork
                                blockedRequests preloadScripts) created)
                     replies)))
    = [if isCloseError e then Success else Error e].

(** On the sample target [Runtime.enable] is rejected with a close error
and then [Page.enable] with another error: a step has failed with an error
that is not a close error, and the deferred is resolved with [success]. *)
Lemma unblocked_as_stated_counterexample : ¬ unblocked_as_stated.
Proof.
  intros H.
  specialize (H sampleIsCloseError true noStages false 0 []
                [(0, Cdp.Rejected closeError); (1, Cdp.Rejected sampleError)]
                1 sampleError).
  assert (resolutions
            (log (world (run (boot sampleUnblock created)
                           [ (0, Cdp.Rejected closeError);
                             (1, Cdp.Rejected sampleError) ])))
          = [Success]) as Hcode by (by vm_compute).
  unfold sampleUnblock in Hcode. rewrite H in Hcode.
  - by vm_compute in Hcode.
  - reflexivity.
  - reflexivity.
Qed.

(** The other way round, the deferred is resolved with the error, though a
step has failed with a close error. *)
Example unblock_first_rejection_decides :
  resolutions
    (log (world (run (boot sampleUnblock created)
                   [ (1, Cdp.Rejected sampleError);
                     (0, Cdp.Rejected closeError) ])))
  = [Error sampleError].
Proof. by vm_compute. Qed.

(** [Network.enable] is rejected with an error that is not a close error
and every other command succeeds: the deferred is resolved with
[success]. *)
Example unblock_network_enable_rejected :
  let m := run (boot subscribedUnblock created)
             [ (0, Cdp.Fulfilled); (1, Cdp.Fulfilled); (2, Cdp.Fulfilled);
               (3, Cdp.Fulfilled); (4, Cdp.Rejected sampleError);
               (5, Cdp.Fulfilled); (6, Cdp.Fulfilled); (7, Cdp.Fulfilled) ] in
  main m = Ended ∧ resolutions (log (world m)) = [Success].
Proof. by vm_compute. Qed.

(** With every command of the batch fulfilled the deferred stays unresolved
until [Fetch.enable], command 8, is answered, and a rejection of it still
gives [success]. *)
Example unblock_waits_for_fetch_enable :
  let batch :=
    [ (0, Cdp.Fulfilled); (1, Cdp.Fulfilled); (2, Cdp.Fulfilled);
      (3, Cdp.Fulfilled); (4, Cdp.Fulfilled); (5, Cdp.Fulfilled);
      (6, Cdp.Fulfilled); (7, Cdp.Fulfilled) ] in
  resolutions (log (world (run (boot subscribedUnblock created) batch))) = []
  ∧ resolutions
      (log (world (run (boot subscribedUnblock created)
                     (batch ++ [(8, Cdp.Rejected sampleError)]))))
    = [Success].
Proof. by vm_compute. Qed.

(** *** The order of the commands as the specification states it *)

(** Command [id] has been answered before position [i] of the log. *)
Definition completedBefore (l : list Event) (i id : nat) : Prop :=
  ∃ k r, k < i ∧ l !! k = Some (Replied id r).

(** Wherever [Runtime.runIfWaitingForDebugger] is sent, every command sent
before it has been answered. *)
Definition issuedAfterCompletion (l : list Event) : Prop :=
  ∀ i id, l !! i = Some (Issued id Cdp.Runtime_runIfWaitingForDebugger) →
    ∀ j id' c, j < i → l !! j = Some (Issued id' c) → completedBefore l i id'.

Definition unblock_as_stated : Prop :=
  ∀ isCloseError acceptInsecureCerts interceptionStages subscribedToNetwork
    blockedRequests preloadScripts replies,
    issuedAfterCompletion
      (log (world (run (boot (unblock isCloseError acceptInsecureCerts
                                interceptionStages subscribedToNetwork
                                blockedRequests preloadScripts) created)
                     replies))).

(** On the sample target, before any reply, [Runtime.runIfWaitingForDebugger]
is at position 5 of the log and [Runtime.enable], at position 0, has no
answer. *)
Lemma unblock_as_stated_counterexample : ¬ unblock_as_stated.
Proof.
  intros H.
  specialize (H sampleIsCloseError true noStages false 0 [] [] 5 5).
  destruct (H eq_refl 0 0 Cdp.Runtime_enable) as (k & r & Hk & Hlook);
    [lia|reflexivity|].
  vm_compute in Hlook.
  do 5 (destruct k as [|k]; [done|]). lia.
Qed.

End CdpTarget.

(** ** MessageTransport: the transport the server runner hands to the mapper *)

Module MessageTransport.

Section MessageTransport.

(** The handlers given to [setOnMessage] and the functions given to
[initialize]. *)
Context {Handler Sender : Type}.

(** The private fields. *)
Record Transport := {
  handlers : list Handler;
  sendBidiMessage : option Sender
}.

(** A new [MessageTransport]. *)
Definition created : Transport :=
  {| handlers := []; sendBidiMessage := None |}.

(** A call of a handler or of the sending function. *)
Inductive Call :=
| Handle (handler : Handler) (message : string)
| Send (sender : Sender) (message : string).

Definition setOnMessage (handler : Handler) (t : Transport) : Transport :=
  {| handlers := handlers t ++ [handler];
     sendBidiMessage := sendBidiMessage t |}.

(** [sendMessage(message)]: the call it makes, or the message of the
[Error] it throws. *)
Definition sendMessage (message : string) (t : Transport) : string + Call :=
  match sendBidiMessage t with
  | None => inl "BiDi connection is not initialized yet"
  | Some sender => inr (Send sender message)
  end.

Definition close (t : Transport) : Transport := t.

Definition initialize (sender : Sender) (t : Transport) : Transport :=
  {| handlers := handlers t; sendBidiMessage := Some sender |}.

(** [onMessage(messageStr)]: the calls it makes, in order. *)
Definition onMessage (messageStr : string) (t : Transport) : list Call :=
  (λ handler, Handle handler messageStr) <$> handlers t.

(** The calls made on a transport over its life; [sendMessage] and
[onMessage] leave the fields alone. *)
Inductive Op :=
| SetOnMessage (handler : Handler)
| SendMessage (message : string)
| Close
| Initialize (sender : Sender)
| OnMessage (messageStr : string).

Definition perform (op : Op) (t : Transport) : Transport :=
  match op with
  | SetOnMessage handler => setOnMessage handler t
  | SendMessage _ => t
  | Close => close t
  | Initialize sender => initialize sender t
  | OnMessage _ => t
  end.

Definition run (ops : list Op) : Transport :=
  foldl (λ t op, perform op t) created ops.

Definition registered (op : Op) : option Handler :=
  match op with SetOnMessage handler => Some handler | _ => None end.

Definition initialized (op : Op) : option Sender :=
  match op with Initialize sender => Some sender | _ => None end.

Lemma run_snoc ops op : run (ops ++ [op]) = perform op (run ops).
Proof. unfold run. by rewrite foldl_app. Qed.

Lemma run_fields ops :
  handlers (run ops) = omap registered ops
  ∧ sendBidiMessage (run ops) = last (omap initialized ops).
Proof.
  induction ops as [|op ops [IHh IHs]] using rev_ind; [done|].
  rewrite run_snoc, !omap_app. destruct op; simpl;
    rewrite ?app_nil_r, ?last_snoc; by rewrite ?IHh, ?IHs.
Qed.

(** X27.  A [MessageTransport], after any calls of its methods.  A message
from the client is given to every handler registered with [setOnMessage] so
far, once for each time it was registered, in the order of registration.  A
message of the mapper goes to the function of the latest [initialize], and
[sendMessage] throws [BiDi connection is not initialized yet] exactly when
there has been none; [close] changes nothing. *)
Theorem transport_after_any_calls (ops : list Op) (message : string) :
  onMessage message (run ops)
  = (λ handler, Handle handler message) <$> omap registered ops
  ∧ sendMessage message (run ops)
    = match last (omap initialized ops) with
      | Some sender => inr (Send sender message)
      | None => inl "BiDi connection is not initialized yet"
      end
  ∧ (last (omap initialized ops) = None ↔
       ∀ sender, Initialize sender ∉ ops)
  ∧ run (ops ++ [Close]) = run ops.
Proof.
  destruct (run_fields ops) as [Hh Hs]. split; [|split; [|split]].
  - unfold onMessage. by rewrite Hh.
  - unfold sendMessage. by rewrite Hs.
  - rewrite last_None. split.
    + intros Hnil sender Hin.
      assert (sender ∈ omap initialized ops) as Hsender.
      { apply list_elem_of_omap. by exists (Initialize sender). }
      rewrite Hnil in Hsender. by apply elem_of_nil in Hsender.
    + intros Hnone. destruct (omap initialized ops) as [|sender l] eqn:Hl;
        [done|].
      assert (sender ∈ omap initialized ops) as Hsender
        by (rewrite Hl; apply list_elem_of_here).
      apply list_elem_of_omap in Hsender as (op & Hin & Hop).
      destruct op; try done. injection Hop as ->. by destruct (Hnone sender).
  - by rewrite run_snoc.
Qed.

End MessageTransport.

Example transport_sample :
  let t := run [SetOnMessage "h1"; Initialize "ws1"; SetOnMessage "h2";
                Initialize "ws2"] in
  onMessage "m" t = [Handle (Sender:=string) "h1" "m"; Handle "h2" "m"]
  ∧ sendMessage "out" t = inr (Send (Handler:=string) "ws2" "out")
  ∧ sendMessage "out" (created (Handler:=string) (Sender:=string))
    = inl "BiDi connection is not initialized yet".
Proof. by vm_compute. Qed.

End MessageTransport.
